(** * storageto/cli: the upload engine (package [upload])

    A shallow embedding of [internal/upload/upload.go] and of the parts
    of [internal/api/client.go] it calls, with the properties of the
    upload orchestration engine stated and proved over it.

    Conventions.
    - Go's [int] and [int64] are 64 bits wide on every release target
      (amd64 and arm64); both are modelled as [Z] with the wrap-around
      of each arithmetic operation written out ([wrap64]).
    - [uint32] is [Z] reduced modulo [2^32].
    - A Go [error] is a value of [error]; [nil] is [None] of
      [option error].
    - Whatever the engine cannot decide by itself (answers of the
      remote service, outcome of a transfer, the moment the caller
      cancels, the order in which goroutines finish) is supplied by an
      explicit environment or by the events of a run. *)

From Stdlib Require Import ZArith List String Ascii Lia Bool DecimalString Permutation Sorted.
From Stdlib.Strings Require Import Byte.
From stdpp Require Import base option list gmap strings.
Import ListNotations.
Local Open Scope Z_scope.

(* ===================================================================== *)
(** * Machine integers *)
(* ===================================================================== *)

Definition max_int64 : Z := 2 ^ 63 - 1.
Definition min_int64 : Z := - 2 ^ 63.

(** Two's complement reduction of a mathematical integer to [int64]. *)
Definition wrap64 (z : Z) : Z := (z + 2 ^ 63) mod 2 ^ 64 - 2 ^ 63.

Definition in_int64 (z : Z) : Prop := min_int64 <= z <= max_int64.

Definition add64 (a b : Z) : Z := wrap64 (a + b).
Definition sub64 (a b : Z) : Z := wrap64 (a - b).
Definition mul64 (a b : Z) : Z := wrap64 (a * b).

(** All 32 bits of a [uint32] set. *)
Definition mask32 : Z := 0xFFFFFFFF.

(** [strconv.Itoa]: the decimal rendering of an [int]. *)
Definition Itoa (z : Z) : string := NilZero.string_of_int (Z.to_int z).

(* ===================================================================== *)
(** * Errors and contexts *)
(* ===================================================================== *)

(** Go errors, as far as the engine produces and inspects them:
    the two sentinel errors of package [context], [io.EOF], errors built
    by [fmt.Errorf] from a message alone, and errors that wrap a cause
    ([%w]). *)
Inductive error : Type :=
| Canceled
| DeadlineExceeded
| EOF
| Errorf (msg : string)
| Wrapf (msg : string) (cause : error).

(** What [ctx.Err()] can be told about a [context.Context]. *)
Inductive ctxState : Type :=
| Active
| CtxCanceled
| CtxDeadline.

(** [ctx.Err()] *)
Definition ctxErr (c : ctxState) : option error :=
  match c with
  | Active => None
  | CtxCanceled => Some Canceled
  | CtxDeadline => Some DeadlineExceeded
  end.

(** An error of the kind a cancelled context reports. *)
Definition isCancellation (e : error) : bool :=
  match e with
  | Canceled | DeadlineExceeded => true
  | _ => false
  end.

(** The context a remote call is given: the caller's, or a fresh
    [context.WithTimeout(context.Background(), d)] (d in seconds). *)
Inductive callCtx : Type :=
| CallerCtx
| BackgroundTimeout (seconds : Z).

(* ===================================================================== *)
(** * Constants of the package *)
(* ===================================================================== *)

Definition maxRetries : nat := 3.
Definition retryDelay : Z := 2.            (* seconds *)
Definition concurrentParts : nat := 4.
Definition concurrentFiles : nat := 6.
Definition batchSize : nat := 250.
Definition partURLBatchSize : Z := 50.

(* ===================================================================== *)
(** * [min] and [generatePartNumbers] *)
(* ===================================================================== *)

Definition min (a b : Z) : Z := if a <? b then a else b.

(** How a call of a Go function ends. *)
Inductive outcome (A : Type) : Type :=
| Returns (a : A)
| Panics
| Diverges.
Arguments Returns {A} a.
Arguments Panics {A}.
Arguments Diverges {A}.

(** The loop [for i := start; i <= end; i++ { nums = append(nums, i) }].
    [fuel] bounds the number of times the loop condition is tested. *)
Fixpoint generateLoop (fuel : nat) (i end_ : Z) (nums : list Z) : outcome (list Z) :=
  match fuel with
  | O => Diverges
  | S fuel' =>
      if i <=? end_
      then generateLoop fuel' (add64 i 1) end_ (nums ++ [i])
      else Returns nums
  end.

(** [make([]int, 0, end-start+1)] panics when the capacity is negative.
    (The runtime's limit on the size of an allocation is not modelled.)
    When the allocation succeeds the loop runs; [Z.to_nat cap + 1] tests
    of its condition are enough whenever it terminates at all. *)
Definition generatePartNumbers (start end_ : Z) : outcome (list Z) :=
  let cap := add64 (sub64 end_ start) 1 in
  if cap <? 0 then Panics
  else generateLoop (S (Z.to_nat cap)) start end_ [].

(* ===================================================================== *)
(** * The retry driver: [uploadWithRetry] *)
(* ===================================================================== *)

(** What the driver meets while it runs: the context as it is read at
    the top of iteration [i], the result of the [i]-th call of [fn]
    ([None] is [nil]), and the context as the [select] of the wait after
    attempt [i] sees it ([Active]: the timer fired first). *)
Record retryEnv : Type := {
  ctxBefore : nat -> ctxState;
  fnResult  : nat -> option error;
  ctxInWait : nat -> ctxState
}.

(** What the driver does, in order. *)
Inductive retryEvent : Type :=
| Invoked (i : nat)
| Waited (seconds : Z).

(** The body of [for i := 0; i < maxAttempts; i++]; [left] iterations are
    still to run, [err] is the variable [err], [tr] what was done so far. *)
Fixpoint retryLoop (maxAttempts : nat) (env : retryEnv) (left i : nat)
    (err : option error) (tr : list retryEvent) : option error * list retryEvent :=
  match left with
  | O => (err, tr)
  | S left' =>
      match ctxErr (ctxBefore env i) with
      | Some e => (Some e, tr)
      | None =>
          let err := fnResult env i in
          let tr := tr ++ [Invoked i] in
          match err with
          | None => (None, tr)
          | Some _ =>
              if (i <? maxAttempts - 1)%nat then
                match ctxErr (ctxInWait env i) with
                | Some e => (Some e, tr)
                | None =>
                    retryLoop maxAttempts env left' (S i) err (tr ++ [Waited retryDelay])
                end
              else retryLoop maxAttempts env left' (S i) err tr
          end
      end
  end.

Definition retry (maxAttempts : nat) (env : retryEnv) : option error * list retryEvent :=
  retryLoop maxAttempts env maxAttempts 0%nat None [].

Definition uploadWithRetry (env : retryEnv) : option error * list retryEvent :=
  retry maxRetries env.

Definition invocations (tr : list retryEvent) : list nat :=
  omap (fun ev => match ev with Invoked i => Some i | Waited _ => None end) tr.

Definition delays (tr : list retryEvent) : list Z :=
  omap (fun ev => match ev with Waited d => Some d | Invoked _ => None end) tr.

(* ===================================================================== *)
(** * Part boundaries of a multipart transfer *)
(* ===================================================================== *)

(** [api.InitUploadResponse], the negotiation plan for one file. *)
Record InitUploadResponse : Type := {
  Type_       : string;
  UploadURL   : string;
  UploadID    : string;
  R2Key       : string;
  PartSize    : Z;
  TotalParts  : Z;
  InitialURLs : option (gmap string string)      (* [None]: a nil map *)
}.

(** [offset := int64(partNum-1) * initResp.PartSize] *)
Definition partOffset (initResp : InitUploadResponse) (partNum : Z) : Z :=
  mul64 (sub64 partNum 1) (PartSize initResp).

(** [partSize := initResp.PartSize;
     if partNum == initResp.TotalParts { partSize = size - offset }] *)
Definition partLength (initResp : InitUploadResponse) (size partNum : Z) : Z :=
  if partNum =? TotalParts initResp
  then sub64 size (partOffset initResp partNum)
  else PartSize initResp.

(** The part numbers the loop [for partNum := 1; partNum <= TotalParts]
    visits when it runs to its end. *)
Definition partNumbers (initResp : InitUploadResponse) : list Z :=
  seqZ 1 (TotalParts initResp).

(* ===================================================================== *)
(** * CRC-32 (package [hash/crc32]) *)
(* ===================================================================== *)

(** [crc32.IEEE], the reversed polynomial. *)
Definition IEEE : Z := 0xedb88320.

(** One entry of [simplePopulateTable]: eight conditional shifts. *)
Fixpoint tableEntry (poly : Z) (j : nat) (crc : Z) : Z :=
  match j with
  | O => crc
  | S j' =>
      tableEntry poly j'
        (if Z.land crc 1 =? 1
         then Z.lxor (Z.shiftr crc 1) poly
         else Z.shiftr crc 1)
  end.

Definition simpleMakeTable (poly : Z) : list Z :=
  map (tableEntry poly 8) (seqZ 0 256).

(** [crc32.IEEETable] *)
Definition IEEETable : list Z := Eval vm_compute in simpleMakeTable IEEE.

Definition byteVal (b : byte) : Z := Z.of_N (Byte.to_N b).

(** The loop of [simpleUpdate]:
    [crc = tab[byte(crc)^v] ^ (crc >> 8)] for every byte [v]. *)
Definition crcStep (tab : list Z) (crc : Z) (v : byte) : Z :=
  Z.lxor (nth (Z.to_nat (Z.lxor (Z.land crc 0xFF) (byteVal v))) tab 0)
         (Z.shiftr crc 8).

(** [crc32.Update(crc, tab, p)]: complement, fold the bytes in, complement.
    (The package picks a faster algorithm for [IEEETable]; it computes
    the same function.) *)
Definition Update (crc : Z) (tab : list Z) (p : list byte) : Z :=
  Z.lxor (fold_left (crcStep tab) p (Z.lxor crc mask32)) mask32.

(** [crc32.ChecksumIEEE] *)
Definition ChecksumIEEE (p : list byte) : Z := Update 0 IEEETable p.

(* ===================================================================== *)
(** * The progress/checksum stream: [progressReader] *)
(* ===================================================================== *)

(** The fields of [progressReader] that [Read] touches.  [hasher] is
    [None] for a nil table; [onProgress] tells whether a callback is set. *)
Record progressReader : Type := {
  total      : Z;
  uploaded   : Z;
  onProgress : bool;
  hasher     : option (list Z);
  crc        : Z
}.

(** What one call [pr.reader.Read(p)] of the wrapped reader yields: the
    bytes it put into [p[:n]] and its error ([io.EOF] included). *)
Record readResult : Type := {
  data : list byte;
  rerr : option error
}.

(** What [Read] hands back and does: [n], [err], the reader afterwards
    and the calls of the observer, each with its two arguments. *)
Record readOutcome : Type := {
  after     : progressReader;
  n_read    : Z;
  err_read  : option error;
  callbacks : list (Z * Z)
}.

Definition Read (pr : progressReader) (r : readResult) : readOutcome :=
  let n := Z.of_nat (length (data r)) in
  if 0 <? n then
    let uploaded' := add64 (uploaded pr) n in
    let crc' := match hasher pr with
                | Some tab => Update (crc pr) tab (data r)
                | None => crc pr
                end in
    {| after := {| total := total pr; uploaded := uploaded';
                   onProgress := onProgress pr; hasher := hasher pr; crc := crc' |};
       n_read := n; err_read := rerr r;
       callbacks := if onProgress pr then [(uploaded', total pr)] else [] |}
  else
    {| after := pr; n_read := n; err_read := rerr r; callbacks := [] |}.

(** A sequence of reads through the wrapper: the reader after the last
    one and every observer call, in order. *)
Fixpoint readAll (pr : progressReader) (rs : list readResult)
  : progressReader * list (Z * Z) :=
  match rs with
  | [] => (pr, [])
  | r :: rs' =>
      let o := Read pr r in
      let '(pr', cbs) := readAll (after o) rs' in
      (pr', callbacks o ++ cbs)
  end.

(** All bytes the reads delivered, in order. *)
Definition delivered (rs : list readResult) : list byte :=
  concat (map data rs).

(* ===================================================================== *)
(** * [humanSize] *)
(* ===================================================================== *)

(** Nearest integer to [num / den] ([den > 0]), ties to the even one. *)
Definition roundHalfEven (num den : Z) : Z :=
  let q := num / den in
  let r := num mod den in
  if (2 * r >? den) || ((2 * r =? den) && Z.odd q) then q + 1 else q.

(** [float64(x)] for a positive [int64]: the value of the nearest
    double, which has 53 significant bits; the value is an integer. *)
Definition float64_of_int (x : Z) : Z :=
  let bits := Z.log2 x + 1 in
  if bits <=? 53 then x
  else let ulp := 2 ^ (bits - 53) in roundHalfEven x ulp * ulp.

(** [for n := bytes / unit; n >= unit; n /= unit { div *= unit; exp++ }] *)
Fixpoint humanLoop (fuel : nat) (n div exp : Z) : outcome (Z * Z) :=
  match fuel with
  | O => Diverges
  | S fuel' =>
      if n >=? 1024
      then humanLoop fuel' (Z.quot n 1024) (mul64 div 1024) (add64 exp 1)
      else Returns (div, exp)
  end.

(** What [humanSize] prints, before it is laid out as text: a plain
    count of bytes, or a number of tenths of the unit [1024^(exp+1)]. *)
Inductive sizeText : Type :=
| PlainBytes (bytes : Z)
| Scaled (tenths : Z) (exp : Z).

(** [float64(bytes)/float64(div)] is exact, [div] being a power of two;
    ["%.1f"] prints the decimal nearest to that value with one digit
    after the point, ties to even. *)
Definition humanParts (bytes : Z) : outcome sizeText :=
  if bytes <? 1024 then Returns (PlainBytes bytes)
  else
    match humanLoop 64 (Z.quot bytes 1024) 1024 0 with
    | Returns (div, exp) =>
        Returns (Scaled (roundHalfEven (10 * float64_of_int bytes) div) exp)
    | Panics => Panics
    | Diverges => Diverges
    end.

(** ["KMGTPE"[exp]]: indexing outside the string panics. *)
Definition unitLetter (exp : Z) : outcome ascii :=
  if exp <? 0 then Panics
  else match String.get (Z.to_nat exp) "KMGTPE" with
       | Some c => Returns c
       | None => Panics
       end.

(** [fmt.Sprintf("%d B", bytes)] and [fmt.Sprintf("%.1f %cB", x, c)]. *)
Definition renderSize (t : sizeText) : outcome string :=
  match t with
  | PlainBytes b => Returns (Itoa b ++ " B")%string
  | Scaled tenths exp =>
      match unitLetter exp with
      | Returns c =>
          Returns (Itoa (tenths / 10) ++ "." ++ Itoa (tenths mod 10)
                   ++ " " ++ String c "B")%string
      | Panics => Panics
      | Diverges => Diverges
      end
  end.

Definition humanSize (bytes : Z) : outcome string :=
  match humanParts bytes with
  | Returns t => renderSize t
  | Panics => Panics
  | Diverges => Diverges
  end.

(** Ten times the number of bytes a printed size stands for. *)
Definition tenfoldBytes (t : sizeText) : Z :=
  match t with
  | PlainBytes b => 10 * b
  | Scaled tenths exp => tenths * 1024 ^ (exp + 1)
  end.

(* ===================================================================== *)
(** * The multipart transfer: [uploadMultipart] *)
(* ===================================================================== *)

(** A Go result pair [(value, error)]. *)
Inductive result (A : Type) : Type :=
| Ok (a : A)
| Failed (e : error).
Arguments Ok {A} a.
Arguments Failed {A} e.

(** [api.Part] *)
Record Part : Type := {
  PartNumber : Z;
  ETag       : string
}.

(** The calls of the remote service that [uploadMultipart] makes, each
    with the context it is given. *)
Inductive remoteCall : Type :=
| GetPartURLs (ctx : callCtx) (uploadID : string) (partNumbers : list Z)
| CompleteMultipart (ctx : callCtx) (uploadID : string) (parts : list Part)
| AbortUpload (ctx : callCtx) (uploadID : string).

(** The arguments of one part goroutine: [(pNum, pURL, pOffset, pSize)]. *)
Record worker : Type := {
  pNum    : Z;
  pURL    : string;
  pOffset : Z;
  pSize   : Z
}.

Inductive panicReason : Type :=
| NegativeCapacity      (* makeslice: cap out of range *)
| NilMapWrite.          (* assignment to entry in nil map *)

(** Where the goroutine that runs [uploadMultipart] stands. *)
Inductive mainPC : Type :=
| AtLoop (partNum : Z)            (* about to test [partNum <= TotalParts] *)
| AtAcquire (w : worker)          (* at [sem <- struct{}{}] for this part *)
| AtWait                          (* at [wg.Wait()] *)
| AtReturn (res : result Z)       (* returning; the deferred function is next *)
| Finished (res : result Z)
| Panicked (why : panicReason)
| Hung.

(** The variables shared by the main goroutine and the part goroutines,
    and the remote calls made so far.  [urls] is [initResp.InitialURLs]
    ([None] is a nil map), which the transfer extends in place. *)
Record mpState : Type := {
  pc        : mainPC;
  ctx       : ctxState;
  urls      : option (gmap string string);
  inflight  : list worker;
  parts     : list Part;
  uploadErr : option error;
  calls     : list remoteCall
}.

(** What the remote service and the local disk answer during one step
    of the main goroutine. *)
Record answers : Type := {
  ansPartURLs : result (gmap string string);   (* GetPartURLs *)
  ansComplete : option error;                  (* CompleteMultipart *)
  ansChecksum : result Z;                      (* io.Copy(h, file); h.Sum32() *)
  ansAbort    : option error                   (* AbortUpload *)
}.

(** What can happen next: the caller's context becomes done, the main
    goroutine runs to its next blocking point, or the goroutine of part
    [n] ends with what [uploadPart] returned. *)
Inductive event : Type :=
| Cancel (c : ctxState)
| Main (a : answers)
| PartDone (n : Z) (r : result string).

Definition setPC (p : mainPC) (s : mpState) : mpState :=
  {| pc := p; ctx := ctx s; urls := urls s; inflight := inflight s;
     parts := parts s; uploadErr := uploadErr s; calls := calls s |}.

Definition setCtx (c : ctxState) (s : mpState) : mpState :=
  {| pc := pc s; ctx := c; urls := urls s; inflight := inflight s;
     parts := parts s; uploadErr := uploadErr s; calls := calls s |}.

Definition setURLs (u : option (gmap string string)) (s : mpState) : mpState :=
  {| pc := pc s; ctx := ctx s; urls := u; inflight := inflight s;
     parts := parts s; uploadErr := uploadErr s; calls := calls s |}.

Definition setInflight (ws : list worker) (s : mpState) : mpState :=
  {| pc := pc s; ctx := ctx s; urls := urls s; inflight := ws;
     parts := parts s; uploadErr := uploadErr s; calls := calls s |}.

Definition setParts (ps : list Part) (s : mpState) : mpState :=
  {| pc := pc s; ctx := ctx s; urls := urls s; inflight := inflight s;
     parts := ps; uploadErr := uploadErr s; calls := calls s |}.

Definition setUploadErr (e : option error) (s : mpState) : mpState :=
  {| pc := pc s; ctx := ctx s; urls := urls s; inflight := inflight s;
     parts := parts s; uploadErr := e; calls := calls s |}.

Definition addCall (c : remoteCall) (s : mpState) : mpState :=
  {| pc := pc s; ctx := ctx s; urls := urls s; inflight := inflight s;
     parts := parts s; uploadErr := uploadErr s; calls := calls s ++ [c] |}.

(** The state at the first test of the loop. *)
Definition start (initResp : InitUploadResponse) : mpState :=
  {| pc := AtLoop 1; ctx := Active; urls := InitialURLs initResp;
     inflight := []; parts := []; uploadErr := None; calls := [] |}.

(** The goroutine arguments for part [partNum] (lines "Calculate part
    boundaries"). *)
Definition mkWorker (initResp : InitUploadResponse) (size partNum : Z) (url : string) : worker :=
  {| pNum := partNum; pURL := url;
     pOffset := partOffset initResp partNum;
     pSize := partLength initResp size partNum |}.

(** [for k, v := range moreURLs.URLs { initResp.InitialURLs[k] = v }] *)
Definition mergeURLs (more : gmap string string) (known : option (gmap string string))
  : outcome (option (gmap string string)) :=
  if decide (more = ∅) then Returns known
  else match known with
       | None => Panics
       | Some m => Returns (Some (more ∪ m))
       end.

(** Removes the goroutine of part [n] from those in flight. *)
Fixpoint takeWorker (n : Z) (ws : list worker) : option (list worker) :=
  match ws with
  | [] => None
  | w :: ws' =>
      if pNum w =? n then Some ws'
      else match takeWorker n ws' with
           | Some r => Some (w :: r)
           | None => None
           end
  end.

(** [fmt.Errorf("part %d failed: %w", pNum, err)] *)
Definition partFailed (n : Z) (e : error) : error :=
  Wrapf ("part " ++ Itoa n ++ " failed") e.

(** One iteration of the loop up to the semaphore. *)
Definition loopStep (initResp : InitUploadResponse) (size : Z) (a : answers)
    (partNum : Z) (s : mpState) : mpState :=
  if partNum <=? TotalParts initResp then
    match ctxErr (ctx s) with
    | Some _ => setPC AtWait s                                   (* break *)
    | None =>
        match uploadErr s with
        | Some _ => setPC AtWait s                               (* break *)
        | None =>
            let partNumStr := Itoa partNum in
            match urls s ≫= (fun m => m !! partNumStr) with
            | Some url => setPC (AtAcquire (mkWorker initResp size partNum url)) s
            | None =>
                match generatePartNumbers partNum
                        (min (sub64 (add64 partNum partURLBatchSize) 1)
                             (TotalParts initResp)) with
                | Panics => setPC (Panicked NegativeCapacity) s
                | Diverges => setPC Hung s
                | Returns nums =>
                    let s1 := addCall (GetPartURLs CallerCtx (UploadID initResp) nums) s in
                    match ansPartURLs a with
                    | Failed e =>
                        setPC (AtReturn (Failed (Wrapf "failed to get upload URLs" e))) s1
                    | Ok more =>
                        match mergeURLs more (urls s) with
                        | Returns u =>
                            setPC (AtAcquire (mkWorker initResp size partNum
                                                (default "" (more !! partNumStr))))
                                  (setURLs u s1)
                        | _ => setPC (Panicked NilMapWrite) s1
                        end
                    end
                end
            end
        end
    end
  else setPC AtWait s.

(** From [wg.Wait()] returning to the [return] statement. *)
Definition finishStep (initResp : InitUploadResponse) (a : answers) (s : mpState) : mpState :=
  match ctxErr (ctx s) with
  | Some _ => setPC (AtReturn (Failed (Errorf "upload cancelled"))) s
  | None =>
      match uploadErr s with
      | Some e => setPC (AtReturn (Failed e)) s
      | None =>
          let s1 := addCall (CompleteMultipart CallerCtx (UploadID initResp) (parts s)) s in
          match ansComplete a with
          | Some e => setPC (AtReturn (Failed (Wrapf "failed to complete upload" e))) s1
          | None =>
              match ansChecksum a with
              | Failed e => setPC (AtReturn (Failed (Wrapf "failed to compute CRC-32" e))) s1
              | Ok c => setPC (AtReturn (Ok c)) s1
              end
          end
      end
  end.

(** The deferred function: [if ctx.Err() != nil && initResp.UploadID != ""]
    it calls [AbortUpload] under a fresh ten-second context and drops
    what the call returns. *)
Definition deferredAbort (initResp : InitUploadResponse) (a : answers)
    (res : result Z) (s : mpState) : mpState :=
  match ctxErr (ctx s) with
  | Some _ =>
      if decide (UploadID initResp = "")
      then setPC (Finished res) s
      else setPC (Finished res)
             (addCall (AbortUpload (BackgroundTimeout 10) (UploadID initResp)) s)
  | None => setPC (Finished res) s
  end.

Definition mainStep (initResp : InitUploadResponse) (size : Z) (a : answers)
    (s : mpState) : option mpState :=
  match pc s with
  | AtLoop partNum => Some (loopStep initResp size a partNum s)
  | AtAcquire w =>
      if (length (inflight s) <? concurrentParts)%nat
      then Some (setPC (AtLoop (add64 (pNum w) 1)) (setInflight (inflight s ++ [w]) s))
      else None
  | AtWait =>
      match inflight s with
      | [] => Some (finishStep initResp a s)
      | _ :: _ => None
      end
  | AtReturn res => Some (deferredAbort initResp a res s)
  | Finished _ | Panicked _ | Hung => None
  end.

(** One event; [None] when it cannot happen in state [s]. *)
Definition step (initResp : InitUploadResponse) (size : Z) (ev : event)
    (s : mpState) : option mpState :=
  match ev with
  | Cancel c =>
      match ctx s, c with
      | Active, CtxCanceled | Active, CtxDeadline => Some (setCtx c s)
      | _, _ => None
      end
  | Main a => mainStep initResp size a s
  | PartDone n r =>
      match takeWorker n (inflight s) with
      | None => None
      | Some rest =>
          match r with
          | Failed e =>
              (* uploadErr.CompareAndSwap(nil, ...) *)
              Some (setInflight rest
                      (match uploadErr s with
                       | None => setUploadErr (Some (partFailed n e)) s
                       | Some _ => s
                       end))
          | Ok etag =>
              Some (setInflight rest
                      (setParts (parts s ++ [{| PartNumber := n; ETag := etag |}]) s))
          end
      end
  end.

Fixpoint run (initResp : InitUploadResponse) (size : Z) (evs : list event)
    (s : mpState) : option mpState :=
  match evs with
  | [] => Some s
  | ev :: evs' =>
      match step initResp size ev s with
      | Some s' => run initResp size evs' s'
      | None => None
      end
  end.

(** [uploadMultipart] under a schedule: the state its run reaches when
    the events happen in the given order from the first test of the
    loop, [None] when they cannot happen in that order. *)
Definition uploadMultipart (initResp : InitUploadResponse) (size : Z)
    (evs : list event) : option mpState :=
  run initResp size evs (start initResp).

(** The completion tokens of a run, in the order the parts completed. *)
Definition completions (evs : list event) : list Part :=
  omap (fun ev => match ev with
                  | PartDone n (Ok etag) => Some {| PartNumber := n; ETag := etag |}
                  | _ => None
                  end) evs.

(** The arguments of the calls of each kind, in the order of the calls. *)
Definition completeCalls (cs : list remoteCall) : list (callCtx * string * list Part) :=
  omap (fun c => match c with
                 | CompleteMultipart c id ps => Some (c, id, ps)
                 | _ => None
                 end) cs.

Definition abortCalls (cs : list remoteCall) : list (callCtx * string) :=
  omap (fun c => match c with AbortUpload c id => Some (c, id) | _ => None end) cs.

Definition urlCalls (cs : list remoteCall) : list (list Z) :=
  omap (fun c => match c with GetPartURLs _ _ nums => Some nums | _ => None end) cs.

(* ===================================================================== *)
(** * The batch orchestrator: [uploadFilesBatch] *)
(* ===================================================================== *)

(** [fileMetadata], the per-file record carried through the batch.
    The fields are those of the source, prefixed with [f_]. *)
Record fileMetadata : Type := {
  f_path        : string;
  f_filename    : string;
  f_contentType : string;
  f_size        : Z;
  f_index       : Z;
  f_uploadURL   : string;
  f_r2Key       : string;
  f_uploadErr   : option error;
  f_crc32       : Z
}.

(** [api.BatchFileRequest] *)
Record BatchFileRequest : Type := {
  bf_Filename    : string;
  bf_ContentType : string;
  bf_Size        : Z
}.

(** [api.InitBatchResult], the fields the orchestrator reads. *)
Record InitBatchResult : Type := {
  br_Error     : string;
  br_UploadURL : string;
  br_R2Key     : string
}.

(** [api.BatchConfirmFile] *)
Record BatchConfirmFile : Type := {
  cf_Filename    : string;
  cf_Size        : Z;
  cf_ContentType : string;
  cf_R2Key       : string;
  cf_CRC32       : Z
}.

(** [api.CollectionInfo] *)
Record CollectionInfo : Type := {
  ci_ID        : string;
  ci_URL       : string;
  ci_ExpiresAt : string
}.

(** [Result] of a batch: [FileInfo] stays nil. *)
Record Result : Type := {
  Collection   : option CollectionInfo;
  IsCollection : bool
}.

(** What the orchestrator does to the outside, in order: the remote
    calls, the whole-file transfers it starts, and the warning it
    prints at the end. *)
Inductive batchEffect : Type :=
| CreateCollection (expectedFileCount : Z)
| InitUploadBatch (files : list BatchFileRequest)
| PutFile (f : fileMetadata)
| ConfirmUploadBatch (collectionID : string) (files : list BatchConfirmFile)
| MarkCollectionReady (collectionID : string)
| PrintWarning (errorCount : Z).

(** What the orchestrator meets: the file system, the remote service,
    the caller's context as read at the top of iteration [i] of the
    transfer loop, and what [uploadFileToR2] returns for a file.
    [createCollection] and [markReady] give the [Collection] of a
    successful response (the source reads it without a nil check). *)
Record batchEnv : Type := {
  osOpen           : string -> option error;
  fileStat         : string -> result Z;
  detectedType     : string -> string;
  filepathBase     : string -> string;
  createCollection : Z -> result CollectionInfo;
  initBatch        : nat -> list BatchFileRequest -> result (gmap string InitBatchResult);
  ctxAtFile        : nat -> ctxState;
  transfer         : fileMetadata -> result Z;
  confirmBatch     : nat -> list BatchConfirmFile -> option error;
  markReady        : string -> result CollectionInfo
}.

(** Computations that log their effects and may return early with an
    error. *)
Definition M (A : Type) : Type := list batchEffect -> result A * list batchEffect.

#[local] Instance M_ret : MRet M := fun A a log => (Ok a, log).

#[local] Instance M_bind : MBind M := fun A B f m log =>
  match m log with
  | (Ok a, log') => f a log'
  | (Failed e, log') => (Failed e, log')
  end.

Definition emit (c : batchEffect) : M unit := fun log => (Ok tt, log ++ [c]).

Definition fail {A : Type} (e : error) : M A := fun log => (Failed e, log).

(** Returns [r], an error wrapped as [fmt.Errorf(msg + ": %w", err)]. *)
Definition orWrap {A : Type} (msg : string) (r : result A) : M A :=
  match r with
  | Ok a => mret a
  | Failed e => fail (Wrapf msg e)
  end.

(** The slices [l[start:end]] that a loop
    [for start := 0; start < len(l); start += n] cuts. *)
Fixpoint pagesFrom {A : Type} (fuel n : nat) (l : list A) : list (list A) :=
  match fuel with
  | O => []
  | S fuel' =>
      match l with
      | [] => []
      | _ :: _ => take n l :: pagesFrom fuel' n (drop n l)
      end
  end.

Definition pages {A : Type} (n : nat) (l : list A) : list (list A) :=
  pagesFrom (length l) n l.

(** Step 1: collect file metadata. *)
Fixpoint collectMetadata (env : batchEnv) (i : nat) (paths : list string)
  : M (list fileMetadata) :=
  match paths with
  | [] => mret []
  | path :: rest =>
      match osOpen env path with
      | Some e => fail (Wrapf ("cannot open " ++ path) e)
      | None =>
          size ← orWrap ("cannot stat " ++ path) (fileStat env path);
          files ← collectMetadata env (S i) rest;
          mret ({| f_path := path; f_filename := filepathBase env path;
                   f_contentType := detectedType env path; f_size := size;
                   f_index := Z.of_nat i; f_uploadURL := ""; f_r2Key := "";
                   f_uploadErr := None; f_crc32 := 0 |} :: files)
      end
  end.

Definition batchRequest (batch : list fileMetadata) : list BatchFileRequest :=
  map (fun f => {| bf_Filename := f_filename f; bf_ContentType := f_contentType f;
                   bf_Size := f_size f |}) batch.

(** "Store results": what the answer for index [i] of the page does to
    the file at that index. *)
Definition storeResult (results : gmap string InitBatchResult) (i : nat)
    (f : fileMetadata) : fileMetadata :=
  match results !! Itoa (Z.of_nat i) with
  | Some r =>
      if decide (br_Error r = "")
      then {| f_path := f_path f; f_filename := f_filename f;
              f_contentType := f_contentType f; f_size := f_size f;
              f_index := f_index f; f_uploadURL := br_UploadURL r;
              f_r2Key := br_R2Key r; f_uploadErr := f_uploadErr f;
              f_crc32 := f_crc32 f |}
      else {| f_path := f_path f; f_filename := f_filename f;
              f_contentType := f_contentType f; f_size := f_size f;
              f_index := f_index f; f_uploadURL := f_uploadURL f;
              f_r2Key := f_r2Key f; f_uploadErr := Some (Errorf (br_Error r));
              f_crc32 := f_crc32 f |}
  | None => f
  end.

Definition storeResults (results : gmap string InitBatchResult)
    (batch : list fileMetadata) : list fileMetadata :=
  imap (storeResult results) batch.

(** Step 3: negotiate page by page. *)
Fixpoint initPages (env : batchEnv) (page : nat) (ps : list (list fileMetadata))
  : M (list fileMetadata) :=
  match ps with
  | [] => mret []
  | batch :: rest =>
      _ ← emit (InitUploadBatch (batchRequest batch));
      results ← orWrap "failed to init batch" (initBatch env page (batchRequest batch));
      files ← initPages env (S page) rest;
      mret (storeResults results batch ++ files)
  end.

Definition setTransferErr (e : error) (f : fileMetadata) : fileMetadata :=
  {| f_path := f_path f; f_filename := f_filename f;
     f_contentType := f_contentType f; f_size := f_size f;
     f_index := f_index f; f_uploadURL := f_uploadURL f;
     f_r2Key := f_r2Key f; f_uploadErr := Some e; f_crc32 := f_crc32 f |}.

Definition setCrc32 (c : Z) (f : fileMetadata) : fileMetadata :=
  {| f_path := f_path f; f_filename := f_filename f;
     f_contentType := f_contentType f; f_size := f_size f;
     f_index := f_index f; f_uploadURL := f_uploadURL f;
     f_r2Key := f_r2Key f; f_uploadErr := f_uploadErr f; f_crc32 := c |}.

(** The file has no usable upload plan:
    [f.uploadErr != nil || f.uploadURL == ""]. *)
Definition noPlan (f : fileMetadata) : bool :=
  bool_decide (f_uploadErr f ≠ None) || bool_decide (f_uploadURL f = "").

(** The counters of step 4. *)
Record counters : Type := {
  uploadedCount : Z;
  errorCount    : Z
}.

(** Step 4: the transfer loop together with the goroutines it starts.
    A goroutine writes only its own file record and the two atomic
    counters, and the loop reads a record only before that record's
    goroutine exists, so what is left after [wg.Wait()] does not depend
    on the interleaving: the goroutine's work is done here where it is
    started. *)
Fixpoint uploadLoop (env : batchEnv) (i : nat) (files : list fileMetadata)
    (c : counters) : M (list fileMetadata * counters) :=
  match files with
  | [] => mret ([], c)
  | f :: rest =>
      match ctxErr (ctxAtFile env i) with
      | Some _ => mret (files, c)                                       (* break *)
      | None =>
          if noPlan f then
            '(rest', c') ← uploadLoop env (S i) rest
                             {| uploadedCount := uploadedCount c;
                                errorCount := add64 (errorCount c) 1 |};
            mret (f :: rest', c')
          else
            _ ← emit (PutFile f);
            match transfer env f with
            | Failed e =>
                '(rest', c') ← uploadLoop env (S i) rest
                                 {| uploadedCount := uploadedCount c;
                                    errorCount := add64 (errorCount c) 1 |};
                mret (setTransferErr e f :: rest', c')
            | Ok crc =>
                '(rest', c') ← uploadLoop env (S i) rest
                                 {| uploadedCount := add64 (uploadedCount c) 1;
                                    errorCount := errorCount c |};
                mret (setCrc32 crc f :: rest', c')
            end
      end
  end.

(** [f.uploadErr == nil && f.r2Key != ""] *)
Definition confirmable (f : fileMetadata) : bool :=
  bool_decide (f_uploadErr f = None) && bool_decide (f_r2Key f ≠ "").

Definition confirmRequest (batch : list fileMetadata) : list BatchConfirmFile :=
  map (fun f => {| cf_Filename := f_filename f; cf_Size := f_size f;
                   cf_ContentType := f_contentType f; cf_R2Key := f_r2Key f;
                   cf_CRC32 := f_crc32 f |}) batch.

(** Step 5: confirm page by page. *)
Fixpoint confirmPages (env : batchEnv) (collectionID : string) (page : nat)
    (ps : list (list fileMetadata)) : M unit :=
  match ps with
  | [] => mret tt
  | batch :: rest =>
      _ ← emit (ConfirmUploadBatch collectionID (confirmRequest batch));
      match confirmBatch env page (confirmRequest batch) with
      | Some e => fail (Wrapf "failed to confirm batch" e)
      | None => confirmPages env collectionID (S page) rest
      end
  end.

(** Steps 2 to 6 on the collected files. *)
Definition uploadCollected (env : batchEnv) (files : list fileMetadata) : M Result :=
  _ ← emit (CreateCollection (Z.of_nat (length files)));
  coll ← orWrap "failed to create collection"
           (createCollection env (Z.of_nat (length files)));
  let collectionID := ci_ID coll in
  files ← initPages env 0 (pages batchSize files);
  '(files, c) ← uploadLoop env 0 files {| uploadedCount := 0; errorCount := 0 |};
  _ ← confirmPages env collectionID 0 (pages batchSize (filter (fun f => confirmable f = true) files));
  _ ← emit (MarkCollectionReady collectionID);
  ready ← orWrap "failed to finalize collection" (markReady env collectionID);
  _ ← (if 0 <? errorCount c then emit (PrintWarning (errorCount c)) else mret tt);
  mret {| Collection := Some ready; IsCollection := true |}.

Definition uploadFilesBatch (env : batchEnv) (paths : list string)
  : result Result * list batchEffect :=
  (files ← collectMetadata env 0 paths; uploadCollected env files) [].

(** The records of the files after the transfers, as step 5 reads them
    (for stating what happened to each file). *)
Definition filesAfterTransfer (env : batchEnv) (files : list fileMetadata)
  : result (list fileMetadata * counters) :=
  fst ((files ← initPages env 0 (pages batchSize files);
        uploadLoop env 0 files {| uploadedCount := 0; errorCount := 0 |}) []).

Definition transferred (log : list batchEffect) : list fileMetadata :=
  omap (fun c => match c with PutFile f => Some f | _ => None end) log.

Definition confirmed (log : list batchEffect) : list BatchConfirmFile :=
  concat (omap (fun c => match c with
                         | ConfirmUploadBatch _ fs => Some fs
                         | _ => None
                         end) log).

Definition warnings (log : list batchEffect) : list Z :=
  omap (fun c => match c with PrintWarning n => Some n | _ => None end) log.

(* ===================================================================== *)
(** * Notions used to state the properties *)
(* ===================================================================== *)

(** What [k] failed attempts of the retry driver, each followed by a
    full wait, leave in the trace. *)
Definition failedRounds (k : nat) : list retryEvent :=
  flat_map (fun i => [Invoked i; Waited retryDelay]) (seq 0 k).

(** Attempt [i] starts with the context active, fails, and the wait
    after it is not interrupted. *)
Definition failsQuietly (env : retryEnv) (i : nat) : Prop :=
  ctxBefore env i = Active /\ fnResult env i <> None /\ ctxInWait env i = Active.

Definition sumZ (l : list Z) : Z := foldr Z.add 0 l.

(** The lengths of the parts [1..TotalParts], in order. *)
Definition partLengths (initResp : InitUploadResponse) (size : Z) : list Z :=
  map (partLength initResp size) (partNumbers initResp).

(** The wrapper as [uploadSingle] builds it: nothing read yet, checksum
    accumulation on with [crc32.IEEETable], an observer set. *)
Definition newChecksumReader (total : Z) : progressReader :=
  {| total := total; uploaded := 0; onProgress := true;
     hasher := Some IEEETable; crc := 0 |}.

(** The numbers of the parts whose goroutine was started: those that
    completed and those still in flight. *)
Definition launched (s : mpState) : list Z :=
  map PartNumber (parts s) ++ map pNum (inflight s).

(** What holds of the loop variable and of the started parts at each
    point of the main goroutine. *)
Definition progressInv (initResp : InitUploadResponse) (s : mpState) : Prop :=
  let T := TotalParts initResp in
  match pc s with
  | AtLoop n =>
      1 <= n <= Z.max T 0 + 1
      /\ (uploadErr s = None -> launched s ≡ₚ seqZ 1 (n - 1))
  | AtAcquire w =>
      1 <= pNum w <= T
      /\ (uploadErr s = None -> launched s ≡ₚ seqZ 1 (pNum w - 1))
  | AtWait => ctx s = Active -> uploadErr s = None -> launched s ≡ₚ seqZ 1 T
  | AtReturn _ | Finished _ => True
  | Panicked why => why = NilMapWrite
  | Hung => False
  end.

(** At the [return]: either nothing was finalized and the result is an
    error, or the one finalize call carried all parts, none in flight. *)
Definition finalized (initResp : InitUploadResponse) (res : result Z) (s : mpState) : Prop :=
  (completeCalls (calls s) = [] /\ exists e, res = Failed e)
  \/ (completeCalls (calls s) = [(CallerCtx, UploadID initResp, parts s)]
      /\ inflight s = []
      /\ map PartNumber (parts s) ≡ₚ seqZ 1 (TotalParts initResp)).

(** What holds of the remote calls made so far. *)
Definition callsInv (initResp : InitUploadResponse) (s : mpState) : Prop :=
  (forall nums, nums ∈ urlCalls (calls s) ->
     exists p, 1 <= p <= TotalParts initResp
               /\ nums = seqZ p (Z.min (p + 49) (TotalParts initResp) - p + 1))
  /\ match pc s with
     | AtReturn res => abortCalls (calls s) = [] /\ finalized initResp res s
     | Finished res =>
         finalized initResp res s
         /\ (abortCalls (calls s) = []
             \/ (abortCalls (calls s) = [(BackgroundTimeout 10, UploadID initResp)]
                 /\ ctx s <> Active /\ UploadID initResp <> ""))
     | _ => completeCalls (calls s) = [] /\ abortCalls (calls s) = []
     end.

(** What step 4 leaves in the record of a file when the context stays
    active: nothing for a file without a plan, else the outcome of its
    transfer. *)
Definition afterTransfer (env : batchEnv) (f : fileMetadata) : fileMetadata :=
  if noPlan f then f
  else match transfer env f with
       | Failed e => setTransferErr e f
       | Ok crc => setCrc32 crc f
       end.

(** The file's record after negotiation is the record before it with
    the answer for some index stored. *)
Definition negotiatedFrom (f f' : fileMetadata) : Prop :=
  exists results i, f' = storeResult results i f.

(** The effects of a batch run in which every batch-level call succeeds. *)
Definition batchLog (collectionID : string) (files negotiated : list fileMetadata)
    (after : list fileMetadata) : list batchEffect :=
  [CreateCollection (Z.of_nat (length files))]
  ++ map (fun b => InitUploadBatch (batchRequest b)) (pages batchSize files)
  ++ map PutFile (filter (fun f => noPlan f = false) negotiated)
  ++ map (fun b => ConfirmUploadBatch collectionID (confirmRequest b))
         (pages batchSize (filter (fun f => confirmable f = true) after))
  ++ [MarkCollectionReady collectionID].

(* ===================================================================== *)
(** * Concrete scenarios *)
(* ===================================================================== *)

Definition env_two_failures : retryEnv :=
  {| ctxBefore := fun _ => Active;
     fnResult := fun i => if (i <? 2)%nat then Some (Errorf "HTTP 503") else None;
     ctxInWait := fun _ => Active |}.

Definition env_always_failing : retryEnv :=
  {| ctxBefore := fun _ => Active;
     fnResult := fun i => Some (Errorf ("HTTP 500 #" ++ Itoa (Z.of_nat i)));
     ctxInWait := fun _ => Active |}.

Definition env_cancelled_in_wait : retryEnv :=
  {| ctxBefore := fun _ => Active;
     fnResult := fun _ => Some (Errorf "connection reset");
     ctxInWait := fun i => if (i =? 1)%nat then CtxCanceled else Active |}.

Definition env_cancelled_before : retryEnv :=
  {| ctxBefore := fun i => if (i =? 1)%nat then CtxCanceled else Active;
     fnResult := fun _ => Some (Errorf "connection reset");
     ctxInWait := fun _ => Active |}.

(** A plan whose part count does not match the file: 100 bytes, parts of
    10 bytes, but only 5 parts. *)
Definition plan_short : InitUploadResponse :=
  {| Type_ := "multipart"; UploadURL := ""; UploadID := "up-1"; R2Key := "k";
     PartSize := 10; TotalParts := 5; InitialURLs := None |}.

(** 25 bytes in parts of 10 bytes: 3 parts. *)
Definition plan_25 : InitUploadResponse :=
  {| Type_ := "multipart"; UploadURL := ""; UploadID := "up-2"; R2Key := "k";
     PartSize := 10; TotalParts := 3; InitialURLs := None |}.

(** Three reads of a nine-byte stream: four bytes, five bytes together
    with [io.EOF], then nothing but [io.EOF]. *)
Definition reads_123456789 : list readResult :=
  [ {| data := list_byte_of_string "1234"; rerr := None |};
    {| data := list_byte_of_string "56789"; rerr := Some EOF |};
    {| data := []; rerr := Some EOF |} ].

(** Two parts whose URLs came with the plan. *)
Definition plan_two : InitUploadResponse :=
  {| Type_ := "multipart"; UploadURL := ""; UploadID := "up-3"; R2Key := "k";
     PartSize := 10; TotalParts := 2;
     InitialURLs := Some {[ "1" := "https://r2/1"; "2" := "https://r2/2" ]} |}.

(** Two parts, no URL known yet. *)
Definition plan_no_urls : InitUploadResponse :=
  {| Type_ := "multipart"; UploadURL := ""; UploadID := "up-4"; R2Key := "k";
     PartSize := 10; TotalParts := 2; InitialURLs := Some ∅ |}.

(** Every call succeeds. *)
Definition all_fine : answers :=
  {| ansPartURLs := Ok {[ "1" := "https://r2/1"; "2" := "https://r2/2" ]};
     ansComplete := None; ansChecksum := Ok 0x1234; ansAbort := None |}.

(** The service refuses to hand out part URLs. *)
Definition no_urls : answers :=
  {| ansPartURLs := Failed (Errorf "rate limited"); ansComplete := None;
     ansChecksum := Ok 0; ansAbort := None |}.

(** Both parts are started; part 2 completes before part 1. *)
Definition run_out_of_order : list event :=
  [ Main all_fine; Main all_fine; Main all_fine; Main all_fine;
    PartDone 2 (Ok "etag-2"); PartDone 1 (Ok "etag-1");
    Main all_fine; Main all_fine; Main all_fine ].

(** The first URL page cannot be fetched; nobody cancels. *)
Definition run_url_failure : list event :=
  [ Main no_urls; Main no_urls ].

(** The caller cancels while part 1 is in flight. *)
Definition run_cancelled : list event :=
  [ Main all_fine; Main all_fine; Cancel CtxCanceled;
    PartDone 1 (Failed Canceled); Main all_fine; Main all_fine; Main all_fine ].

(** The same, stopped at the [return], before the deferred function. *)
Definition run_cancelled_returning : list event :=
  [ Main all_fine; Main all_fine; Cancel CtxCanceled;
    PartDone 1 (Failed Canceled); Main all_fine; Main all_fine ].

(** The state a run of events ends in (the start state if the events
    cannot happen in that order). *)
Definition stateAfter (initResp : InitUploadResponse) (size : Z) (evs : list event)
  : mpState :=
  default (start initResp) (uploadMultipart initResp size evs).

(** Ten files; the service refuses the third ([index 2]) and plans the
    others; every transfer and every batch-level call succeeds. *)
Definition answer_ok (i : nat) : InitBatchResult :=
  {| br_Error := ""; br_UploadURL := "https://r2/put/" ++ Itoa (Z.of_nat i);
     br_R2Key := "key-" ++ Itoa (Z.of_nat i) |}.

Definition answer_refused : InitBatchResult :=
  {| br_Error := "file type not allowed"; br_UploadURL := ""; br_R2Key := "" |}.

Definition env_third_refused : batchEnv :=
  {| osOpen := fun _ => None;
     fileStat := fun _ => Ok 5;
     detectedType := fun _ => "text/plain";
     filepathBase := fun p => p;
     createCollection := fun _ => Ok {| ci_ID := "col-1"; ci_URL := "https://storage.to/c/col-1";
                                        ci_ExpiresAt := "" |};
     initBatch := fun _ fs =>
       Ok (list_to_map (imap (fun i _ => (Itoa (Z.of_nat i),
                                          if (i =? 2)%nat then answer_refused
                                          else answer_ok i)) fs));
     ctxAtFile := fun _ => Active;
     transfer := fun _ => Ok 0xCBF43926;
     confirmBatch := fun _ _ => None;
     markReady := fun id => Ok {| ci_ID := id; ci_URL := "https://storage.to/c/col-1";
                                  ci_ExpiresAt := "" |} |}.

Definition ten_paths : list string :=
  map (fun i => ("file-" ++ Itoa i)%string) (seqZ 1 10).

(* ===================================================================== *)
(** * Further notions for the multipart transfer *)
(* ===================================================================== *)

(** The error the first failing part goroutine of a run offers to
    [uploadErr.CompareAndSwap(nil, ...)]. *)
Definition firstFailure (evs : list event) : option error :=
  head (omap (fun ev => match ev with
                        | PartDone n (Failed e) => Some (partFailed n e)
                        | _ => None
                        end) evs).

(** The number of part goroutines the main goroutine starts while the
    events [evs] happen from state [s] on: one for each step it takes
    through the semaphore. *)
Fixpoint starts (initResp : InitUploadResponse) (size : Z) (evs : list event)
    (s : mpState) : nat :=
  match evs with
  | [] => 0
  | ev :: evs' =>
      match step initResp size ev s with
      | Some s' =>
          (match ev, pc s with
           | Main _, AtAcquire _ => 1
           | _, _ => 0
           end + starts initResp size evs' s')%nat
      | None => 0%nat
      end
  end.

(** The loop will start no further part: the context is done or a part
    has failed. *)
Definition stopping (s : mpState) : Prop :=
  ctx s <> Active \/ uploadErr s <> None.

(** The error of a failed [GetPartURLs], as [uploadMultipart] returns it. *)
Definition isURLFailure (res : result Z) : Prop :=
  exists e, res = Failed (Wrapf "failed to get upload URLs" e).

(** What can be said of the result at and after the [return]. *)
Definition resultInv (s : mpState) : Prop :=
  match pc s with
  | AtReturn res | Finished res =>
      isURLFailure res
      \/ (inflight s = []
          /\ ((ctx s <> Active /\ res = Failed (Errorf "upload cancelled"))
              \/ (exists e, uploadErr s = Some e /\ res = Failed e)
              \/ (uploadErr s = None /\ completeCalls (calls s) <> [])))
  | _ => True
  end.

(** Six parts of ten bytes, every URL handed out with the plan. *)
Definition plan_six : InitUploadResponse :=
  {| Type_ := "multipart"; UploadURL := ""; UploadID := "up-6"; R2Key := "k";
     PartSize := 10; TotalParts := 6;
     InitialURLs := Some (list_to_map
                            (map (fun n => (Itoa n, ("https://r2/" ++ Itoa n)%string))
                                 (seqZ 1 6))) |}.

(** The main goroutine runs until it stands at the semaphore for part 5
    with four parts in flight. *)
Definition run_four_in_flight : list event :=
  replicate 9 (Main all_fine).

(** Parts 1 and 2 are in flight; part 2 fails, then part 1 fails; the
    function runs to its end. *)
Definition run_two_failures : list event :=
  [ Main all_fine; Main all_fine; Main all_fine; Main all_fine;
    PartDone 2 (Failed (Errorf "HTTP 500")); PartDone 1 (Failed (Errorf "HTTP 403"));
    Main all_fine; Main all_fine; Main all_fine ].

(** Part 1 of six is in flight and fails while the main goroutine stands
    at the semaphore for part 2. *)
Definition run_failure_at_semaphore : list event :=
  [ Main all_fine; Main all_fine; Main all_fine;
    PartDone 1 (Failed (Errorf "HTTP 500")) ].

(** Two parts; only the URL of part 1 came with the plan. *)
Definition plan_partial : InitUploadResponse :=
  {| Type_ := "multipart"; UploadURL := ""; UploadID := "up-5"; R2Key := "k";
     PartSize := 10; TotalParts := 2;
     InitialURLs := Some {[ "1" := "https://r2/1" ]} |}.

(** Part 1 is started; the URL of part 2 cannot be fetched; the function
    returns while part 1 is still in flight. *)
Definition run_returns_early : list event :=
  [ Main all_fine; Main all_fine; Main no_urls; Main no_urls ].

(** The goroutine of a part works on the URL planned for that part and
    on that part's stretch of the file. *)
Definition plannedWorker (initResp : InitUploadResponse) (size : Z)
    (m : gmap string string) (w : worker) : Prop :=
  m !! Itoa (pNum w) = Some (pURL w)
  /\ pOffset w = partOffset initResp (pNum w)
  /\ pSize w = partLength initResp size (pNum w).

(** What a run keeps when every URL came with the plan. *)
Definition knownURLsInv (initResp : InitUploadResponse) (size : Z)
    (m : gmap string string) (s : mpState) : Prop :=
  urlCalls (calls s) = []
  /\ urls s = Some m
  /\ Forall (plannedWorker initResp size m) (inflight s)
  /\ match pc s with
     | AtAcquire w => plannedWorker initResp size m w
     | Panicked _ | Hung => False
     | _ => True
     end.

(* ===================================================================== *)
(** * Further notions for the batch orchestrator *)
(* ===================================================================== *)

Definition initEffects (ps : list (list fileMetadata)) : list batchEffect :=
  map (fun b => InitUploadBatch (batchRequest b)) ps.

Definition confirmEffects (collectionID : string) (ps : list (list fileMetadata))
  : list batchEffect :=
  map (fun b => ConfirmUploadBatch collectionID (confirmRequest b)) ps.

(** How many files the transfer loop of step 4 visits, from iteration
    [i] on, before it is left ([break] on a done context) or ends. *)
Fixpoint visited (env : batchEnv) (i : nat) (files : list fileMetadata) : nat :=
  match files with
  | [] => 0
  | _ :: rest =>
      match ctxErr (ctxAtFile env i) with
      | Some _ => 0
      | None => S (visited env (S i) rest)
      end
  end.

(** The file records after step 4: those the loop visited carry the
    outcome of their transfer, the others are untouched. *)
Definition afterLoop (env : batchEnv) (files : list fileMetadata) : list fileMetadata :=
  map (afterTransfer env) (take (visited env 0 files) files)
  ++ drop (visited env 0 files) files.

(** The transfers step 4 starts: one for every visited file with a plan. *)
Definition putEffects (env : batchEnv) (files : list fileMetadata) : list batchEffect :=
  map PutFile (filter (fun f => noPlan f = false) (take (visited env 0 files) files)).

(** The pages of files that step 5 sends for confirmation. *)
Definition confirmPagesOf (env : batchEnv) (negotiated : list fileMetadata)
  : list (list fileMetadata) :=
  pages batchSize (filter (fun f => confirmable f = true) (afterLoop env negotiated)).

(** Every page before page [k] is answered without error. *)
Definition pagesAnswered {A B : Type} (call : nat -> A -> result B) (reqs : list A)
    (k : nat) : Prop :=
  forall j r, (j < k)%nat -> reqs !! j = Some r -> exists b, call j r = Ok b.

Definition pagesConfirmed {A : Type} (call : nat -> A -> option error) (reqs : list A)
    (k : nat) : Prop :=
  forall j r, (j < k)%nat -> reqs !! j = Some r -> call j r = None.

(** The ways a batch upload ends, each with what it returns and what it
    has done to the outside by then: it fails on a local file before
    anything is sent; the collection cannot be created; a negotiation
    page fails; a confirmation page fails; the collection cannot be
    marked ready; or all of it succeeds. *)
Inductive batchOutcome (env : batchEnv) (paths : list string)
  : result Result -> list batchEffect -> Prop :=
| ExitMetadata (e : error) :
    fst (collectMetadata env 0 paths []) = Failed e ->
    batchOutcome env paths (Failed e) []
| ExitCreate (files : list fileMetadata) (e : error) :
    fst (collectMetadata env 0 paths []) = Ok files ->
    createCollection env (Z.of_nat (length files)) = Failed e ->
    batchOutcome env paths (Failed (Wrapf "failed to create collection" e))
      [CreateCollection (Z.of_nat (length files))]
| ExitInit (files : list fileMetadata) (coll : CollectionInfo) (k : nat)
    (b : list fileMetadata) (e : error) :
    fst (collectMetadata env 0 paths []) = Ok files ->
    createCollection env (Z.of_nat (length files)) = Ok coll ->
    pages batchSize files !! k = Some b ->
    pagesAnswered (fun j p => initBatch env j (batchRequest p)) (pages batchSize files) k ->
    initBatch env k (batchRequest b) = Failed e ->
    batchOutcome env paths (Failed (Wrapf "failed to init batch" e))
      (CreateCollection (Z.of_nat (length files))
       :: initEffects (take (S k) (pages batchSize files)))
| ExitConfirm (files negotiated : list fileMetadata) (coll : CollectionInfo) (k : nat)
    (b : list fileMetadata) (e : error) :
    fst (collectMetadata env 0 paths []) = Ok files ->
    createCollection env (Z.of_nat (length files)) = Ok coll ->
    fst (initPages env 0 (pages batchSize files) []) = Ok negotiated ->
    confirmPagesOf env negotiated !! k = Some b ->
    pagesConfirmed (fun j p => confirmBatch env j (confirmRequest p))
                   (confirmPagesOf env negotiated) k ->
    confirmBatch env k (confirmRequest b) = Some e ->
    batchOutcome env paths (Failed (Wrapf "failed to confirm batch" e))
      (CreateCollection (Z.of_nat (length files))
       :: initEffects (pages batchSize files)
       ++ putEffects env negotiated
       ++ confirmEffects (ci_ID coll) (take (S k) (confirmPagesOf env negotiated)))
| ExitReady (files negotiated : list fileMetadata) (coll : CollectionInfo) (e : error) :
    fst (collectMetadata env 0 paths []) = Ok files ->
    createCollection env (Z.of_nat (length files)) = Ok coll ->
    fst (initPages env 0 (pages batchSize files) []) = Ok negotiated ->
    pagesConfirmed (fun j p => confirmBatch env j (confirmRequest p))
                   (confirmPagesOf env negotiated)
                   (length (confirmPagesOf env negotiated)) ->
    markReady env (ci_ID coll) = Failed e ->
    batchOutcome env paths (Failed (Wrapf "failed to finalize collection" e))
      (CreateCollection (Z.of_nat (length files))
       :: initEffects (pages batchSize files)
       ++ putEffects env negotiated
       ++ confirmEffects (ci_ID coll) (confirmPagesOf env negotiated)
       ++ [MarkCollectionReady (ci_ID coll)])
| ExitOk (files negotiated : list fileMetadata) (coll ready : CollectionInfo)
    (errors : Z) :
    fst (collectMetadata env 0 paths []) = Ok files ->
    createCollection env (Z.of_nat (length files)) = Ok coll ->
    fst (initPages env 0 (pages batchSize files) []) = Ok negotiated ->
    pagesConfirmed (fun j p => confirmBatch env j (confirmRequest p))
                   (confirmPagesOf env negotiated)
                   (length (confirmPagesOf env negotiated)) ->
    markReady env (ci_ID coll) = Ok ready ->
    batchOutcome env paths (Ok {| Collection := Some ready; IsCollection := true |})
      (CreateCollection (Z.of_nat (length files))
       :: initEffects (pages batchSize files)
       ++ putEffects env negotiated
       ++ confirmEffects (ci_ID coll) (confirmPagesOf env negotiated)
       ++ MarkCollectionReady (ci_ID coll)
       :: (if 0 <? errors then [PrintWarning errors] else [])).

(** The stage of the batch an effect belongs to. *)
Definition stage (c : batchEffect) : nat :=
  match c with
  | CreateCollection _ => 0
  | InitUploadBatch _ => 1
  | PutFile _ => 2
  | ConfirmUploadBatch _ _ => 3
  | MarkCollectionReady _ => 4
  | PrintWarning _ => 5
  end.

(** Stages come in order, and a stage that consists of a single call
    does not come twice. *)
Definition inOrder (c1 c2 : batchEffect) : Prop :=
  (stage c1 < stage c2)%nat
  \/ (stage c1 = stage c2 /\ (1 <= stage c1 <= 3)%nat).

(** The bounds of a page of a batch call. *)
Definition pageSized (c : batchEffect) : Prop :=
  match c with
  | InitUploadBatch fs => (1 <= length fs <= batchSize)%nat
  | ConfirmUploadBatch _ fs => (1 <= length fs <= batchSize)%nat
  | _ => True
  end.

(** The third of ten files cannot be opened. *)
Definition env_unreadable_third : batchEnv :=
  {| osOpen := fun p => if String.eqb p "file-3"
                        then Some (Errorf "open file-3: permission denied") else None;
     fileStat := fun _ => Ok 5;
     detectedType := fun _ => "text/plain";
     filepathBase := fun p => p;
     createCollection := fun _ => Ok {| ci_ID := "col-1"; ci_URL := "https://storage.to/c/col-1";
                                        ci_ExpiresAt := "" |};
     initBatch := fun _ fs =>
       Ok (list_to_map (imap (fun i _ => (Itoa (Z.of_nat i), answer_ok i)) fs));
     ctxAtFile := fun _ => Active;
     transfer := fun _ => Ok 0xCBF43926;
     confirmBatch := fun _ _ => None;
     markReady := fun id => Ok {| ci_ID := id; ci_URL := "https://storage.to/c/col-1";
                                  ci_ExpiresAt := "" |} |}.

(** Ten files, all planned; the caller cancels before the loop reaches
    the fifth; the calls made after that fail. *)
Definition env_cancelled_at_fifth : batchEnv :=
  {| osOpen := fun _ => None;
     fileStat := fun _ => Ok 5;
     detectedType := fun _ => "text/plain";
     filepathBase := fun p => p;
     createCollection := fun _ => Ok {| ci_ID := "col-1"; ci_URL := "https://storage.to/c/col-1";
                                        ci_ExpiresAt := "" |};
     initBatch := fun _ fs =>
       Ok (list_to_map (imap (fun i _ => (Itoa (Z.of_nat i), answer_ok i)) fs));
     ctxAtFile := fun i => if (4 <=? i)%nat then CtxCanceled else Active;
     transfer := fun _ => Ok 0xCBF43926;
     confirmBatch := fun _ _ => Some (Errorf "request cancelled");
     markReady := fun _ => Failed (Errorf "request cancelled") |}.

(** The record of the fourth of the ten files once it is negotiated. *)
Definition fourth_file : fileMetadata :=
  {| f_path := "file-4"; f_filename := "file-4"; f_contentType := "text/plain";
     f_size := 5; f_index := 3; f_uploadURL := "https://r2/put/3";
     f_r2Key := "key-3"; f_uploadErr := None; f_crc32 := 0 |}.

(* ===================================================================== *)
(** * One HTTP PUT: [uploadSingle] and [uploadPart] *)
(* ===================================================================== *)

(** The double quote. *)
Definition quote : ascii := "034"%char.

(** [strings.Trim(s, cutset)] for a cutset of one ASCII byte:
    [trimLeftByte(trimRightByte(s, c), c)]. *)
Fixpoint trimLeftByte (s : string) (c : ascii) : string :=
  match s with
  | EmptyString => EmptyString
  | String a s' => if Ascii.eqb a c then trimLeftByte s' c else s
  end.

Fixpoint trimRightByte (s : string) (c : ascii) : string :=
  match s with
  | EmptyString => EmptyString
  | String a s' =>
      match trimRightByte s' c with
      | EmptyString => if Ascii.eqb a c then EmptyString else String a EmptyString
      | r => String a r
      end
  end.

Definition Trim (s : string) (c : ascii) : string :=
  trimLeftByte (trimRightByte s c) c.

(** The first and the last byte of a string. *)
Definition firstByte (s : string) : option ascii := String.get 0 s.

Fixpoint lastByte (s : string) : option ascii :=
  match s with
  | EmptyString => None
  | String a EmptyString => Some a
  | String _ s' => lastByte s'
  end.

(** How the PUT of one attempt ends: the request cannot be built
    ([http.NewRequestWithContext] fails); [client.Do] fails, with the
    attempt's own context and the caller's context as they are then; or
    a response arrives, with its status, its body as [io.ReadAll] gives
    it, and its [ETag] header (empty when the header is missing). *)
Inductive putOutcome : Type :=
| RequestRejected (e : error)
| TransportFailed (e : error) (uploadCtx : ctxState) (callerCtx : ctxState)
| Responded (status : Z) (body : string) (etagHeader : string).

(** What a transfer under the retry driver meets: the caller's context
    before each attempt and during each wait, how the PUT of attempt
    [i] ends, and the reads the HTTP client makes on the request body
    during attempt [i]. *)
Record putEnv : Type := {
  putCtxBefore : nat -> ctxState;
  putCtxInWait : nat -> ctxState;
  putResult    : nat -> putOutcome;
  putReads     : nat -> list readResult
}.

(** The closure of [uploadPart]: its error and the variable [etag]
    after it, from [etag] before it. *)
Definition partAttempt (o : putOutcome) (etag : string) : option error * string :=
  match o with
  | RequestRejected e => (Some e, etag)
  | TransportFailed e uploadCtx _ =>
      (Some (match uploadCtx with
             | CtxDeadline => Errorf "part upload timed out"
             | _ => e
             end), etag)
  | Responded status body header =>
      if status >=? 400
      then (Some (Errorf ("part upload failed (HTTP " ++ Itoa status ++ "): " ++ body)),
            etag)
      else
        let etag' := Trim header quote in
        if String.eqb etag' "" then (Some (Errorf "server did not return ETag"), etag')
        else (None, etag')
  end.

(** The retry driver as a transfer runs it: attempt [i] is the closure
    applied to the outcome of the [i]-th PUT. *)
Definition putRetryEnv (env : putEnv) (attemptErr : nat -> option error) : retryEnv :=
  {| ctxBefore := putCtxBefore env; fnResult := attemptErr;
     ctxInWait := putCtxInWait env |}.

(** [uploadPart]: the pair [(etag, err)] it returns, and what the retry
    driver did. *)
Definition uploadPart (env : putEnv) : (string * option error) * list retryEvent :=
  let r := uploadWithRetry
             (putRetryEnv env (fun i => fst (partAttempt (putResult env i) ""))) in
  ((fold_left (fun etag i => snd (partAttempt (putResult env i) etag))
              (invocations (snd r)) "",
    fst r),
   snd r).

(** The closure of [uploadSingle]: its error and the variable [fileCrc]
    after it.  Each attempt reads the file through a fresh wrapper. *)
Definition singleAttempt (size : Z) (o : putOutcome) (rs : list readResult)
    (fileCrc : Z) : option error * Z :=
  match o with
  | RequestRejected e => (Some e, fileCrc)
  | TransportFailed e uploadCtx callerCtx =>
      (Some (match uploadCtx with
             | CtxDeadline => Errorf "upload timed out"
             | _ => match callerCtx with
                    | CtxCanceled => Errorf "upload cancelled"
                    | _ => e
                    end
             end), fileCrc)
  | Responded status body _ =>
      if status >=? 400
      then (Some (Errorf ("upload failed (HTTP " ++ Itoa status ++ "): " ++ body)),
            fileCrc)
      else (None, crc (fst (readAll (newChecksumReader size) rs)))
  end.

(** [uploadSingle]: the pair [(fileCrc, err)] it returns, and what the
    retry driver did. *)
Definition uploadSingle (env : putEnv) (size : Z) : (Z * option error) * list retryEvent :=
  let r := uploadWithRetry
             (putRetryEnv env (fun i => fst (singleAttempt size (putResult env i)
                                                           (putReads env i) 0))) in
  ((fold_left (fun fileCrc i => snd (singleAttempt size (putResult env i)
                                                   (putReads env i) fileCrc))
              (invocations (snd r)) 0,
    fst r),
   snd r).

(** The attempt the retry driver made last. *)
Definition lastAttempt (tr : list retryEvent) : option nat := last (invocations tr).

(** The wrapper as [uploadPart] builds it: no checksum, an observer that
    passes the bytes read so far on to the caller's [onProgress]. *)
Definition newPartReader (size : Z) : progressReader :=
  {| total := size; uploaded := 0; onProgress := true; hasher := None; crc := 0 |}.

(** The observer [uploadMultipart] hands to [uploadPart],
    [func(n int64) { uploadedBytes += n; u.printProgress(uploadedBytes, size) }],
    run on every call the reads [rs] of one attempt of a part cause:
    the counter afterwards and the arguments of [printProgress].  The
    observer runs under the mutex; observers of other parts that run in
    between add their own amounts and leave what this part adds as it
    is, so the calls of one part are taken together here. *)
Definition partProgress (fileSize partSize : Z) (rs : list readResult)
    (uploadedBytes : Z) : Z * list (Z * Z) :=
  fold_left (fun st cb => (add64 (fst st) (fst cb),
                           snd st ++ [(add64 (fst st) (fst cb), fileSize)]))
            (snd (readAll (newPartReader partSize) rs))
            (uploadedBytes, []).

(** The numbers of bytes of the reads that deliver something. *)
Definition readSizes (rs : list readResult) : list Z :=
  filter (fun n => 0 < n) (map (fun r => Z.of_nat (length (data r))) rs).

(** The running totals [n1, n1+n2, ...] of [ns], starting from [acc]. *)
Fixpoint runningTotals (acc : Z) (ns : list Z) : list Z :=
  match ns with
  | [] => []
  | n :: ns' => (acc + n) :: runningTotals (acc + n) ns'
  end.

(** A part upload whose first two responses carry no usable tag. *)
Definition env_etag_third_try : putEnv :=
  {| putCtxBefore := fun _ => Active;
     putCtxInWait := fun _ => Active;
     putResult := fun i =>
       match i with
       | O => Responded 503 "slow down" ""
       | S O => Responded 200 "" (String quote (String quote EmptyString))
       | _ => Responded 200 "" (String quote ("9b2cf535f27731c9" ++ String quote EmptyString))
       end;
     putReads := fun _ => [ {| data := list_byte_of_string "12345"; rerr := None |};
                            {| data := list_byte_of_string "6789"; rerr := Some EOF |} ] |}.

(** A whole-file upload that is cut off once and then goes through. *)
Definition env_single_second_try : putEnv :=
  {| putCtxBefore := fun _ => Active;
     putCtxInWait := fun _ => Active;
     putResult := fun i =>
       match i with
       | O => TransportFailed (Errorf "connection reset") Active Active
       | _ => Responded 200 "" ""
       end;
     putReads := fun i =>
       match i with
       | O => [ {| data := list_byte_of_string "1234"; rerr := None |} ]
       | _ => reads_123456789
       end |}.

(** The caller cancels during the first attempt of a whole-file upload. *)
Definition env_single_cancelled : putEnv :=
  {| putCtxBefore := fun _ => Active;
     putCtxInWait := fun _ => CtxCanceled;
     putResult := fun _ => TransportFailed (Errorf "context canceled") CtxCanceled CtxCanceled;
     putReads := fun _ => [] |}.

(** The caller cancels during the last attempt of a whole-file upload. *)
Definition env_single_cancelled_late : putEnv :=
  {| putCtxBefore := fun _ => Active;
     putCtxInWait := fun _ => Active;
     putResult := fun i =>
       match i with
       | S (S _) => TransportFailed (Errorf "context canceled") CtxCanceled CtxCanceled
       | _ => Responded 500 "" ""
       end;
     putReads := fun _ => [] |}.

(** A part of 9 bytes that the HTTP client reads in three reads. *)
Definition reads_in_three : list readResult :=
  [ {| data := list_byte_of_string "123"; rerr := None |};
    {| data := list_byte_of_string "456"; rerr := None |};
    {| data := list_byte_of_string "789"; rerr := Some EOF |} ].

(* ===================================================================== *)
(** * [detectContentType] *)
(* ===================================================================== *)

(** [os.IsPathSeparator]: the slash, and on Windows also the backslash. *)
Definition IsPathSeparator (windows : bool) (c : ascii) : bool :=
  Ascii.eqb c "/" || (windows && Ascii.eqb c "092").

(** The loop of [filepath.Ext],
    [for i := len(path) - 1; i >= 0 && !os.IsPathSeparator(path[i]); i--],
    over the bytes of the path from the last one on; [suffix] is
    [path[i+1:]]. *)
Fixpoint extScan (windows : bool) (rpath : list ascii) (suffix : list ascii)
  : list ascii :=
  match rpath with
  | [] => []
  | c :: rest =>
      if IsPathSeparator windows c then []
      else if Ascii.eqb c "." then c :: suffix
      else extScan windows rest (c :: suffix)
  end.

(** [filepath.Ext] *)
Definition Ext (windows : bool) (path : string) : string :=
  string_of_list_ascii (extScan windows (rev (list_ascii_of_string path)) []).

Definition isASCIIByte (c : ascii) : bool := (nat_of_ascii c <? 128)%nat.

Definition isASCII (s : string) : bool :=
  forallb isASCIIByte (list_ascii_of_string s).

(** ['A' <= c && c <= 'Z'] gives [c + 'a' - 'A']. *)
Definition lowerByte (c : ascii) : ascii :=
  if ((65 <=? nat_of_ascii c) && (nat_of_ascii c <=? 90))%nat
  then ascii_of_nat (nat_of_ascii c + 32)
  else c.

Definition lowerASCII (s : string) : string :=
  string_of_list_ascii (map lowerByte (list_ascii_of_string s)).

(** [strings.ToLower]: byte by byte on a string of ASCII bytes; any
    other string goes through Unicode's case mapping, which is left to
    [unicodeLower]. *)
Definition ToLower (unicodeLower : string -> string) (s : string) : string :=
  if isASCII s then lowerASCII s else unicodeLower s.

(** The entries of the map literal [mimeTypes], in the order of the
    source. *)
Definition mimeTable : list (string * string) :=
  [ (".jpg", "image/jpeg"); (".jpeg", "image/jpeg"); (".png", "image/png");
    (".gif", "image/gif"); (".webp", "image/webp"); (".svg", "image/svg+xml");
    (".pdf", "application/pdf"); (".zip", "application/zip");
    (".tar", "application/x-tar"); (".gz", "application/gzip");
    (".tgz", "application/gzip"); (".bz2", "application/x-bzip2");
    (".xz", "application/x-xz"); (".7z", "application/x-7z-compressed");
    (".rar", "application/vnd.rar"); (".mp4", "video/mp4"); (".webm", "video/webm");
    (".mov", "video/quicktime"); (".avi", "video/x-msvideo");
    (".mkv", "video/x-matroska"); (".mp3", "audio/mpeg"); (".wav", "audio/wav");
    (".ogg", "audio/ogg"); (".flac", "audio/flac"); (".txt", "text/plain");
    (".md", "text/markdown"); (".json", "application/json");
    (".xml", "application/xml"); (".html", "text/html"); (".css", "text/css");
    (".js", "application/javascript"); (".ts", "application/typescript");
    (".go", "text/x-go"); (".py", "text/x-python"); (".rb", "text/x-ruby");
    (".rs", "text/x-rust"); (".c", "text/x-c"); (".cpp", "text/x-c++");
    (".h", "text/x-c"); (".hpp", "text/x-c++"); (".java", "text/x-java");
    (".php", "text/x-php"); (".sh", "application/x-sh"); (".sql", "application/sql");
    (".yml", "application/x-yaml"); (".yaml", "application/x-yaml");
    (".toml", "application/toml") ]%string.

Definition mimeTypes : gmap string string := list_to_map mimeTable.

(** What [detectContentType] depends on besides its arguments: the
    platform, Unicode's lower-casing, and [http.DetectContentType]. *)
Record typeEnv : Type := {
  onWindows         : bool;
  unicodeLower      : string -> string;
  DetectContentType : list byte -> string
}.

(** What [detectContentType] returns, and whether it read the file. *)
Record detection : Type := {
  contentType : string;
  readsFile   : bool
}.

(** [readBytes] are the bytes [file.Read(buf)] delivers into the buffer
    of 512 bytes ([buf[:n]]). *)
Definition detectContentType (env : typeEnv) (path : string) (readBytes : list byte)
  : detection :=
  let ext := ToLower (unicodeLower env) (Ext (onWindows env) path) in
  match mimeTypes !! ext with
  | Some mime => {| contentType := mime; readsFile := false |}
  | None => {| contentType := DetectContentType env (take 512 readBytes);
               readsFile := true |}
  end.

(** A byte an extension of the table is made of, after its dot: ASCII,
    no capital letter, no dot, no path separator. *)
Definition plainByte (c : ascii) : bool :=
  isASCIIByte c && Ascii.eqb (lowerByte c) c
  && negb (Ascii.eqb c ".") && negb (IsPathSeparator true c).

(** A dot followed by plain bytes. *)
Definition plainExtension (k : string) : bool :=
  match list_ascii_of_string k with
  | c :: e => Ascii.eqb c "." && forallb plainByte e
  | [] => false
  end.

(** A Unix platform whose sniffer knows nothing. *)
Definition env_unix : typeEnv :=
  {| onWindows := false; unicodeLower := fun s => s;
     DetectContentType := fun _ => "application/octet-stream" |}.

Definition env_windows : typeEnv :=
  {| onWindows := true; unicodeLower := fun s => s;
     DetectContentType := fun _ => "application/octet-stream" |}.

(* ===================================================================== *)
(** * The visitor token (package [config]) *)
(* ===================================================================== *)

Module Config.

Definition configDir : string := ".config/storageto".
Definition tokenFile : string := "token".
Definition tokenLength : nat := 16.

(** [encoding/hex]: [hextable], and [EncodeToString], which writes
    [hextable[v>>4]] and [hextable[v&0x0f]] for every byte [v]. *)
Definition hextable : string := "0123456789abcdef".

Definition hexDigit (n : Z) : ascii :=
  default "0"%char (String.get (Z.to_nat n) hextable).

Definition EncodeToString (src : list byte) : string :=
  string_of_list_ascii
    (flat_map (fun v => [hexDigit (Z.shiftr (byteVal v) 4);
                         hexDigit (Z.land (byteVal v) 0x0f)]) src).

(** What the package meets: the home directory, [filepath.Join], the
    bytes [rand.Read] fills the buffer of [tokenLength] bytes with, and
    the file system calls that can fail for reasons of their own. *)
Record env : Type := {
  UserHomeDir : result string;
  Join        : string -> string -> string;
  randRead    : result (list byte);
  readDenied  : string -> option error;
  MkdirAll    : string -> option error;
  writeDenied : string -> option error
}.

(** The regular files, by path. *)
Definition fileSystem : Type := gmap string string.

(** [os.ReadFile] *)
Definition ReadFile (e : env) (fs : fileSystem) (path : string) : result string :=
  match readDenied e path with
  | Some err => Failed err
  | None =>
      match fs !! path with
      | Some data => Ok data
      | None => Failed (Errorf ("open " ++ path ++ ": no such file or directory"))
      end
  end.

(** [os.WriteFile]: the file holds the data afterwards. *)
Definition WriteFile (e : env) (fs : fileSystem) (path data : string)
  : option error * fileSystem :=
  match writeDenied e path with
  | Some err => (Some err, fs)
  | None => (None, <[path := data]> fs)
  end.

Definition GetConfigDir (e : env) : result string :=
  match UserHomeDir e with
  | Failed err => Failed err
  | Ok home => Ok (Join e home configDir)
  end.

Definition generateToken (e : env) : result string :=
  match randRead e with
  | Failed err => Failed err
  | Ok bytes => Ok ("cli_" ++ EncodeToString bytes)%string
  end.

(** [GetVisitorToken]: what it returns and the files afterwards. *)
Definition GetVisitorToken (e : env) (fs : fileSystem) : result string * fileSystem :=
  match GetConfigDir e with
  | Failed err => (Failed err, fs)
  | Ok configPath =>
      let tokenPath := Join e configPath tokenFile in
      match ReadFile e fs tokenPath with
      | Ok (String c data) => (Ok (String c data), fs)
      | _ =>
          match generateToken e with
          | Failed err => (Failed err, fs)
          | Ok token =>
              match MkdirAll e configPath with
              | Some err => (Failed err, fs)
              | None =>
                  match WriteFile e fs tokenPath token with
                  | (Some err, fs') => (Failed err, fs')
                  | (None, fs') => (Ok token, fs')
                  end
              end
          end
      end
  end.

(** The path of the token file, when the home directory is known. *)
Definition tokenPath (e : env) : option string :=
  match GetConfigDir e with
  | Ok configPath => Some (Join e configPath tokenFile)
  | Failed _ => None
  end.

(** The value of a digit of [hextable], for reading a token back. *)
Definition hexValue (c : ascii) : option Z :=
  (fix find (i : nat) (s : string) : option Z :=
     match s with
     | EmptyString => None
     | String d s' => if Ascii.eqb c d then Some (Z.of_nat i) else find (S i) s'
     end) 0%nat hextable.

(** The bytes a string of hexadecimal digits stands for. *)
Fixpoint decodeHex (l : list ascii) : option (list Z) :=
  match l with
  | [] => Some []
  | hi :: lo :: rest =>
      match hexValue hi, hexValue lo, decodeHex rest with
      | Some h, Some low, Some bs => Some ((16 * h + low) :: bs)
      | _, _, _ => None
      end
  | [_] => None
  end.

(** A first run on a machine without a token file. *)
Definition env_fresh : env :=
  {| UserHomeDir := Ok "/home/u";
     Join := fun a b => (a ++ "/" ++ b)%string;
     randRead := Ok (map (fun n => default Byte.x00 (Byte.of_N (Z.to_N n)))
                         [0; 1; 2; 3; 250; 251; 252; 253; 16; 32; 48; 64; 80; 96; 112; 255]);
     readDenied := fun _ => None;
     MkdirAll := fun _ => None;
     writeDenied := fun _ => None |}.

(** A later run: other random bytes, and a directory that could not be
    created again. *)
Definition env_later : env :=
  {| UserHomeDir := Ok "/home/u";
     Join := fun a b => (a ++ "/" ++ b)%string;
     randRead := Ok (replicate 16 Byte.xff);
     readDenied := fun _ => None;
     MkdirAll := fun _ => Some (Errorf "mkdir: read-only file system");
     writeDenied := fun _ => Some (Errorf "write: read-only file system") |}.

End Config.

(* ===================================================================== *)
(** * One file, and the entry point: [UploadFile] and [UploadFiles] *)
(* ===================================================================== *)

(** [api.InitUploadRequest] *)
Record InitUploadRequest : Type := {
  iu_Filename    : string;
  iu_ContentType : string;
  iu_Size        : Z
}.

(** [api.ConfirmUploadRequest], with the checksum [UploadFile] sets. *)
Record ConfirmUploadRequest : Type := {
  cu_Filename     : string;
  cu_Size         : Z;
  cu_ContentType  : string;
  cu_R2Key        : string;
  cu_CollectionID : string;
  cu_CRC32        : Z
}.

(** [api.FileInfo] *)
Record FileInfo : Type := {
  fi_ID        : string;
  fi_URL       : string;
  fi_RawURL    : string;
  fi_Filename  : string;
  fi_Size      : Z;
  fi_HumanSize : string;
  fi_ExpiresAt : string
}.

(** What [UploadFile] does to the outside, in order.  [FileClose] is the
    deferred [file.Close()]. *)
Inductive fileEffect : Type :=
| FileOpen (path : string)
| FileClose (path : string)
| CallInitUpload (req : InitUploadRequest)
| RunUploadSingle (uploadURL contentType : string) (size : Z)
| RunUploadMultipart (initResp : InitUploadResponse) (size : Z)
| CallConfirmUpload (req : ConfirmUploadRequest).

(** What [UploadFile] meets: the context at entry, the file system, the
    detected content type, the service, and what the two transfers
    return ([singleTransfer] and [multipartTransfer] stand for
    [uploadSingle] and [uploadMultipart] on this file). *)
Record fileEnv : Type := {
  ctxAtEntry        : ctxState;
  openFile          : string -> option error;
  statFile          : string -> result Z;
  baseName          : string -> string;
  typeOf            : string -> string;
  initUpload        : InitUploadRequest -> result InitUploadResponse;
  singleTransfer    : string -> string -> Z -> Z * option error;
  multipartTransfer : InitUploadResponse -> Z -> Z * option error;
  confirmUpload     : ConfirmUploadRequest -> result (option FileInfo)
}.

(** [UploadFile]: the pointer it returns ([None]: nil) or its error, and
    what it did. *)
Definition UploadFile (env : fileEnv) (path collectionID : string)
  : result (option FileInfo) * list fileEffect :=
  match ctxErr (ctxAtEntry env) with
  | Some e => (Failed e, [])
  | None =>
      match openFile env path with
      | Some e => (Failed (Wrapf "cannot open file" e), [])
      | None =>
          match statFile env path with
          | Failed e =>
              (Failed (Wrapf "cannot read file info" e), [FileOpen path; FileClose path])
          | Ok size =>
              let filename := baseName env path in
              let contentType := typeOf env path in
              let req := {| iu_Filename := filename; iu_ContentType := contentType;
                            iu_Size := size |} in
              match initUpload env req with
              | Failed e =>
                  (Failed (Wrapf "failed to initialize upload" e),
                   [FileOpen path; CallInitUpload req; FileClose path])
              | Ok initResp =>
                  let '(transferEffect, (fileCrc, err)) :=
                    if String.eqb (Type_ initResp) "single"
                    then (RunUploadSingle (UploadURL initResp) contentType size,
                          singleTransfer env (UploadURL initResp) contentType size)
                    else (RunUploadMultipart initResp size,
                          multipartTransfer env initResp size) in
                  match err with
                  | Some e =>
                      (Failed e,
                       [FileOpen path; CallInitUpload req; transferEffect; FileClose path])
                  | None =>
                      let creq := {| cu_Filename := filename; cu_Size := size;
                                     cu_ContentType := contentType;
                                     cu_R2Key := R2Key initResp;
                                     cu_CollectionID := collectionID;
                                     cu_CRC32 := fileCrc |} in
                      match confirmUpload env creq with
                      | Failed e =>
                          (Failed (Wrapf "failed to confirm upload" e),
                           [FileOpen path; CallInitUpload req; transferEffect;
                            CallConfirmUpload creq; FileClose path])
                      | Ok file =>
                          (Ok file,
                           [FileOpen path; CallInitUpload req; transferEffect;
                            CallConfirmUpload creq; FileClose path])
                      end
                  end
              end
          end
      end
  end.

(** [upload.Result] with all its fields. *)
Record UploadResult : Type := {
  ur_FileInfo     : option FileInfo;
  ur_Collection   : option CollectionInfo;
  ur_IsCollection : bool
}.

(** [UploadFiles]: a single file that is not to be a collection is
    uploaded by [UploadFile] with no collection ID; everything else is
    a batch. *)
Definition UploadFiles (fenv : fileEnv) (benv : batchEnv) (paths : list string)
    (asCollection : bool)
  : result UploadResult * list (fileEffect + batchEffect) :=
  match paths with
  | [] => (Failed (Errorf "no files specified"), [])
  | path :: rest =>
      if (length paths =? 1)%nat && negb asCollection then
        match UploadFile fenv path "" with
        | (Failed e, log) => (Failed e, map inl log)
        | (Ok fileInfo, log) =>
            (Ok {| ur_FileInfo := fileInfo; ur_Collection := None;
                   ur_IsCollection := false |},
             map inl log)
        end
      else
        match uploadFilesBatch benv paths with
        | (Failed e, log) => (Failed e, map inr log)
        | (Ok r, log) =>
            (Ok {| ur_FileInfo := None; ur_Collection := Collection r;
                   ur_IsCollection := IsCollection r |},
             map inr log)
        end
  end.

(** A small file that the service plans as a single PUT. *)
Definition env_one_small_file : fileEnv :=
  {| ctxAtEntry := Active;
     openFile := fun _ => None;
     statFile := fun _ => Ok 9;
     baseName := fun _ => "notes.txt";
     typeOf := fun _ => "text/plain";
     initUpload := fun _ =>
       Ok {| Type_ := "single"; UploadURL := "https://r2/put/1"; UploadID := "";
             R2Key := "uploads/abc/notes.txt"; PartSize := 0; TotalParts := 0;
             InitialURLs := None |};
     singleTransfer := fun _ _ _ => (0xCBF43926, None);
     multipartTransfer := fun _ _ => (0, Some (Errorf "not used"));
     confirmUpload := fun req =>
       Ok (Some {| fi_ID := "f1"; fi_URL := "https://storage.to/FQxyz1234";
                   fi_RawURL := "https://storage.to/r/FQxyz1234";
                   fi_Filename := cu_Filename req; fi_Size := cu_Size req;
                   fi_HumanSize := "9 B"; fi_ExpiresAt := "2026-01-29T12:00:00Z" |}) |}.

(* ===================================================================== *)
(** * The API client (package [api]): [post] and the calls built on it *)
(* ===================================================================== *)

Module Api.

(** [api.Client] without its HTTP client. *)
Record Client : Type := {
  BaseURL      : string;
  VisitorToken : string
}.

Definition NewClient (baseURL visitorToken : string) : Client :=
  {| BaseURL := baseURL; VisitorToken := visitorToken |}.

(** The request [post] builds: its URL, its headers in the order they
    are set, and its body. *)
Record request : Type := {
  reqURL     : string;
  reqHeaders : list (string * string);
  reqBody    : string
}.

(** The headers [post] sets. *)
Definition headers (c : Client) (userAgent : string) : list (string * string) :=
  [ ("Content-Type", "application/json"); ("Accept", "application/json");
    ("User-Agent", userAgent) ]%string
  ++ (if String.eqb (VisitorToken c) "" then []
      else [ ("X-Visitor-Token", VisitorToken c) ]%string).

(** What [post] meets, for a response type [R]: the encoding of the
    request body, the building of the request, what [HTTPClient.Do]
    gives (a status code, or an error) and the caller's context then,
    the reading of the response body, and what [json.Unmarshal] makes
    of that body for each of the three shapes [post] tries: the [error]
    field of a rate-limit answer, the [error] and [message] fields of
    an error answer, and the response itself.  ([None]: not JSON of
    that shape.) *)
Record env (R : Type) : Type := {
  marshal       : result string;
  newRequest    : option error;
  doRequest     : result Z;
  ctxAfterDo    : ctxState;
  readBody      : result string;
  rateLimitBody : string -> option string;
  errorBody     : string -> option (string * string);
  resultBody    : string -> result R;
  userAgent     : string
}.
Arguments marshal {R} _.
Arguments newRequest {R} _.
Arguments doRequest {R} _.
Arguments ctxAfterDo {R} _.
Arguments readBody {R} _.
Arguments rateLimitBody {R} _ _.
Arguments errorBody {R} _ _.
Arguments resultBody {R} _ _.
Arguments userAgent {R} _.

(** [post]: the decoded response or the error, and the request that
    was sent, if one was. *)
Definition post {R : Type} (c : Client) (e : env R) (path : string)
  : result R * option request :=
  match marshal e with
  | Failed err => (Failed (Wrapf "failed to encode request" err), None)
  | Ok jsonBody =>
      match newRequest e with
      | Some err => (Failed (Wrapf "failed to create request" err), None)
      | None =>
          let req := {| reqURL := (BaseURL c ++ path)%string;
                        reqHeaders := headers c (userAgent e);
                        reqBody := jsonBody |} in
          match doRequest e with
          | Failed err =>
              (Failed (match ctxAfterDo e with
                       | CtxCanceled => Errorf "request cancelled"
                       | _ => Wrapf "request failed" err
                       end), Some req)
          | Ok status =>
              match readBody e with
              | Failed err => (Failed (Wrapf "failed to read response" err), Some req)
              | Ok respBody =>
                  if status =? 429 then
                    (Failed (match rateLimitBody e respBody with
                             | Some (String a msg) => Errorf (String a msg)
                             | _ => Errorf "rate limited - please try again later"
                             end), Some req)
                  else if status >=? 400 then
                    (Failed (match errorBody e respBody with
                             | Some (String a msg, _) => Errorf (String a msg)
                             | Some (EmptyString, String a msg) => Errorf (String a msg)
                             | _ => Errorf ("server error (HTTP " ++ Itoa status ++ ")")
                             end), Some req)
                  else
                    match resultBody e respBody with
                    | Failed err => (Failed (Wrapf "failed to parse response" err), Some req)
                    | Ok r => (Ok r, Some req)
                    end
              end
          end
      end
  end.

(** The shape every call of the client has:
    [if err := c.post(...); err != nil { return nil, err };
     if !resp.Success { return nil, fmt.Errorf("%s", resp.Error) }]. *)
Definition call {R : Type} (Success : R -> bool) (Error : R -> string)
    (c : Client) (e : env R) (path : string) : result R * option request :=
  match post c e path with
  | (Failed err, req) => (Failed err, req)
  | (Ok resp, req) =>
      if Success resp then (Ok resp, req) else (Failed (Errorf (Error resp)), req)
  end.

(** [api.InitUploadResponse] as the client decodes it. *)
Record InitUploadReply : Type := {
  Success : bool;
  Error   : string;
  Plan    : InitUploadResponse
}.

Definition InitUpload (c : Client) (e : env InitUploadReply)
  : result InitUploadReply * option request :=
  call Success Error c e "/api/upload/init".

(** [api.CompleteMultipartResponse] *)
Record CompleteMultipartReply : Type := {
  cm_Success : bool;
  cm_Error   : string
}.

Definition CompleteMultipart (c : Client) (e : env CompleteMultipartReply)
  : result CompleteMultipartReply * option request :=
  call cm_Success cm_Error c e "/api/upload/complete-multipart".

(** [AbortUpload] returns the error alone. *)
Definition AbortUpload (c : Client) (e : env CompleteMultipartReply)
  : option error * option request :=
  match call cm_Success cm_Error c e "/api/upload/abort" with
  | (Failed err, req) => (Some err, req)
  | (Ok _, req) => (None, req)
  end.

(** The service is busy and says so in its own words. *)
Definition env_rate_limited : env InitUploadReply :=
  {| marshal := Ok "{}"; newRequest := None; doRequest := Ok 429;
     ctxAfterDo := Active; readBody := Ok "{...}";
     rateLimitBody := fun _ => Some "Daily upload limit reached";
     errorBody := fun _ => Some ("", "Too Many Requests");
     resultBody := fun _ => Ok {| Success := true; Error := "";
                                  Plan := plan_two |};
     userAgent := "storageto-cli/dev (linux/amd64)" |}.

(** The service answers 200 with a refusal in the body. *)
Definition env_refused : env InitUploadReply :=
  {| marshal := Ok "{}"; newRequest := None; doRequest := Ok 200;
     ctxAfterDo := Active; readBody := Ok "{...}";
     rateLimitBody := fun _ => None;
     errorBody := fun _ => None;
     resultBody := fun _ => Ok {| Success := false; Error := "File too large";
                                  Plan := plan_two |};
     userAgent := "storageto-cli/dev (linux/amd64)" |}.

End Api.

(* ===================================================================== *)
(** * The [upload] command (package [cli]): [runUpload] up to the upload *)
(* ===================================================================== *)

Module Cli.

(** The flags of the command. *)
Record flags : Type := {
  apiURL     : string;
  collection : bool;
  noToken    : bool
}.

(** What the command meets before it uploads: [filepath.Glob],
    [os.Stat] (whose answer is used for [IsDir] alone), and Go's [%q]. *)
Record env : Type := {
  Glob   : string -> result (list string);
  Stat   : string -> result bool;
  quoted : string -> string
}.

(** [for _, match := range matches { ... files = append(files, match) }] *)
Fixpoint addMatches (e : env) (matches files : list string) : result (list string) :=
  match matches with
  | [] => Ok files
  | m :: rest =>
      match Stat e m with
      | Failed err => Failed (Wrapf ("cannot access " ++ m) err)
      | Ok true =>
          Failed (Errorf (m ++ " is a directory (use storageto upload " ++ m
                          ++ "/* for contents)"))
      | Ok false => addMatches e rest (files ++ [m])
      end
  end.

(** [for _, pattern := range args { ... }]: "Expand globs and validate
    files". *)
Fixpoint expand (e : env) (args files : list string) : result (list string) :=
  match args with
  | [] => Ok files
  | pattern :: rest =>
      match Glob e pattern with
      | Failed err => Failed (Wrapf ("invalid pattern " ++ quoted e pattern) err)
      | Ok [] =>
          (* Try as literal path *)
          match Stat e pattern with
          | Failed _ => Failed (Errorf ("file not found: " ++ pattern))
          | Ok _ =>
              match addMatches e [pattern] files with
              | Failed err => Failed err
              | Ok files' => expand e rest files'
              end
          end
      | Ok matches =>
          match addMatches e matches files with
          | Failed err => Failed err
          | Ok files' => expand e rest files'
          end
      end
  end.

(** What [runUpload] has settled when it calls [UploadFiles]. *)
Record plan : Type := {
  files        : list string;
  asCollection : bool;
  client       : Api.Client
}.

(** [runUpload] up to the call of [UploadFiles]: the plan or the error,
    and the files of the machine afterwards. *)
Definition prepare (e : env) (cfg : Config.env) (fs : Config.fileSystem)
    (fl : flags) (args : list string) : result plan * Config.fileSystem :=
  match expand e args [] with
  | Failed err => (Failed err, fs)
  | Ok [] => (Failed (Errorf "no files to upload"), fs)
  | Ok fileList =>
      let asColl := collection fl || (1 <? length fileList)%nat in
      if noToken fl then
        (Ok {| files := fileList; asCollection := asColl;
               client := Api.NewClient (apiURL fl) "" |}, fs)
      else
        match Config.GetVisitorToken cfg fs with
        | (Failed err, fs') => (Failed (Wrapf "failed to initialize" err), fs')
        | (Ok token, fs') =>
            (Ok {| files := fileList; asCollection := asColl;
                   client := Api.NewClient (apiURL fl) token |}, fs')
        end
  end.

(** A directory with two log files and one sub-directory. *)
Definition env_logs : env :=
  {| Glob := fun pattern =>
       if String.eqb pattern "*.log" then Ok ["a.log"; "b.log"]%string
       else if String.eqb pattern "*" then Ok ["a.log"; "b.log"; "old"]%string
       else Ok [];
     Stat := fun p =>
       if String.eqb p "old" then Ok true
       else if String.eqb p "a.log" || String.eqb p "b.log" || String.eqb p "notes [1].txt"
            then Ok false
            else Failed (Errorf "no such file or directory");
     quoted := fun s => s |}.

Definition default_flags : flags :=
  {| apiURL := "https://storage.to"; collection := false; noToken := false |}.

Definition anonymous_flags : flags :=
  {| apiURL := "https://storage.to"; collection := false; noToken := true |}.

End Cli.

(** What step 5 sends for a file. *)
Definition confirmRecord (f : fileMetadata) : BatchConfirmFile :=
  {| cf_Filename := f_filename f; cf_Size := f_size f;
     cf_ContentType := f_contentType f; cf_R2Key := f_r2Key f;
     cf_CRC32 := f_crc32 f |}.

(** Three files; the service plans the second as a multipart upload: a
    storage key, but no upload URL. *)
Definition env_second_multipart : batchEnv :=
  {| osOpen := fun _ => None;
     fileStat := fun _ => Ok 5;
     detectedType := fun _ => "text/plain";
     filepathBase := fun p => p;
     createCollection := fun _ => Ok {| ci_ID := "col-1"; ci_URL := "https://storage.to/c/col-1";
                                        ci_ExpiresAt := "" |};
     initBatch := fun _ fs =>
       Ok (list_to_map (imap (fun i _ => (Itoa (Z.of_nat i),
                                          if (i =? 1)%nat
                                          then {| br_Error := ""; br_UploadURL := "";
                                                  br_R2Key := "key-1" |}
                                          else answer_ok i)) fs));
     ctxAtFile := fun _ => Active;
     transfer := fun _ => Ok 0xCBF43926;
     confirmBatch := fun _ _ => None;
     markReady := fun id => Ok {| ci_ID := id; ci_URL := "https://storage.to/c/col-1";
                                  ci_ExpiresAt := "" |} |}.

(** The record of the second of the three files once it is negotiated. *)
Definition second_file : fileMetadata :=
  {| f_path := "b.bin"; f_filename := "b.bin"; f_contentType := "text/plain";
     f_size := 5; f_index := 1; f_uploadURL := "";
     f_r2Key := "key-1"; f_uploadErr := None; f_crc32 := 0 |}.

Definition three_paths : list string := ["a.txt"; "b.bin"; "c.txt"]%string.

(* ===================================================================== *)
(** * Properties *)
(* ===================================================================== *)

(** ** Machine integers *)

Lemma wrap64_id (z : Z) : in_int64 z -> wrap64 z = z.
Proof.
  unfold in_int64, min_int64, max_int64, wrap64. intros H.
  rewrite Z.mod_small; lia.
Qed.

Lemma add64_id (a b : Z) : in_int64 (a + b) -> add64 a b = a + b.
Proof. apply wrap64_id. Qed.

Lemma sub64_id (a b : Z) : in_int64 (a - b) -> sub64 a b = a - b.
Proof. apply wrap64_id. Qed.

Lemma mul64_id (a b : Z) : in_int64 (a * b) -> mul64 a b = a * b.
Proof. apply wrap64_id. Qed.

Lemma min_spec (a b : Z) : min a b = Z.min a b.
Proof. unfold min. destruct (Z.ltb_spec a b); lia. Qed.

(** ** [generatePartNumbers] *)

Lemma generateLoop_run (k : nat) :
  forall (fuel : nat) (i : Z) (nums : list Z),
    (k < fuel)%nat ->
    in_int64 i ->
    i + Z.of_nat k <= max_int64 ->
    generateLoop fuel i (i + Z.of_nat k - 1) nums
    = Returns (nums ++ seqZ i (Z.of_nat k)).
Proof.
  induction k as [|k IH]; intros fuel i nums Hfuel Hi Hmax.
  - destruct fuel as [|fuel]; [lia|]. cbn [generateLoop].
    destruct (Z.leb_spec i (i + Z.of_nat 0 - 1)); [lia|].
    rewrite seqZ_nil by lia. by rewrite app_nil_r.
  - destruct fuel as [|fuel]; [lia|]. cbn [generateLoop].
    destruct (Z.leb_spec i (i + Z.of_nat (S k) - 1)); [|lia].
    assert (Hin : in_int64 (i + 1)) by (unfold in_int64 in *; lia).
    rewrite (add64_id _ _ Hin).
    replace (i + Z.of_nat (S k) - 1) with ((i + 1) + Z.of_nat k - 1) by lia.
    rewrite IH; [|lia|done|lia].
    rewrite <- app_assoc. cbn [app].
    rewrite (seqZ_cons i (Z.of_nat (S k))) by lia.
    replace (Z.succ i) with (i + 1) by lia.
    by replace (Z.pred (Z.of_nat (S k))) with (Z.of_nat k) by lia.
Qed.

Lemma generatePartNumbers_range (start end_ : Z) :
  in_int64 start -> in_int64 end_ ->
  start <= end_ + 1 -> end_ < max_int64 -> end_ - start < max_int64 ->
  generatePartNumbers start end_ = Returns (seqZ start (end_ - start + 1)).
Proof.
  intros Hs He Hle Hlt Hcap. unfold generatePartNumbers.
  assert (H1 : in_int64 (end_ - start))
    by (unfold in_int64, min_int64, max_int64 in *; lia).
  rewrite (sub64_id _ _ H1).
  assert (H2 : in_int64 (end_ - start + 1))
    by (unfold in_int64, min_int64, max_int64 in *; lia).
  rewrite (add64_id _ _ H2).
  destruct (Z.ltb_spec (end_ - start + 1) 0); [lia|].
  pose proof (generateLoop_run (Z.to_nat (end_ - start + 1))
                (S (Z.to_nat (end_ - start + 1))) start []) as G.
  rewrite Z2Nat.id in G by lia.
  replace (start + (end_ - start + 1) - 1) with end_ in G by lia.
  apply G; [lia|done|lia].
Qed.

Lemma generatePartNumbers_negative (start end_ : Z) :
  in_int64 start -> in_int64 end_ ->
  end_ + 1 < start -> min_int64 <= end_ - start ->
  generatePartNumbers start end_ = Panics.
Proof.
  intros Hs He Hlt Hcap. unfold generatePartNumbers.
  assert (H1 : in_int64 (end_ - start))
    by (unfold in_int64, min_int64, max_int64 in *; lia).
  rewrite (sub64_id _ _ H1).
  assert (H2 : in_int64 (end_ - start + 1))
    by (unfold in_int64, min_int64, max_int64 in *; lia).
  rewrite (add64_id _ _ H2).
  destruct (Z.ltb_spec (end_ - start + 1) 0); [done|lia].
Qed.

(** At the call site of [uploadMultipart]: [start] is the loop variable
    and [end] the smaller of [start+49] and [TotalParts]. *)
Lemma generatePartNumbers_call_site (partNum totalParts : Z) :
  1 <= partNum <= totalParts ->
  totalParts <= max_int64 - partURLBatchSize ->
  generatePartNumbers partNum
    (min (sub64 (add64 partNum partURLBatchSize) 1) totalParts)
  = Returns (seqZ partNum (Z.min (partNum + 49) totalParts - partNum + 1)).
Proof.
  intros Hp HT. unfold partURLBatchSize in *.
  assert (H1 : in_int64 (partNum + 50))
    by (unfold in_int64, min_int64, max_int64 in *; lia).
  rewrite (add64_id _ _ H1).
  assert (H2 : in_int64 (partNum + 50 - 1))
    by (unfold in_int64, min_int64, max_int64 in *; lia).
  rewrite (sub64_id _ _ H2), min_spec.
  replace (partNum + 50 - 1) with (partNum + 49) by lia.
  apply generatePartNumbers_range;
    unfold in_int64, min_int64, max_int64 in *; lia.
Qed.

(** ** The retry driver *)

Section Retry.
Variable maxAttempts : nat.
Variable env : retryEnv.

Lemma failedRounds_S (k : nat) :
  failedRounds (S k) = failedRounds k ++ [Invoked k; Waited retryDelay].
Proof.
  unfold failedRounds. rewrite seq_S, flat_map_app. done.
Qed.

Lemma invocations_failedRounds (k : nat) : invocations (failedRounds k) = seq 0 k.
Proof.
  induction k as [|k IH]; [done|].
  rewrite failedRounds_S. unfold invocations in *.
  rewrite omap_app, IH, seq_S. done.
Qed.

Lemma delays_failedRounds (k : nat) :
  delays (failedRounds k) = replicate k retryDelay.
Proof.
  induction k as [|k IH]; [done|].
  rewrite failedRounds_S. unfold delays in *.
  rewrite omap_app, IH. simpl.
  by rewrite <- replicate_cons_app.
Qed.

(** The loop after [k] quiet failures, [k] below the last attempt. *)
Lemma retryLoop_skip (k : nat) :
  forall (left : nat),
    (k < maxAttempts)%nat ->
    (forall i, (i < k)%nat -> failsQuietly env i) ->
    exists err,
      retryLoop maxAttempts env (k + left) 0 None []
      = retryLoop maxAttempts env left k err (failedRounds k)
      /\ (k = 0%nat -> err = None)
      /\ (forall j, k = S j -> err = fnResult env j).
Proof.
  induction k as [|k IH]; intros left Hk Hq.
  - exists None. split; [done|]. split; [done|]. intros j Hj. lia.
  - destruct (IH (S left)) as (err & Heq & _); [lia|intros i Hi; apply Hq; lia|].
    exists (fnResult env k).
    replace (S k + left)%nat with (k + S left)%nat by lia.
    rewrite Heq. cbn [retryLoop].
    destruct (Hq k) as (Hb & Hf & Hw); [lia|].
    rewrite Hb. cbn [ctxErr].
    destruct (fnResult env k) as [e|] eqn:Hfk; [|done].
    destruct (Nat.ltb_spec k (maxAttempts - 1)); [|lia].
    rewrite Hw. cbn [ctxErr].
    rewrite failedRounds_S, <- app_assoc. cbn [app].
    split; [done|]. split; [lia|]. intros j Hj. by simplify_eq.
Qed.

(** All attempts fail and nothing interrupts: the last error comes
    back as it is, after [maxAttempts] calls and one wait fewer. *)
Lemma retry_exhausted :
  (0 < maxAttempts)%nat ->
  (forall i, ctxBefore env i = Active) ->
  (forall i, ctxInWait env i = Active) ->
  (forall i, (i < maxAttempts)%nat -> fnResult env i <> None) ->
  exists tr,
    retry maxAttempts env = (fnResult env (maxAttempts - 1), tr)
    /\ invocations tr = seq 0 maxAttempts
    /\ delays tr = replicate (maxAttempts - 1) retryDelay.
Proof.
  intros Hpos Hb Hw Hf.
  destruct (retryLoop_skip (maxAttempts - 1) 1) as (err & Heq & _).
  { lia. }
  { intros i Hi. split; [apply Hb|]. split; [apply Hf; lia|apply Hw]. }
  unfold retry.
  replace (retryLoop maxAttempts env maxAttempts 0 None [])
    with (retryLoop maxAttempts env (maxAttempts - 1 + 1) 0 None [])
    by (f_equal; lia).
  rewrite Heq. cbn [retryLoop].
  rewrite Hb. cbn [ctxErr].
  destruct (fnResult env (maxAttempts - 1)) as [e|] eqn:Hfm;
    [|by destruct (Hf (maxAttempts - 1)%nat); [lia|]].
  destruct (Nat.ltb_spec (maxAttempts - 1) (maxAttempts - 1)); [lia|].
  eexists. split; [reflexivity|].
  unfold invocations, delays. rewrite !omap_app.
  fold (invocations (failedRounds (maxAttempts - 1))).
  fold (delays (failedRounds (maxAttempts - 1))).
  rewrite invocations_failedRounds, delays_failedRounds. simpl.
  rewrite app_nil_r. split; [|done].
  replace (seq 0 maxAttempts) with (seq 0 (S (maxAttempts - 1))) by (f_equal; lia).
  by rewrite seq_S.
Qed.

(** The first failure-free attempt ends the run. *)
Lemma retry_succeeds_at (k : nat) :
  (k < maxAttempts)%nat ->
  (forall i, (i < k)%nat -> failsQuietly env i) ->
  ctxBefore env k = Active ->
  fnResult env k = None ->
  retry maxAttempts env = (None, failedRounds k ++ [Invoked k]).
Proof.
  intros Hk Hq Hb Hf.
  destruct (retryLoop_skip k (maxAttempts - k)) as (err & Heq & _); [done..|].
  unfold retry.
  replace maxAttempts with (k + (maxAttempts - k))%nat at 2 by lia.
  rewrite Heq.
  destruct (maxAttempts - k)%nat as [|left] eqn:Hleft; [lia|].
  cbn [retryLoop]. rewrite Hb. cbn [ctxErr]. by rewrite Hf.
Qed.

(** The context is done when attempt [k] is about to start. *)
Lemma retry_cancelled_before (k : nat) (e : error) :
  (k < maxAttempts)%nat ->
  (forall i, (i < k)%nat -> failsQuietly env i) ->
  ctxErr (ctxBefore env k) = Some e ->
  retry maxAttempts env = (Some e, failedRounds k).
Proof.
  intros Hk Hq Hb.
  destruct (retryLoop_skip k (maxAttempts - k)) as (err & Heq & _); [done..|].
  unfold retry.
  replace maxAttempts with (k + (maxAttempts - k))%nat at 2 by lia.
  rewrite Heq.
  destruct (maxAttempts - k)%nat as [|left] eqn:Hleft; [lia|].
  cbn [retryLoop]. by rewrite Hb.
Qed.

(** The context becomes done during the wait after attempt [k]. *)
Lemma retry_cancelled_in_wait (k : nat) (e : error) :
  (k < maxAttempts - 1)%nat ->
  (forall i, (i < k)%nat -> failsQuietly env i) ->
  ctxBefore env k = Active ->
  fnResult env k <> None ->
  ctxErr (ctxInWait env k) = Some e ->
  retry maxAttempts env = (Some e, failedRounds k ++ [Invoked k]).
Proof.
  intros Hk Hq Hb Hf Hw.
  destruct (retryLoop_skip k (maxAttempts - k)) as (err & Heq & _); [lia|done|].
  unfold retry.
  replace maxAttempts with (k + (maxAttempts - k))%nat at 2 by lia.
  rewrite Heq.
  destruct (maxAttempts - k)%nat as [|left] eqn:Hleft; [lia|].
  cbn [retryLoop]. rewrite Hb. cbn [ctxErr].
  destruct (fnResult env k) as [e'|]; [|done].
  destruct (Nat.ltb_spec k (maxAttempts - 1)); [|lia].
  by rewrite Hw.
Qed.
End Retry.

Lemma ctxErr_isCancellation (c : ctxState) (e : error) :
  ctxErr c = Some e -> isCancellation e = true.
Proof. destruct c; simpl; intros H; inversion H; reflexivity. Qed.

(** C4. Under the retry driver with three attempts and no cancellation:
    an operation that fails twice and then succeeds is called exactly
    three times, with exactly two waits in between, and the driver
    returns success; an operation that fails every time is called
    exactly [maxRetries] times and the driver returns the error of the
    last call itself, not wrapped. *)
Theorem uploadWithRetry_attempts (env : retryEnv) :
  (forall i, ctxBefore env i = Active) ->
  (forall i, ctxInWait env i = Active) ->
  (fnResult env 0%nat <> None -> fnResult env 1%nat <> None ->
   fnResult env 2%nat = None ->
   uploadWithRetry env
   = (None, [Invoked 0; Waited retryDelay; Invoked 1; Waited retryDelay; Invoked 2])
   /\ invocations (snd (uploadWithRetry env)) = [0; 1; 2]%nat
   /\ length (delays (snd (uploadWithRetry env))) = 2%nat)
  /\
  ((forall i, (i < maxRetries)%nat -> fnResult env i <> None) ->
   fst (uploadWithRetry env) = fnResult env (maxRetries - 1)
   /\ invocations (snd (uploadWithRetry env)) = seq 0 maxRetries
   /\ length (invocations (snd (uploadWithRetry env))) = maxRetries
   /\ length (delays (snd (uploadWithRetry env))) = (maxRetries - 1)%nat).
Proof.
  intros Hb Hw. split.
  - intros H0 H1 H2.
    assert (Heq : uploadWithRetry env = (None, failedRounds 2 ++ [Invoked 2%nat])).
    { apply retry_succeeds_at; [unfold maxRetries; lia| |apply Hb|done].
      intros i Hi. split; [apply Hb|]. split; [|apply Hw].
      destruct i as [|[|i]]; [done|done|lia]. }
    rewrite Heq. done.
  - intros Hf.
    destruct (retry_exhausted maxRetries env) as (tr & Heq & Hinv & Hdel);
      [unfold maxRetries; lia|done..|].
    unfold uploadWithRetry. rewrite Heq. cbn [fst snd].
    rewrite Hinv, Hdel. by rewrite length_seq, length_replicate.
Qed.

(** The driver on a transfer that fails twice and then succeeds, and on
    one that always fails. *)
Lemma uploadWithRetry_attempts_witness :
  uploadWithRetry env_two_failures
  = (None, [Invoked 0; Waited retryDelay; Invoked 1; Waited retryDelay; Invoked 2])
  /\ fst (uploadWithRetry env_always_failing) = Some (Errorf "HTTP 500 #2").
Proof.
  split.
  - apply (uploadWithRetry_attempts env_two_failures); [reflexivity|reflexivity|simpl; discriminate|simpl; discriminate|reflexivity].
  - apply (uploadWithRetry_attempts env_always_failing); [reflexivity|reflexivity|].
    intros i _. simpl. discriminate.
Defined.

(** C5. When the context is done before an attempt starts, or becomes
    done during the wait after a failed attempt, the driver returns at
    once: the next attempt is not started, and what it returns is the
    context's error (a cancellation), not the error of the operation. *)
Theorem uploadWithRetry_cancellation (env : retryEnv) (k : nat) (e : error) :
  (k < maxRetries)%nat ->
  (forall i, (i < k)%nat ->
     ctxBefore env i = Active /\ fnResult env i <> None /\ ctxInWait env i = Active) ->
  (ctxErr (ctxBefore env k) = Some e ->
   fst (uploadWithRetry env) = Some e
   /\ isCancellation e = true
   /\ invocations (snd (uploadWithRetry env)) = seq 0 k)
  /\
  ((k < maxRetries - 1)%nat ->
   ctxBefore env k = Active -> fnResult env k <> None ->
   ctxErr (ctxInWait env k) = Some e ->
   fst (uploadWithRetry env) = Some e
   /\ isCancellation e = true
   /\ invocations (snd (uploadWithRetry env)) = seq 0 (S k)).
Proof.
  intros Hk Hq. split.
  - intros Hb. unfold uploadWithRetry.
    rewrite (retry_cancelled_before maxRetries env k e Hk Hq Hb). cbn [fst snd].
    split; [done|]. split; [by eapply ctxErr_isCancellation|].
    apply invocations_failedRounds.
  - intros Hk' Hb Hf Hw. unfold uploadWithRetry.
    rewrite (retry_cancelled_in_wait maxRetries env k e Hk' Hq Hb Hf Hw). cbn [fst snd].
    split; [done|]. split; [by eapply ctxErr_isCancellation|].
    unfold invocations. rewrite omap_app. fold (invocations (failedRounds k)).
    rewrite invocations_failedRounds. by rewrite seq_S.
Qed.

(** The driver cancelled just before its second attempt starts, and
    during the wait after its second attempt. *)
Lemma uploadWithRetry_cancellation_witness :
  (fst (uploadWithRetry env_cancelled_before) = Some Canceled
   /\ isCancellation Canceled = true
   /\ invocations (snd (uploadWithRetry env_cancelled_before)) = [0%nat])
  /\
  (fst (uploadWithRetry env_cancelled_in_wait) = Some Canceled
   /\ isCancellation Canceled = true
   /\ invocations (snd (uploadWithRetry env_cancelled_in_wait)) = [0%nat; 1%nat]).
Proof.
  split.
  - apply (uploadWithRetry_cancellation env_cancelled_before 1 Canceled).
    + unfold maxRetries. lia.
    + intros i Hi. assert (i = 0%nat) as -> by lia. simpl. repeat split; discriminate.
    + reflexivity.
  - apply (uploadWithRetry_cancellation env_cancelled_in_wait 1 Canceled).
    + unfold maxRetries. lia.
    + intros i Hi. assert (i = 0%nat) as -> by lia. simpl. repeat split; discriminate.
    + unfold maxRetries. lia.
    + reflexivity.
    + simpl. discriminate.
    + reflexivity.
Defined.

(** ** Part boundaries *)

Lemma sumZ_app (l1 l2 : list Z) : sumZ (l1 ++ l2) = sumZ l1 + sumZ l2.
Proof. induction l1 as [|x l1 IH]; simpl; [done|]. rewrite IH. lia. Qed.

Lemma sumZ_const (f : Z -> Z) (c : Z) (l : list Z) :
  (forall x, x ∈ l -> f x = c) ->
  sumZ (map f l) = Z.of_nat (length l) * c.
Proof.
  induction l as [|x l IH]; intros Hc; [done|].
  cbn [map sumZ foldr length]. fold (sumZ (map f l)).
  rewrite IH, Hc; [lia|by left|]. intros y Hy. apply Hc. by right.
Qed.

Section PartBounds.
Variable initResp : InitUploadResponse.
Variable size : Z.
Hypothesis size_pos : 0 < size <= max_int64.
Hypothesis part_pos : 0 < PartSize initResp.
Hypothesis some_part : 1 <= TotalParts initResp.
Hypothesis offsets_fit : (TotalParts initResp - 1) * PartSize initResp <= max_int64.

Lemma partOffset_exact (N : Z) :
  1 <= N <= TotalParts initResp -> partOffset initResp N = (N - 1) * PartSize initResp.
Proof using All.
  intros HN. unfold partOffset.
  assert (0 <= (N - 1) * PartSize initResp
          <= (TotalParts initResp - 1) * PartSize initResp) by nia.
  assert (N - 1 <= max_int64) by nia.
  rewrite sub64_id by (unfold in_int64, min_int64, max_int64 in *; lia).
  apply mul64_id. unfold in_int64, min_int64, max_int64 in *. lia.
Qed.

Lemma partLength_inner (N : Z) :
  1 <= N < TotalParts initResp -> partLength initResp size N = PartSize initResp.
Proof using All.
  intros HN. unfold partLength.
  destruct (Z.eqb_spec N (TotalParts initResp)); [lia|done].
Qed.

Lemma partLength_last :
  partLength initResp size (TotalParts initResp)
  = size - (TotalParts initResp - 1) * PartSize initResp.
Proof using All.
  unfold partLength. rewrite Z.eqb_refl.
  rewrite partOffset_exact by lia.
  assert (0 <= (TotalParts initResp - 1) * PartSize initResp) by nia.
  apply sub64_id. unfold in_int64, min_int64, max_int64 in *. lia.
Qed.

Lemma partLengths_sum : sumZ (partLengths initResp size) = size.
Proof using All.
  unfold partLengths, partNumbers.
  replace (TotalParts initResp) with ((TotalParts initResp - 1) + 1) at 1 by lia.
  rewrite seqZ_app by lia. rewrite map_app, sumZ_app.
  rewrite (sumZ_const _ (PartSize initResp)).
  - rewrite length_seqZ.
    replace (1 + (TotalParts initResp - 1)) with (TotalParts initResp) by lia.
    rewrite (seqZ_cons (TotalParts initResp) 1), seqZ_nil by lia. cbn [map sumZ foldr].
    rewrite partLength_last, Z2Nat.id by lia. lia.
  - intros x Hx. apply elem_of_seqZ in Hx. apply partLength_inner. lia.
Qed.
End PartBounds.

(** C6 (as the code has it). For a file of [F > 0] bytes and a
    negotiated part size [P > 0], with at least one part negotiated and
    every offset representable: part [N] starts at [(N-1)*P]; every part
    but the last is [P] bytes long; the last part is [F] minus its
    offset long; the lengths add up to [F]; and the last part is at most
    [P] bytes long exactly when [F <= TotalParts * P], a relation between
    the file and the negotiated number of parts that the code takes from
    the service and does not check. *)
Theorem part_boundaries (initResp : InitUploadResponse) (F : Z) :
  0 < F <= max_int64 ->
  0 < PartSize initResp ->
  1 <= TotalParts initResp ->
  (TotalParts initResp - 1) * PartSize initResp <= max_int64 ->
  (forall N, 1 <= N <= TotalParts initResp ->
             partOffset initResp N = (N - 1) * PartSize initResp)
  /\ (forall N, 1 <= N < TotalParts initResp ->
                partLength initResp F N = PartSize initResp)
  /\ partLength initResp F (TotalParts initResp)
     = F - partOffset initResp (TotalParts initResp)
  /\ sumZ (partLengths initResp F) = F
  /\ (partLength initResp F (TotalParts initResp) <= PartSize initResp
      <-> F <= TotalParts initResp * PartSize initResp).
Proof.
  intros HF HP HT Hfit.
  pose proof (partOffset_exact initResp F HF HP HT Hfit) as Hoff.
  pose proof (partLength_inner initResp F HF HP HT Hfit) as Hin.
  pose proof (partLength_last initResp F HF HP HT Hfit) as Hlast.
  pose proof (partLengths_sum initResp F HF HP HT Hfit) as Hsum.
  split; [exact Hoff|]. split; [exact Hin|].
  split; [rewrite Hlast, Hoff by lia; done|].
  split; [exact Hsum|].
  rewrite Hlast. lia.
Qed.

(** A file of 25 bytes in three parts of at most 10 bytes. *)
Lemma part_boundaries_witness :
  partOffset plan_25 3 = 20
  /\ partLength plan_25 25 1 = 10
  /\ partLength plan_25 25 3 = 5
  /\ sumZ (partLengths plan_25 25) = 25.
Proof.
  destruct (part_boundaries plan_25 25) as (Hoff & Hin & Hlast & Hsum & _);
    [unfold max_int64; lia|simpl; lia|simpl; lia|unfold max_int64; simpl; lia|].
  split; [apply (Hoff 3); simpl; lia|].
  split; [apply (Hin 1); simpl; lia|].
  split; [|exact Hsum].
  change 3 with (TotalParts plan_25) at 1.
  rewrite Hlast, (Hoff (TotalParts plan_25)) by (simpl; lia). reflexivity.
Defined.

(** C6 fails as stated: with 100 bytes, parts of 10 bytes and 5
    negotiated parts, the last part is 60 bytes long. *)
Lemma part_last_length_counterexample :
  0 < 100 /\ 0 < PartSize plan_short
  /\ partLength plan_short 100 (TotalParts plan_short) = 60
  /\ ~ (partLength plan_short 100 (TotalParts plan_short) <= PartSize plan_short).
Proof.
  split; [lia|]. split; [simpl; lia|]. split; [reflexivity|].
  vm_compute. intros H. apply H. reflexivity.
Qed.

(** ** The progress/checksum stream *)

Lemma lxor_mask_twice (x m : Z) : Z.lxor (Z.lxor x m) m = x.
Proof. by rewrite Z.lxor_assoc, Z.lxor_nilpotent, Z.lxor_0_r. Qed.

(** Incremental update: folding [a] and then [b] into a checksum is
    folding [a ++ b] into it. *)
Lemma Update_app (c : Z) (tab : list Z) (a b : list byte) :
  Update (Update c tab a) tab b = Update c tab (a ++ b).
Proof. unfold Update. by rewrite lxor_mask_twice, fold_left_app. Qed.

Lemma Update_nil (c : Z) (tab : list Z) : Update c tab [] = c.
Proof. unfold Update. simpl. apply lxor_mask_twice. Qed.

Lemma Read_empty (pr : progressReader) (r : readResult) :
  data r = [] -> after (Read pr r) = pr /\ callbacks (Read pr r) = [].
Proof. intros H. unfold Read. rewrite H. done. Qed.

Lemma Read_nonempty (pr : progressReader) (r : readResult) :
  data r <> [] ->
  Read pr r
  = let n := Z.of_nat (length (data r)) in
    let uploaded' := add64 (uploaded pr) n in
    {| after := {| total := total pr; uploaded := uploaded';
                   onProgress := onProgress pr; hasher := hasher pr;
                   crc := match hasher pr with
                          | Some tab => Update (crc pr) tab (data r)
                          | None => crc pr
                          end |};
       n_read := n; err_read := rerr r;
       callbacks := if onProgress pr then [(uploaded', total pr)] else [] |}.
Proof.
  intros H. unfold Read.
  destruct (Z.ltb_spec 0 (Z.of_nat (length (data r)))); [done|].
  destruct (data r); [done|simpl in *; lia].
Qed.

(** A run of reads through a wrapper that accumulates a checksum. *)
Lemma readAll_accumulates (tab : list Z) (rs : list readResult) :
  forall pr : progressReader,
    hasher pr = Some tab ->
    0 <= uploaded pr ->
    uploaded pr + Z.of_nat (length (delivered rs)) <= max_int64 ->
    crc (fst (readAll pr rs)) = Update (crc pr) tab (delivered rs)
    /\ uploaded (fst (readAll pr rs)) = uploaded pr + Z.of_nat (length (delivered rs)).
Proof.
  induction rs as [|r rs IH]; intros pr Hh Hu Hmax.
  - simpl. rewrite Update_nil. split; [done|]. unfold delivered. simpl. lia.
  - cbn [readAll].
    destruct (readAll (after (Read pr r)) rs) as [pr' cbs] eqn:Hrest.
    cbn [fst].
    replace pr' with (fst (readAll (after (Read pr r)) rs)) by (by rewrite Hrest).
    unfold delivered in *. cbn [map concat] in *. rewrite length_app in Hmax.
    destruct (data r) as [|b bs] eqn:Hd.
    + destruct (Read_empty pr r Hd) as [-> _]. simpl in *. by apply IH.
    + rewrite Read_nonempty by (rewrite Hd; done). cbn zeta.
      rewrite Hd, Hh.
      rewrite add64_id by (unfold in_int64, min_int64, max_int64 in *; lia).
      destruct (IH {| total := total pr;
                      uploaded := uploaded pr + Z.of_nat (length (b :: bs));
                      onProgress := onProgress pr; hasher := Some tab;
                      crc := Update (crc pr) tab (b :: bs) |}) as [Hc Hn];
        [done|cbn [uploaded]; lia|cbn [uploaded]; lia|].
      cbn [crc uploaded] in Hc, Hn. cbn [after].
      rewrite Hc, Hn, Update_app, length_app. split; [done|lia].
Qed.

(** C8. For every read through the wrapper: a read that delivers
    [n > 0] bytes adds exactly [n] to the uploaded counter, folds the
    bytes into the running CRC-32 when a table is set, and calls the
    observer once, with the new counter and the total; a read that
    delivers nothing (end of stream, or an error) changes nothing and
    calls nothing; no read, whatever its error, makes more than that one
    call.  Hence, over any sequence of reads from a fresh wrapper with
    [crc32.IEEETable], the accumulated value is the IEEE CRC-32 of all
    bytes delivered so far. *)
Theorem progressReader_Read (pr : progressReader) (r : readResult)
    (rs : list readResult) (size : Z) :
  0 <= uploaded pr ->
  uploaded pr + Z.of_nat (length (data r)) <= max_int64 ->
  Z.of_nat (length (delivered rs)) <= max_int64 ->
  let n := Z.of_nat (length (data r)) in
  let o := Read pr r in
  n_read o = n /\ err_read o = rerr r
  /\ (0 < n ->
      uploaded (after o) = uploaded pr + n
      /\ total (after o) = total pr
      /\ (forall tab, hasher pr = Some tab ->
                      crc (after o) = Update (crc pr) tab (data r))
      /\ (hasher pr = None -> crc (after o) = crc pr)
      /\ (onProgress pr = true ->
          callbacks o = [(uploaded pr + n, total pr)]))
  /\ (n = 0 -> after o = pr /\ callbacks o = [])
  /\ (length (callbacks o) <= 1)%nat
  /\ (let pr' := fst (readAll (newChecksumReader size) rs) in
      crc pr' = ChecksumIEEE (delivered rs)
      /\ uploaded pr' = Z.of_nat (length (delivered rs))).
Proof.
  intros Hu Hmax Hrs n o. subst n o.
  destruct (data r) as [|b bs] eqn:Hd.
  - destruct (Read_empty pr r Hd) as [Ha Hc].
    unfold Read at 1 2. rewrite Hd. cbn [length Z.of_nat Z.ltb Z.compare n_read err_read].
    rewrite Ha, Hc.
    split; [done|]. split; [done|]. split; [lia|]. split; [done|]. split; [simpl; lia|].
    apply (readAll_accumulates IEEETable rs (newChecksumReader size)); simpl; [done|lia|lia].
  - rewrite Read_nonempty by (rewrite Hd; done). cbn zeta. rewrite Hd.
    rewrite add64_id by (unfold in_int64, min_int64, max_int64 in *; lia).
    cbn [after n_read err_read callbacks uploaded total crc].
    split; [done|]. split; [done|]. split.
    { intros _. split; [done|]. split; [done|].
      split; [intros tab ->; done|]. split; [intros ->; done|]. intros ->; done. }
    split; [simpl; lia|]. split; [destruct (onProgress pr); simpl; lia|].
    apply (readAll_accumulates IEEETable rs (newChecksumReader size)); simpl; [done|lia|lia].
Qed.

(** Reading the nine bytes of 123456789 in two deliveries and an end of
    input: the checksum is the check value of CRC-32, 0xCBF43926. *)
Lemma progressReader_Read_witness :
  let o := Read (newChecksumReader 9) {| data := list_byte_of_string "1234"; rerr := None |} in
  uploaded (after o) = 4
  /\ callbacks o = [(4, 9)]
  /\ crc (fst (readAll (newChecksumReader 9) reads_123456789)) = 0xCBF43926.
Proof.
  destruct (progressReader_Read (newChecksumReader 9)
              {| data := list_byte_of_string "1234"; rerr := None |}
              reads_123456789 9) as (_ & _ & Hpos & _ & _ & Hall & _);
    [simpl; lia|vm_compute; discriminate|vm_compute; discriminate|].
  destruct Hpos as (Hup & _ & _ & _ & Hcb); [simpl; lia|].
  split; [exact Hup|]. split; [apply Hcb; reflexivity|].
  rewrite Hall. vm_compute. reflexivity.
Defined.

(** ** [humanSize] *)

Lemma roundHalfEven_mono (d n n' : Z) :
  0 < d -> n <= n' -> roundHalfEven n d <= roundHalfEven n' d.
Proof.
  intros Hd Hn. unfold roundHalfEven.
  pose proof (Z.div_mod n d ltac:(lia)) as E.
  pose proof (Z.div_mod n' d ltac:(lia)) as E'.
  pose proof (Z.mod_pos_bound n d Hd) as B.
  pose proof (Z.mod_pos_bound n' d Hd) as B'.
  pose proof (Z.div_le_mono n n' d Hd Hn) as Q.
  destruct (Z.eq_dec (n / d) (n' / d)) as [Heq|Hne].
  - rewrite <- Heq in *.
    assert (n mod d <= n' mod d) by lia.
    destruct (Z.gtb_spec (2 * (n mod d)) d), (Z.gtb_spec (2 * (n' mod d)) d);
      destruct (Z.eqb_spec (2 * (n mod d)) d), (Z.eqb_spec (2 * (n' mod d)) d);
      destruct (Z.odd (n / d)); simpl; lia.
  - destruct ((2 * (n mod d) >? d) || (2 * (n mod d) =? d) && Z.odd (n / d));
      destruct ((2 * (n' mod d) >? d) || (2 * (n' mod d) =? d) && Z.odd (n' / d)); lia.
Qed.

Lemma roundHalfEven_exact (d m : Z) : 0 < d -> roundHalfEven (m * d) d = m.
Proof.
  intros Hd. unfold roundHalfEven.
  rewrite Z.div_mul, Z.mod_mul by lia.
  destruct (Z.gtb_spec (2 * 0) d); [lia|].
  destruct (Z.eqb_spec (2 * 0) d); [lia|]. done.
Qed.

Lemma roundHalfEven_ge (d n m : Z) : 0 < d -> m * d <= n -> m <= roundHalfEven n d.
Proof.
  intros Hd H. pose proof (roundHalfEven_mono d (m * d) n Hd H) as G.
  by rewrite roundHalfEven_exact in G.
Qed.

Lemma roundHalfEven_le (d n m : Z) : 0 < d -> n <= m * d -> roundHalfEven n d <= m.
Proof.
  intros Hd H. pose proof (roundHalfEven_mono d n (m * d) Hd H) as G.
  by rewrite roundHalfEven_exact in G.
Qed.

(** The double nearest to [x] lies in the binade of [x]. *)
Lemma float64_of_int_binade (x : Z) :
  0 < x ->
  2 ^ Z.log2 x <= float64_of_int x <= 2 ^ (Z.log2 x + 1).
Proof.
  intros Hx. unfold float64_of_int.
  pose proof (Z.log2_spec x Hx) as [Hlo Hhi].
  pose proof (Z.log2_nonneg x) as HL.
  replace (Z.succ (Z.log2 x)) with (Z.log2 x + 1) in Hhi by lia.
  destruct (Z.leb_spec (Z.log2 x + 1) 53); [lia|].
  set (s := Z.log2 x + 1 - 53).
  assert (Hs : 0 < 2 ^ s) by (apply Z.pow_pos_nonneg; lia).
  assert (E1 : 2 ^ Z.log2 x = 2 ^ 52 * 2 ^ s)
    by (rewrite <- Z.pow_add_r by lia; f_equal; lia).
  assert (E2 : 2 ^ (Z.log2 x + 1) = 2 ^ 53 * 2 ^ s)
    by (rewrite <- Z.pow_add_r by lia; f_equal; lia).
  rewrite E1, E2. split.
  - apply Z.mul_le_mono_nonneg_r; [lia|]. apply roundHalfEven_ge; lia.
  - apply Z.mul_le_mono_nonneg_r; [lia|]. apply roundHalfEven_le; lia.
Qed.

Lemma float64_of_int_mono (x y : Z) :
  0 < x -> x <= y -> float64_of_int x <= float64_of_int y.
Proof.
  intros Hx Hxy.
  pose proof (Z.log2_le_mono x y Hxy) as HL.
  destruct (Z.eq_dec (Z.log2 x) (Z.log2 y)) as [Heq|Hne].
  - unfold float64_of_int. rewrite Heq.
    destruct (Z.leb_spec (Z.log2 y + 1) 53); [done|].
    assert (0 < 2 ^ (Z.log2 y + 1 - 53)) by (apply Z.pow_pos_nonneg; lia).
    apply Z.mul_le_mono_nonneg_r; [lia|]. by apply roundHalfEven_mono.
  - pose proof (float64_of_int_binade x Hx) as [_ Hux].
    pose proof (float64_of_int_binade y ltac:(lia)) as [Hly _].
    assert (2 ^ (Z.log2 x + 1) <= 2 ^ Z.log2 y)
      by (apply Z.pow_le_mono_r; lia).
    lia.
Qed.

(** Powers of 1024 up to [1024^7] are doubles. *)
Lemma float64_of_int_pow1024 (e : nat) :
  (e <= 6)%nat ->
  float64_of_int (1024 ^ (Z.of_nat e + 1)) = 1024 ^ (Z.of_nat e + 1).
Proof.
  intros He.
  destruct e as [|[|[|[|[|[|[|e]]]]]]]; [by vm_compute..|lia].
Qed.

Lemma pow1024_pos (k : Z) : 0 <= k -> 0 < 1024 ^ k.
Proof. intros. apply Z.pow_pos_nonneg; lia. Qed.

Lemma pow1024_succ (k : Z) : 0 <= k -> 1024 ^ (k + 1) = 1024 * 1024 ^ k.
Proof. intros. rewrite Z.pow_add_r by lia. lia. Qed.

Lemma humanLoop_run (k : nat) :
  forall (fuel : nat) (n div exp : Z),
    (k < fuel)%nat ->
    1024 ^ Z.of_nat k <= n < 1024 ^ (Z.of_nat k + 1) ->
    0 < div -> div * 1024 ^ Z.of_nat k <= max_int64 ->
    0 <= exp -> exp + Z.of_nat k <= max_int64 ->
    humanLoop fuel n div exp = Returns (div * 1024 ^ Z.of_nat k, exp + Z.of_nat k).
Proof.
  induction k as [|k IH]; intros fuel n div exp Hfuel Hn Hdiv Hmax Hexp Hemax;
    (destruct fuel as [|fuel]; [lia|]); cbn [humanLoop].
  - change (1024 ^ (Z.of_nat 0 + 1)) with 1024 in Hn.
    destruct (Z.geb_spec n 1024); [lia|].
    change (1024 ^ Z.of_nat 0) with 1. f_equal. f_equal; lia.
  - replace (Z.of_nat (S k)) with (Z.of_nat k + 1) in * by lia.
    pose proof (pow1024_pos (Z.of_nat k) ltac:(lia)) as Hp.
    rewrite (pow1024_succ (Z.of_nat k + 1)) in Hn by lia.
    rewrite (pow1024_succ (Z.of_nat k)) in Hn, Hmax by lia.
    destruct (Z.geb_spec n 1024); [|nia].
    rewrite Z.quot_div_nonneg by lia.
    rewrite mul64_id by (unfold in_int64, min_int64, max_int64 in *; nia).
    rewrite add64_id by (unfold in_int64, min_int64, max_int64 in *; lia).
    rewrite IH; [| lia | | lia | nia | lia | lia].
    + rewrite (pow1024_succ (Z.of_nat k)) by lia. f_equal. f_equal; lia.
    + rewrite (pow1024_succ (Z.of_nat k)) by lia. split.
      * apply Z.div_le_lower_bound; lia.
      * apply Z.div_lt_upper_bound; lia.
Qed.

(** Every size from 1024 bytes up falls between two powers of 1024. *)
Lemma unit_range (b : Z) :
  1024 <= b <= max_int64 ->
  exists e : nat, (e <= 5)%nat /\ 1024 ^ (Z.of_nat e + 1) <= b < 1024 ^ (Z.of_nat e + 2).
Proof.
  intros Hb. unfold max_int64 in Hb.
  destruct (Z_lt_le_dec b (1024 ^ 2)); [exists 0%nat; split; [lia|]; simpl; lia|].
  destruct (Z_lt_le_dec b (1024 ^ 3)); [exists 1%nat; split; [lia|]; simpl; lia|].
  destruct (Z_lt_le_dec b (1024 ^ 4)); [exists 2%nat; split; [lia|]; simpl; lia|].
  destruct (Z_lt_le_dec b (1024 ^ 5)); [exists 3%nat; split; [lia|]; simpl; lia|].
  destruct (Z_lt_le_dec b (1024 ^ 6)); [exists 4%nat; split; [lia|]; simpl; lia|].
  exists 5%nat; split; [lia|]; simpl; lia.
Qed.

(** The unit is binary: [exp] counts powers of 1024. *)
Lemma humanParts_scaled (b : Z) (e : nat) :
  1024 ^ (Z.of_nat e + 1) <= b < 1024 ^ (Z.of_nat e + 2) ->
  b <= max_int64 ->
  humanParts b
  = Returns (Scaled (roundHalfEven (10 * float64_of_int b) (1024 ^ (Z.of_nat e + 1)))
                    (Z.of_nat e)).
Proof.
  intros Hb Hmax. unfold humanParts.
  pose proof (pow1024_pos (Z.of_nat e) ltac:(lia)) as Hp.
  replace (Z.of_nat e + 2) with ((Z.of_nat e + 1) + 1) in Hb by lia.
  rewrite (pow1024_succ (Z.of_nat e + 1)) in Hb by lia.
  pose proof (pow1024_succ (Z.of_nat e) ltac:(lia)) as Hs.
  destruct (Z.ltb_spec b 1024); [nia|].
  rewrite Z.quot_div_nonneg by lia.
  assert (He : (e < 64)%nat).
  { destruct (Nat.lt_ge_cases e 64) as [|Hge]; [done|exfalso].
    assert (1024 ^ 64 <= 1024 ^ Z.of_nat e) by (apply Z.pow_le_mono_r; lia).
    assert (2 ^ 63 < 1024 ^ 64) by (vm_compute; reflexivity).
    unfold max_int64 in Hmax. lia. }
  rewrite (humanLoop_run e 64 (b / 1024) 1024 0); [| lia | | lia | lia | lia | unfold max_int64; lia].
  - by rewrite Hs.
  - rewrite Hs. split.
    + apply Z.div_le_lower_bound; lia.
    + apply Z.div_lt_upper_bound; lia.
Qed.

(** The number of tenths printed lies between 1.0 and 1024.0. *)
Lemma tenths_bounds (b : Z) (e : nat) :
  (e <= 5)%nat ->
  1024 ^ (Z.of_nat e + 1) <= b < 1024 ^ (Z.of_nat e + 2) ->
  10 <= roundHalfEven (10 * float64_of_int b) (1024 ^ (Z.of_nat e + 1)) <= 10240.
Proof.
  intros He Hb.
  pose proof (pow1024_pos (Z.of_nat e + 1) ltac:(lia)) as Hp.
  assert (Hlo : 1024 ^ (Z.of_nat e + 1) <= float64_of_int b).
  { rewrite <- (float64_of_int_pow1024 e) at 1 by lia.
    apply float64_of_int_mono; lia. }
  assert (Hhi : float64_of_int b <= 1024 ^ (Z.of_nat e + 2)).
  { pose proof (float64_of_int_pow1024 (S e) ltac:(lia)) as Hfix.
    replace (Z.of_nat (S e) + 1) with (Z.of_nat e + 2) in Hfix by lia.
    rewrite <- Hfix. apply float64_of_int_mono; lia. }
  replace (Z.of_nat e + 2) with ((Z.of_nat e + 1) + 1) in Hhi by lia.
  rewrite (pow1024_succ (Z.of_nat e + 1)) in Hhi by lia.
  split; [apply roundHalfEven_ge; lia|apply roundHalfEven_le; lia].
Qed.

Lemma unitLetter_small (e : nat) :
  (e <= 5)%nat -> exists c, unitLetter (Z.of_nat e) = Returns c.
Proof.
  intros He. destruct e as [|[|[|[|[|[|e]]]]]]; [by eexists..|lia].
Qed.

(** [humanSize] returns for every [int64]. *)
Lemma humanSize_total (b : Z) :
  in_int64 b ->
  exists t s, humanParts b = Returns t /\ humanSize b = Returns s.
Proof.
  intros [Hlo Hhi]. unfold humanSize.
  destruct (Z_lt_le_dec b 1024) as [Hs|Hl].
  - unfold humanParts. destruct (Z.ltb_spec b 1024); [|lia].
    eexists _, _. split; reflexivity.
  - destruct (unit_range b ltac:(lia)) as (e & He & Hr).
    rewrite (humanParts_scaled b e Hr Hhi).
    destruct (unitLetter_small e He) as [c Hc].
    cbn [renderSize]. rewrite Hc. eexists _, _. split; reflexivity.
Qed.

Lemma humanParts_mono (a b : Z) (ta tb : sizeText) :
  in_int64 a -> in_int64 b -> a <= b ->
  humanParts a = Returns ta -> humanParts b = Returns tb ->
  tenfoldBytes ta <= tenfoldBytes tb.
Proof.
  intros [_ Ha] [_ Hb] Hab Hta Htb.
  destruct (Z_lt_le_dec b 1024) as [Hbs|Hbl].
  { unfold humanParts in *.
    destruct (Z.ltb_spec a 1024); [|lia]. destruct (Z.ltb_spec b 1024); [|lia].
    simplify_eq. simpl. lia. }
  destruct (unit_range b ltac:(lia)) as (eb & Heb & Hrb).
  rewrite (humanParts_scaled b eb Hrb Hb) in Htb. simplify_eq.
  pose proof (tenths_bounds b eb Heb Hrb) as [Htb1 Htb2].
  pose proof (pow1024_pos (Z.of_nat eb + 1) ltac:(lia)) as Hpb.
  cbn [tenfoldBytes].
  destruct (Z_lt_le_dec a 1024) as [Has|Hal].
  { unfold humanParts in Hta. destruct (Z.ltb_spec a 1024); [|lia].
    simplify_eq. cbn [tenfoldBytes].
    assert (1024 ^ 1 <= 1024 ^ (Z.of_nat eb + 1)) by (apply Z.pow_le_mono_r; lia).
    nia. }
  destruct (unit_range a ltac:(lia)) as (ea & Hea & Hra).
  rewrite (humanParts_scaled a ea Hra Ha) in Hta. simplify_eq.
  pose proof (tenths_bounds a ea Hea Hra) as [Hta1 Hta2].
  pose proof (pow1024_pos (Z.of_nat ea + 1) ltac:(lia)) as Hpa.
  cbn [tenfoldBytes].
  destruct (Nat.lt_trichotomy ea eb) as [Hlt|[Heq|Hgt]].
  - assert (1024 ^ (Z.of_nat ea + 2) <= 1024 ^ (Z.of_nat eb + 1))
      by (apply Z.pow_le_mono_r; lia).
    replace (Z.of_nat ea + 2) with ((Z.of_nat ea + 1) + 1) in * by lia.
    rewrite (pow1024_succ (Z.of_nat ea + 1)) in * by lia.
    nia.
  - subst eb.
    apply Z.mul_le_mono_nonneg_r; [lia|].
    apply roundHalfEven_mono; [done|].
    apply Z.mul_le_mono_nonneg_l; [lia|]. apply float64_of_int_mono; lia.
  - exfalso.
    assert (1024 ^ (Z.of_nat eb + 2) <= 1024 ^ (Z.of_nat ea + 1))
      by (apply Z.pow_le_mono_r; lia).
    lia.
Qed.



(** ** The multipart transfer *)

Lemma ctxErr_None (c : ctxState) : ctxErr c = None <-> c = Active.
Proof. destruct c; simpl; split; intros H; congruence. Qed.

Lemma takeWorker_perm (n : Z) (ws rest : list worker) :
  takeWorker n ws = Some rest -> map pNum ws ≡ₚ n :: map pNum rest.
Proof.
  revert rest. induction ws as [|w ws IH]; intros rest H; [done|].
  simpl in H. destruct (Z.eqb_spec (pNum w) n) as [Heq|Hne].
  - simplify_eq. done.
  - destruct (takeWorker n ws) as [r|]; [|done]. simplify_eq.
    cbn [map]. rewrite (IH r eq_refl). apply Permutation_swap.
Qed.

Lemma seqZ_snoc (n : Z) : 1 <= n -> seqZ 1 (n - 1) ++ [n] = seqZ 1 n.
Proof.
  intros Hn. replace n with ((n - 1) + 1) at 3 by lia.
  rewrite seqZ_app by lia. f_equal.
  rewrite (seqZ_cons (1 + (n - 1)) 1), seqZ_nil by lia. f_equal. lia.
Qed.

Lemma completeCalls_snoc (cs : list remoteCall) (c : remoteCall) :
  completeCalls (cs ++ [c])
  = completeCalls cs ++ match c with
                        | CompleteMultipart x id ps => [(x, id, ps)]
                        | _ => []
                        end.
Proof. unfold completeCalls. rewrite omap_app. by destruct c. Qed.

Lemma abortCalls_snoc (cs : list remoteCall) (c : remoteCall) :
  abortCalls (cs ++ [c])
  = abortCalls cs ++ match c with AbortUpload x id => [(x, id)] | _ => [] end.
Proof. unfold abortCalls. rewrite omap_app. by destruct c. Qed.

Lemma urlCalls_snoc (cs : list remoteCall) (c : remoteCall) :
  urlCalls (cs ++ [c])
  = urlCalls cs ++ match c with GetPartURLs _ _ nums => [nums] | _ => [] end.
Proof. unfold urlCalls. rewrite omap_app. by destruct c. Qed.

(** A property that the start state has and every step keeps holds
    after every run. *)
Lemma run_invariant (initResp : InitUploadResponse) (size : Z) (P : mpState -> Prop) :
  (forall ev s s', P s -> step initResp size ev s = Some s' -> P s') ->
  forall evs s s', P s -> run initResp size evs s = Some s' -> P s'.
Proof.
  intros Hstep. induction evs as [|ev evs IH]; intros s s' HP Hrun.
  - cbn in Hrun. by simplify_eq.
  - cbn [run] in Hrun. destruct (step initResp size ev s) as [s1|] eqn:H1; [|done].
    eapply IH; [|exact Hrun]. by eapply Hstep.
Qed.

Section Multipart.
Variable initResp : InitUploadResponse.
Variable size : Z.

(** The loop variable stays far from the largest [int]. *)
Hypothesis parts_in_range : TotalParts initResp <= max_int64 - partURLBatchSize.

Lemma progressInv_start : progressInv initResp (start initResp).
Proof using Type.
  unfold progressInv, start, launched. cbn. split; [lia|]. intros _.
  by rewrite seqZ_nil.
Qed.

Lemma callsInv_start : callsInv initResp (start initResp).
Proof using Type.
  unfold callsInv, start. cbn. split; [|done].
  intros nums H. by apply elem_of_nil in H.
Qed.

Lemma loop_next (w : worker) :
  1 <= pNum w <= TotalParts initResp -> add64 (pNum w) 1 = pNum w + 1.
Proof using parts_in_range.
  intros Hw. apply add64_id. unfold partURLBatchSize in *.
  unfold in_int64, min_int64, max_int64 in *. lia.
Qed.

Lemma progressInv_step (ev : event) (s s' : mpState) :
  progressInv initResp s -> step initResp size ev s = Some s' ->
  progressInv initResp s'.
Proof using parts_in_range.
  intros Hinv Hstep. destruct ev as [c|a|n r]; cbn [step] in Hstep.
  - (* the context becomes done *)
    destruct (ctx s) eqn:Hctx; [|done..].
    assert (Hs' : s' = setCtx c s /\ c <> Active)
      by (destruct c; simplify_eq; done).
    destruct Hs' as [-> Hc]. unfold progressInv in *. cbn.
    destruct (pc s); done.
  - (* the main goroutine moves *)
    unfold mainStep in Hstep. unfold progressInv in Hinv.
    destruct (pc s) as [partNum|w| |res|res|why|] eqn:Hpc; try done.
    + (* one iteration of the loop *)
      destruct Hinv as [Hrange Hperm]. simplify_eq. unfold loopStep.
      destruct (Z.leb_spec partNum (TotalParts initResp)) as [Hle|Hgt].
      * destruct (ctxErr (ctx s)) as [e|] eqn:Hctx.
        { unfold progressInv. cbn. intros Hact.
          apply ctxErr_None in Hact. congruence. }
        destruct (uploadErr s) as [e|] eqn:Herr.
        { unfold progressInv. cbn. intros _ Hnone. congruence. }
        destruct (urls s ≫= _) as [url|].
        { unfold progressInv. cbn. split; [lia|]. intros Hnone.
          unfold launched in *. cbn. by apply Hperm. }
        rewrite generatePartNumbers_call_site by (done || lia).
        destruct (ansPartURLs a) as [more|e]; [|done].
        destruct (mergeURLs more (urls s)) as [u| |]; [|done..].
        unfold progressInv. cbn. split; [lia|]. intros Hnone.
        unfold launched in *. cbn. by apply Hperm.
      * unfold progressInv. cbn. intros Hact Hnone.
        unfold launched in *. cbn. rewrite (Hperm Hnone).
        destruct (Z_le_gt_dec (TotalParts initResp) 0).
        -- rewrite !seqZ_nil by lia. done.
        -- by replace (partNum - 1) with (TotalParts initResp) by lia.
    + (* the semaphore is acquired and the goroutine started *)
      destruct Hinv as [Hrange Hperm].
      destruct (length (inflight s) <? concurrentParts)%nat; [|done].
      simplify_eq. unfold progressInv. cbn.
      rewrite (loop_next w Hrange). split; [lia|]. intros Hnone.
      unfold launched in *. cbn in *.
      rewrite map_app, app_assoc, (Hperm Hnone). cbn.
      replace (pNum w + 1 - 1) with (pNum w) by lia.
      by rewrite seqZ_snoc by lia.
    + (* all goroutines are done *)
      destruct (inflight s); [|done]. simplify_eq.
      unfold progressInv, finishStep.
      destruct (ctxErr (ctx s)); [done|].
      destruct (uploadErr s); [done|].
      destruct (ansComplete a); [done|]. by destruct (ansChecksum a).
    + (* the deferred function *)
      simplify_eq. unfold progressInv, deferredAbort.
      destruct (ctxErr (ctx s)); [|done]. by case_decide.
  - (* a part goroutine ends *)
    destruct (takeWorker n (inflight s)) as [rest|] eqn:Htake; [|done].
    pose proof (takeWorker_perm _ _ _ Htake) as Hws.
    destruct r as [etag|e]; simplify_eq.
    + unfold progressInv in *. cbn. unfold launched in *. cbn.
      assert (Hl : map PartNumber (parts s ++ [{| PartNumber := n; ETag := etag |}])
                   ++ map pNum rest
                   ≡ₚ map PartNumber (parts s) ++ map pNum (inflight s)).
      { rewrite map_app, <- app_assoc, Hws. done. }
      destruct (pc s); try done.
      * destruct Hinv as [? Hp]. split; [done|]. intros Hn. by rewrite Hl, Hp.
      * destruct Hinv as [? Hp]. split; [done|]. intros Hn. by rewrite Hl, Hp.
      * intros Ha Hn. by rewrite Hl, Hinv.
    + unfold progressInv in *.
      destruct (uploadErr s) as [e0|] eqn:Herr; cbn; rewrite ?Herr;
        destruct (pc s); try done;
        try (destruct Hinv as [? _]; split; [done|]; intros; congruence);
        intros; congruence.
Qed.

Lemma callsInv_step (ev : event) (s s' : mpState) :
  progressInv initResp s -> callsInv initResp s ->
  step initResp size ev s = Some s' ->
  callsInv initResp s'.
Proof using parts_in_range.
  intros Hprog [Hurl Hinv] Hstep.
  destruct ev as [c|a|n r]; cbn [step] in Hstep.
  - (* the context becomes done *)
    destruct (ctx s) eqn:Hctx; [|done..].
    assert (Hs' : s' = setCtx c s)
      by (destruct c; simplify_eq; done).
    subst s'. split; [done|]. unfold finalized; cbn.
    destruct (pc s); try done.
    destruct Hinv as [Hfin [Hab|(_ & Hne & _)]]; [|done].
    split; [done|by left].
  - (* the main goroutine moves *)
    unfold mainStep in Hstep. unfold progressInv in Hprog.
    destruct (pc s) as [partNum|w| |res|res|why|] eqn:Hpc; try done.
    + destruct Hprog as [Hrange _]. destruct Hinv as [Hc Ha].
      simplify_eq. unfold loopStep.
      destruct (Z.leb_spec partNum (TotalParts initResp)) as [Hle|Hgt];
        [|by split].
      destruct (ctxErr (ctx s)); [by split|].
      destruct (uploadErr s); [by split|].
      destruct (urls s ≫= _); [by split|].
      rewrite generatePartNumbers_call_site by (done || lia).
      assert (Hurl' : forall s1,
                 calls s1 = calls s ++ [GetPartURLs CallerCtx (UploadID initResp)
                   (seqZ partNum (Z.min (partNum + 49) (TotalParts initResp) - partNum + 1))] ->
                 forall nums, nums ∈ urlCalls (calls s1) ->
                   exists p, 1 <= p <= TotalParts initResp
                     /\ nums = seqZ p (Z.min (p + 49) (TotalParts initResp) - p + 1)).
      { intros s1 -> nums. rewrite urlCalls_snoc, elem_of_app, list_elem_of_singleton.
        intros [Hin| ->]; [by apply Hurl|]. exists partNum. split; [lia|done]. }
      destruct (ansPartURLs a) as [more|e].
      * destruct (mergeURLs more (urls s)) as [u| |];
          (split; [by apply Hurl'|]); unfold finalized; cbn;
          by rewrite completeCalls_snoc, abortCalls_snoc, Hc, Ha.
      * split; [by apply Hurl'|]. unfold finalized; cbn.
        rewrite abortCalls_snoc, Ha. split; [done|]. left.
        rewrite completeCalls_snoc, Hc. split; [done|]. by eexists.
    + destruct (length (inflight s) <? concurrentParts)%nat; [|done].
      simplify_eq. by split.
    + destruct (inflight s) eqn:Hfl; [|done]. simplify_eq.
      destruct Hinv as [Hc Ha]. unfold finishStep.
      destruct (ctxErr (ctx s)) as [e|] eqn:Hctx.
      { split; [done|]. unfold finalized; cbn. split; [done|]. left. split; [done|]. by eexists. }
      destruct (uploadErr s) as [e|] eqn:Herr.
      { split; [done|]. unfold finalized; cbn. split; [done|]. left. split; [done|]. by eexists. }
      apply ctxErr_None in Hctx.
      pose proof (Hprog Hctx eq_refl) as Hperm.
      unfold launched in Hperm. rewrite Hfl in Hperm. cbn in Hperm.
      rewrite app_nil_r in Hperm.
      assert (Hfin : forall res,
                 callsInv initResp
                   (setPC (AtReturn res)
                      (addCall (CompleteMultipart CallerCtx (UploadID initResp) (parts s)) s))).
      { intros res. split.
        - unfold finalized; cbn. intros nums. rewrite urlCalls_snoc, app_nil_r. apply Hurl.
        - unfold finalized; cbn. rewrite abortCalls_snoc, Ha. split; [done|]. right.
          rewrite completeCalls_snoc, Hc. done. }
      destruct (ansComplete a); [apply Hfin|].
      destruct (ansChecksum a); apply Hfin.
    + simplify_eq. destruct Hinv as [Ha Hfin]. unfold deferredAbort.
      destruct (ctxErr (ctx s)) as [e|] eqn:Hctx.
      * case_decide as Hid.
        -- split; [done|]. unfold finalized; cbn. split; [done|by left].
        -- split.
           ++ unfold finalized; cbn. intros nums. rewrite urlCalls_snoc, app_nil_r. apply Hurl.
           ++ unfold finalized; cbn. split.
              ** unfold finalized in *; cbn. by rewrite completeCalls_snoc, app_nil_r.
              ** right. rewrite abortCalls_snoc, Ha. split; [done|]. split; [|done].
                 intros Hact. rewrite Hact in Hctx. done.
      * split; [done|]. unfold finalized; cbn. split; [done|by left].
  - (* a part goroutine ends *)
    destruct (takeWorker n (inflight s)) as [rest|] eqn:Htake; [|done].
    assert (Hne : inflight s <> []) by (intros E; by rewrite E in Htake).
    assert (Hfin : forall res, finalized initResp res s ->
              completeCalls (calls s) = [] /\ exists e, res = Failed e).
    { intros res [H|(_ & H & _)]; done. }
    assert (Hs' : calls s' = calls s /\ pc s' = pc s /\ ctx s' = ctx s).
    { destruct r; simplify_eq; [done|]. by destruct (uploadErr s). }
    destruct Hs' as (Hcalls & Hpc & Hctx). unfold callsInv.
    rewrite Hcalls, Hpc. split; [done|].
    destruct (pc s); try done.
    * destruct Hinv as [Ha Hf]. split; [done|]. left.
      rewrite Hcalls. by apply Hfin.
    * destruct Hinv as [Hf Ha]. split; [|by rewrite Hctx]. left.
      rewrite Hcalls. by apply Hfin.
Qed.

(** Both invariants hold after every run. *)
Lemma invariants_hold (evs : list event) (s : mpState) :
  run initResp size evs (start initResp) = Some s ->
  progressInv initResp s /\ callsInv initResp s.
Proof using parts_in_range.
  apply (run_invariant initResp size
           (fun s => progressInv initResp s /\ callsInv initResp s)).
  - intros ev s1 s2 [Hp Hc] Hstep. split.
    + by eapply progressInv_step.
    + by eapply callsInv_step.
  - split; [apply progressInv_start|apply callsInv_start].
Qed.
End Multipart.

(** The completion list is the list of completions, in their order. *)
Lemma parts_are_completions (initResp : InitUploadResponse) (size : Z)
    (evs : list event) :
  forall s s', run initResp size evs s = Some s' ->
               parts s' = parts s ++ completions evs.
Proof.
  induction evs as [|ev evs IH]; intros s s' Hrun.
  - cbn in Hrun. simplify_eq. by rewrite app_nil_r.
  - cbn [run] in Hrun.
    destruct (step initResp size ev s) as [s1|] eqn:H1; [|done].
    rewrite (IH _ _ Hrun). unfold completions. cbn [omap].
    fold (completions evs).
    assert (parts s1 = parts s ++ match ev with
                                  | PartDone n (Ok etag) =>
                                      [{| PartNumber := n; ETag := etag |}]
                                  | _ => []
                                  end) as ->.
    { destruct ev as [c|a|n r]; cbn [step] in H1.
      - destruct (ctx s), c; simplify_eq; by rewrite app_nil_r.
      - rewrite app_nil_r. unfold mainStep in H1.
        destruct (pc s); simplify_eq; try done.
        + unfold loopStep. repeat (case_match; try done).
        + by destruct (length (inflight s) <? concurrentParts)%nat; simplify_eq.
        + destruct (inflight s); simplify_eq. unfold finishStep.
          repeat (case_match; try done).
        + unfold deferredAbort. repeat (case_match; try done).
      - destruct (takeWorker n (inflight s)); [|done].
        destruct r; simplify_eq; [done|]. rewrite app_nil_r.
        by destruct (uploadErr s). }
    rewrite <- app_assoc. f_equal.
    destruct ev as [| |n [etag|e]]; done.
Qed.

(** C1 fails as stated: with two parts of which the second completes
    first, the list passed to [CompleteMultipart] is [2; 1]. *)
Lemma finalize_sorted_counterexample :
  exists s ps,
    uploadMultipart plan_two 15 run_out_of_order = Some s
    /\ completeCalls (calls s) = [(CallerCtx, "up-3", ps)]
    /\ map PartNumber ps = [2; 1]
    /\ ~ Sorted Z.le (map PartNumber ps).
Proof.
  exists (stateAfter plan_two 15 run_out_of_order).
  exists [{| PartNumber := 2; ETag := "etag-2" |}; {| PartNumber := 1; ETag := "etag-1" |}].
  split; [by vm_compute|]. split; [by vm_compute|]. split; [done|].
  cbn. intros H. inversion H as [|? ? _ Hhd]; subst.
  inversion Hhd as [|? ? Hle]; subst. lia.
Qed.

(** Whatever was passed to [CompleteMultipart] is the list of parts as it
    stands, which holds every part number once. *)
Lemma complete_call_args (initResp : InitUploadResponse) (size : Z)
    (evs : list event) (s : mpState) (c : callCtx) (id : string) (ps : list Part) :
  TotalParts initResp <= max_int64 - partURLBatchSize ->
  run initResp size evs (start initResp) = Some s ->
  (c, id, ps) ∈ completeCalls (calls s) ->
  ps = parts s
  /\ map PartNumber ps ≡ₚ seqZ 1 (TotalParts initResp)
  /\ c = CallerCtx /\ id = UploadID initResp.
Proof.
  intros HT Hrun Hin.
  destruct (invariants_hold initResp size HT evs s Hrun) as [_ [_ Hc]].
  assert (Hfin : exists res, finalized initResp res s).
  { destruct (pc s); try (destruct Hc as [Hc _]; rewrite Hc in Hin;
                          by apply elem_of_nil in Hin).
    - destruct Hc as [_ Hc]. by eexists.
    - destruct Hc as [Hc _]. by eexists. }
  destruct Hfin as [res [[Hnone _]|(Hone & _ & Hperm)]].
  - rewrite Hnone in Hin. by apply elem_of_nil in Hin.
  - rewrite Hone in Hin. apply list_elem_of_singleton in Hin. by simplify_eq.
Qed.

(** C1 (as the code has it). The list of completion tokens passed to
    [CompleteMultipart] holds the tokens in the order in which the part
    uploads completed, whatever that order was; it holds every part
    number from 1 to [TotalParts] exactly once.  (So it is ascending
    exactly when the parts completed in ascending order.) *)
Theorem finalize_in_completion_order (initResp : InitUploadResponse) (size : Z)
    (evs : list event) (s : mpState) (c : callCtx) (id : string) (ps : list Part) :
  TotalParts initResp <= max_int64 - partURLBatchSize ->
  uploadMultipart initResp size evs = Some s ->
  (c, id, ps) ∈ completeCalls (calls s) ->
  ps = completions evs
  /\ map PartNumber ps ≡ₚ seqZ 1 (TotalParts initResp)
  /\ c = CallerCtx /\ id = UploadID initResp.
Proof.
  intros HT Hrun Hin.
  destruct (complete_call_args initResp size evs s c id ps HT Hrun Hin)
    as (Hps & Hperm & Hc & Hid).
  pose proof (parts_are_completions initResp size evs _ _ Hrun) as Hparts.
  cbn in Hparts. split; [congruence|done].
Qed.

(** Two parts that complete in the order 2, 1. *)
Lemma finalize_in_completion_order_witness :
  [{| PartNumber := 2; ETag := "etag-2" |}; {| PartNumber := 1; ETag := "etag-1" |}]
  = completions run_out_of_order
  /\ [2; 1] ≡ₚ seqZ 1 2.
Proof.
  destruct (finalize_in_completion_order plan_two 15 run_out_of_order
              (stateAfter plan_two 15 run_out_of_order) CallerCtx "up-3"
              [{| PartNumber := 2; ETag := "etag-2" |};
               {| PartNumber := 1; ETag := "etag-1" |}])
    as (H1 & H2 & _).
  - vm_compute. discriminate.
  - vm_compute. reflexivity.
  - vm_compute. left.
  - split; [exact H1|exact H2].
Defined.



(** C7 fails as stated: a session is open, the first page of part URLs
    cannot be fetched, nobody cancels; the transfer returns its error and
    no abort call is made. *)
Lemma abort_on_failure_counterexample :
  exists s e,
    uploadMultipart plan_no_urls 15 run_url_failure = Some s
    /\ UploadID plan_no_urls <> ""
    /\ ctx s = Active
    /\ pc s = Finished (Failed e)
    /\ abortCalls (calls s) = [].
Proof.
  exists (stateAfter plan_no_urls 15 run_url_failure).
  exists (Wrapf "failed to get upload URLs" (Errorf "rate limited")).
  split; [by vm_compute|]. split; [by vm_compute|]. by vm_compute.
Qed.

(** C7 (as the code has it). The abort call is made by the deferred
    function, once, at the [return] of the transfer, and exactly when by
    then the caller's context is done and a session ID exists; it is
    given a fresh ten-second context, not the caller's, and what it
    returns does not change the result of the transfer.  A transfer that
    fails while the context is still active makes no abort call. *)
Theorem abort_when_cancelled (initResp : InitUploadResponse) (size : Z)
    (evs : list event) (s : mpState) :
  TotalParts initResp <= max_int64 - partURLBatchSize ->
  uploadMultipart initResp size evs = Some s ->
  (forall res a,
     pc s = AtReturn res ->
     exists s',
       step initResp size (Main a) s = Some s'
       /\ pc s' = Finished res
       /\ abortCalls (calls s) = []
       /\ (ctx s <> Active -> UploadID initResp <> "" ->
           calls s' = calls s
                      ++ [AbortUpload (BackgroundTimeout 10) (UploadID initResp)])
       /\ (ctx s = Active \/ UploadID initResp = "" -> calls s' = calls s))
  /\ (forall res,
        pc s = Finished res ->
        abortCalls (calls s) = []
        \/ (abortCalls (calls s) = [(BackgroundTimeout 10, UploadID initResp)]
            /\ ctx s <> Active /\ UploadID initResp <> ""))
  /\ ((forall res, pc s <> Finished res) -> abortCalls (calls s) = []).
Proof.
  intros HT Hrun.
  destruct (invariants_hold initResp size HT evs s Hrun) as [_ [_ Hc]].
  split; [|split].
  - intros res a Hpc. rewrite Hpc in Hc. destruct Hc as [Hab _].
    exists (deferredAbort initResp a res s).
    split; [cbn; unfold mainStep; by rewrite Hpc|].
    unfold deferredAbort.
    destruct (ctxErr (ctx s)) as [e|] eqn:Hctx.
    + case_decide as Hid; cbn; (split; [done|]); (split; [done|]).
      * split; [done|]. done.
      * split; [done|]. intros [Hact|Hnil]; [|done].
        rewrite Hact in Hctx. done.
    + apply ctxErr_None in Hctx. cbn. split; [done|]. split; [done|].
      split; [done|]. done.
  - intros res Hpc. rewrite Hpc in Hc. by destruct Hc.
  - intros Hnot. destruct (pc s) eqn:Hpc; try by destruct Hc.
    by destruct (Hnot res).
Qed.

(** A run cancelled while its parts are in flight. *)
Lemma abort_when_cancelled_witness :
  exists s',
    step plan_two 15 (Main all_fine) (stateAfter plan_two 15 run_cancelled_returning) = Some s'
    /\ pc s' = Finished (Failed (Errorf "upload cancelled"))
    /\ calls s' = [AbortUpload (BackgroundTimeout 10) "up-3"].
Proof.
  destruct (abort_when_cancelled plan_two 15 run_cancelled_returning
              (stateAfter plan_two 15 run_cancelled_returning)) as [H _].
  - vm_compute. discriminate.
  - vm_compute. reflexivity.
  - destruct (H (Failed (Errorf "upload cancelled")) all_fine) as (s' & H1 & H2 & _ & H4 & _).
    + vm_compute. reflexivity.
    + exists s'. split; [exact H1|]. split; [exact H2|].
      apply H4; vm_compute; discriminate.
Defined.




(** ** The batch orchestrator *)

Lemma bind_run {A B : Type} (m : M A) (f : A -> M B) (log log' : list batchEffect) (a : A) :
  m log = (Ok a, log') -> (m ≫= f) log = f a log'.
Proof. intros H. unfold mbind, M_bind. by rewrite H. Qed.

Lemma mret_run {A : Type} (a : A) (log : list batchEffect) :
  (mret a : M A) log = (Ok a, log).
Proof. done. Qed.

Lemma emit_run (c : batchEffect) (log : list batchEffect) :
  emit c log = (Ok tt, log ++ [c]).
Proof. done. Qed.

Lemma orWrap_run {A : Type} (msg : string) (a : A) (log : list batchEffect) :
  orWrap msg (Ok a) log = (Ok a, log).
Proof. done. Qed.

Lemma pagesFrom_concat {A : Type} (n : nat) :
  (0 < n)%nat ->
  forall (fuel : nat) (l : list A),
    (length l <= fuel)%nat -> concat (pagesFrom fuel n l) = l.
Proof.
  intros Hn. induction fuel as [|fuel IH]; intros l Hl.
  - destruct l; [done|simpl in Hl; lia].
  - destruct l as [|x l]; [done|]. cbn [pagesFrom concat].
    rewrite IH; [apply take_drop|].
    rewrite length_drop. simpl in *. lia.
Qed.

Lemma pages_concat {A : Type} (l : list A) : concat (pages batchSize l) = l.
Proof. apply pagesFrom_concat; [unfold batchSize; lia|done]. Qed.

Lemma Forall2_imap_rel {A B : Type} (R : A -> B -> Prop) (l : list A) :
  forall g : nat -> A -> B,
    (forall i x, R x (g i x)) -> Forall2 R l (imap g l).
Proof.
  induction l as [|x l IH]; intros g Hg; [constructor|].
  cbn [imap]. constructor; [apply Hg|]. apply IH. intros i y. apply Hg.
Qed.

Lemma noPlan_setCrc32 (c : Z) (f : fileMetadata) : noPlan (setCrc32 c f) = noPlan f.
Proof. done. Qed.

Lemma noPlan_setTransferErr (e : error) (f : fileMetadata) :
  noPlan (setTransferErr e f) = true.
Proof. done. Qed.

Lemma noPlan_afterTransfer (env : batchEnv) (f : fileMetadata) :
  noPlan (afterTransfer env f)
  = noPlan f || match transfer env f with Failed _ => true | Ok _ => false end.
Proof.
  unfold afterTransfer. destruct (noPlan f) eqn:Hn; [by rewrite Hn|].
  destruct (transfer env f); [by rewrite noPlan_setCrc32, Hn|done].
Qed.

Section Batch.
Variable env : batchEnv.

(** Nobody cancels, and every batch-level call succeeds. *)
Hypothesis never_cancelled : forall i, ctxAtFile env i = Active.
Hypothesis init_answers :
  forall page reqs, exists results, initBatch env page reqs = Ok results.
Hypothesis confirm_answers : forall page fs, confirmBatch env page fs = None.

Lemma initPages_run (ps : list (list fileMetadata)) :
  forall (page : nat) (log : list batchEffect),
    exists negotiated,
      initPages env page ps log
      = (Ok negotiated, log ++ map (fun b => InitUploadBatch (batchRequest b)) ps)
      /\ Forall2 negotiatedFrom (concat ps) negotiated.
Proof using init_answers.
  induction ps as [|batch ps IH]; intros page log.
  - exists []. cbn. rewrite app_nil_r. split; [done|constructor].
  - destruct (init_answers page (batchRequest batch)) as [results Hres].
    destruct (IH (S page) (log ++ [InitUploadBatch (batchRequest batch)]))
      as (rest & Hrest & Hrel).
    exists (storeResults results batch ++ rest). split.
    + cbn [initPages].
      rewrite (bind_run _ _ _ _ _ (emit_run _ _)).
      rewrite Hres.
      rewrite (bind_run _ _ _ _ _ (orWrap_run _ _ _)).
      rewrite (bind_run _ _ _ _ _ Hrest).
      cbn. by rewrite <- app_assoc.
    + cbn [concat]. apply Forall2_app; [|done].
      apply Forall2_imap_rel. intros i f. by exists results, i.
Qed.

Lemma uploadLoop_run (files : list fileMetadata) :
  forall (i : nat) (c : counters) (log : list batchEffect),
    0 <= uploadedCount c -> 0 <= errorCount c ->
    uploadedCount c + Z.of_nat (length files) <= max_int64 ->
    errorCount c + Z.of_nat (length files) <= max_int64 ->
    uploadLoop env i files c log
    = (Ok (map (afterTransfer env) files,
           {| uploadedCount :=
                uploadedCount c
                + Z.of_nat (length (filter (fun f => noPlan f = false)
                                           (map (afterTransfer env) files)));
              errorCount :=
                errorCount c
                + Z.of_nat (length (filter (fun f => noPlan f = true)
                                           (map (afterTransfer env) files))) |}),
       log ++ map PutFile (filter (fun f => noPlan f = false) files)).
Proof using never_cancelled.
  induction files as [|f files IH]; intros i c log Hu He Hum Hem.
  - cbn. rewrite app_nil_r, !Z.add_0_r. by destruct c.
  - cbn [uploadLoop]. rewrite never_cancelled. cbn [ctxErr].
    rewrite length_cons, Nat2Z.inj_succ in Hum, Hem.
    assert (Hadd_e : add64 (errorCount c) 1 = errorCount c + 1)
      by (apply add64_id; unfold in_int64, min_int64, max_int64 in *; lia).
    assert (Hadd_u : add64 (uploadedCount c) 1 = uploadedCount c + 1)
      by (apply add64_id; unfold in_int64, min_int64, max_int64 in *; lia).
    rewrite Hadd_e, Hadd_u.
    pose proof (IH (S i) {| uploadedCount := uploadedCount c;
                            errorCount := errorCount c + 1 |}) as IHe.
    pose proof (IH (S i) {| uploadedCount := uploadedCount c + 1;
                            errorCount := errorCount c |}) as IHu.
    cbn [uploadedCount errorCount] in IHe, IHu.
    cbn [map]. rewrite !filter_cons.
    pose proof (noPlan_afterTransfer env f) as Hafter.
    destruct (noPlan f) eqn:Hplan.
    + rewrite (bind_run _ _ _ _ _ (IHe log ltac:(lia) ltac:(lia) ltac:(lia) ltac:(lia))).
      cbn in Hafter. rewrite Hafter.
      assert (Haf : afterTransfer env f = f)
        by (unfold afterTransfer; by rewrite Hplan).
      rewrite Haf. repeat case_decide; try done.
      rewrite length_cons, Nat2Z.inj_succ. unfold mret, M_ret.
      do 4 f_equal. lia.
    + rewrite (bind_run _ _ _ _ _ (emit_run _ _)).
      cbn [map]. cbn in Hafter. rewrite Hafter.
      assert (Haf : afterTransfer env f
                    = match transfer env f with
                      | Ok crc => setCrc32 crc f
                      | Failed e => setTransferErr e f
                      end)
        by (unfold afterTransfer; by rewrite Hplan).
      rewrite Haf.
      destruct (transfer env f) as [crc|e] eqn:Htr.
      * rewrite (bind_run _ _ _ _ _ (IHu _ ltac:(lia) ltac:(lia) ltac:(lia) ltac:(lia))).
        repeat case_decide; try done.
        rewrite length_cons, Nat2Z.inj_succ. unfold mret, M_ret.
        rewrite <- app_assoc. cbn [map app].
        do 4 f_equal. lia.
      * rewrite (bind_run _ _ _ _ _ (IHe _ ltac:(lia) ltac:(lia) ltac:(lia) ltac:(lia))).
        repeat case_decide; try done.
        rewrite length_cons, Nat2Z.inj_succ. unfold mret, M_ret.
        rewrite <- app_assoc. cbn [map app].
        do 4 f_equal. lia.
Qed.

Lemma confirmPages_run (collectionID : string) (ps : list (list fileMetadata)) :
  forall (page : nat) (log : list batchEffect),
    confirmPages env collectionID page ps log
    = (Ok tt, log ++ map (fun b => ConfirmUploadBatch collectionID (confirmRequest b)) ps).
Proof using confirm_answers.
  induction ps as [|batch ps IH]; intros page log.
  - cbn. by rewrite app_nil_r.
  - cbn [confirmPages].
    rewrite (bind_run _ _ _ _ _ (emit_run _ _)).
    rewrite confirm_answers, IH. cbn. by rewrite <- app_assoc.
Qed.
End Batch.

Lemma collectMetadata_run (env : batchEnv) (paths : list string) :
  (forall p, p ∈ paths -> osOpen env p = None /\ exists sz, fileStat env p = Ok sz) ->
  forall (i : nat) (log : list batchEffect),
    exists files,
      collectMetadata env i paths log = (Ok files, log)
      /\ map f_path files = paths
      /\ Forall (fun f => f_uploadErr f = None /\ f_uploadURL f = "" /\ f_r2Key f = "") files.
Proof.
  induction paths as [|p paths IH]; intros Hok i log.
  - exists []. by repeat split.
  - destruct (Hok p ltac:(by left)) as [Hopen [sz Hstat]].
    destruct (IH ltac:(intros q Hq; apply Hok; by right) (S i) log)
      as (files & Hrun & Hpaths & Hfresh).
    eexists. cbn [collectMetadata]. rewrite Hopen, Hstat.
    rewrite (bind_run _ _ _ _ _ (orWrap_run _ _ _)).
    rewrite (bind_run _ _ _ _ _ Hrun).
    split; [reflexivity|]. split; [cbn; by rewrite Hpaths|].
    constructor; [done|done].
Qed.

Lemma transferred_batchLog (id : string) (files negotiated after : list fileMetadata)
    (tail : list batchEffect) :
  transferred tail = [] ->
  transferred (batchLog id files negotiated after ++ tail)
  = filter (fun f => noPlan f = false) negotiated.
Proof.
  intros Htail. unfold batchLog, transferred. rewrite !omap_app.
  fold (transferred tail). rewrite Htail. cbn [omap].
  assert (H1 : forall ps : list (list fileMetadata),
             omap (fun c => match c with PutFile f => Some f | _ => None end)
                  (map (fun b => InitUploadBatch (batchRequest b)) ps) = [])
    by (induction ps; done).
  assert (H2 : forall ps : list (list fileMetadata),
             omap (fun c => match c with PutFile f => Some f | _ => None end)
                  (map (fun b => ConfirmUploadBatch id (confirmRequest b)) ps) = [])
    by (induction ps; done).
  assert (H3 : forall l : list fileMetadata,
             omap (fun c => match c with PutFile f => Some f | _ => None end)
                  (map PutFile l) = l)
    by (induction l as [|x l IHl]; [done|cbn; by rewrite IHl]).
  rewrite H1, H2, H3. cbn. by rewrite !app_nil_r.
Qed.

Lemma confirmed_batchLog (id : string) (files negotiated after : list fileMetadata)
    (tail : list batchEffect) :
  confirmed tail = [] ->
  confirmed (batchLog id files negotiated after ++ tail)
  = confirmRequest (filter (fun f => confirmable f = true) after).
Proof.
  intros Htail. unfold batchLog, confirmed in *. rewrite !omap_app, !concat_app.
  rewrite Htail. cbn [omap concat].
  assert (H1 : forall ps : list (list fileMetadata),
             omap (fun c => match c with ConfirmUploadBatch _ fs => Some fs | _ => None end)
                  (map (fun b => InitUploadBatch (batchRequest b)) ps) = [])
    by (induction ps; done).
  assert (H2 : forall l : list fileMetadata,
             omap (fun c => match c with ConfirmUploadBatch _ fs => Some fs | _ => None end)
                  (map PutFile l) = [])
    by (induction l; done).
  assert (H3 : forall ps : list (list fileMetadata),
             concat (omap (fun c => match c with
                                    | ConfirmUploadBatch _ fs => Some fs
                                    | _ => None
                                    end)
                          (map (fun b => ConfirmUploadBatch id (confirmRequest b)) ps))
             = confirmRequest (concat ps)).
  { induction ps as [|b ps IHp]; [done|]. cbn. rewrite IHp.
    unfold confirmRequest. by rewrite map_app. }
  rewrite H1, H2, H3, pages_concat. cbn. by rewrite !app_nil_r.
Qed.

Lemma warnings_batchLog (id : string) (files negotiated after : list fileMetadata)
    (tail : list batchEffect) :
  warnings (batchLog id files negotiated after ++ tail) = warnings tail.
Proof.
  unfold batchLog, warnings. rewrite !omap_app. cbn [omap].
  assert (H1 : forall ps : list (list fileMetadata),
             omap (fun c => match c with PrintWarning n => Some n | _ => None end)
                  (map (fun b => InitUploadBatch (batchRequest b)) ps) = [])
    by (induction ps; done).
  assert (H2 : forall l : list fileMetadata,
             omap (fun c => match c with PrintWarning n => Some n | _ => None end)
                  (map PutFile l) = [])
    by (induction l; done).
  assert (H3 : forall ps : list (list fileMetadata),
             omap (fun c => match c with PrintWarning n => Some n | _ => None end)
                  (map (fun b => ConfirmUploadBatch id (confirmRequest b)) ps) = [])
    by (induction ps; done).
  by rewrite H1, H2, H3.
Qed.

(** When every file without a negotiation error has a plan and its
    transfer succeeds, the files with a plan, the files confirmed and
    the files without a negotiation error are the same files. *)
Lemma clean_transfers (env : batchEnv) (negotiated : list fileMetadata) :
  Forall (fun f => f_uploadErr f = None ->
                   f_uploadURL f <> "" /\ f_r2Key f <> ""
                   /\ exists crc, transfer env f = Ok crc) negotiated ->
  filter (fun f => noPlan f = false) negotiated
  = filter (fun f => f_uploadErr f = None) negotiated
  /\ map cf_R2Key (confirmRequest (filter (fun f => confirmable f = true)
                                          (map (afterTransfer env) negotiated)))
     = map f_r2Key (filter (fun f => f_uploadErr f = None) negotiated)
  /\ length (filter (fun f => noPlan f = true) (map (afterTransfer env) negotiated))
     = length (filter (fun f => f_uploadErr f <> None) negotiated).
Proof.
  induction 1 as [|f l Hf _ (IH1 & IH2 & IH3)]; [done|].
  cbn [map]. rewrite !filter_cons.
  destruct (f_uploadErr f) as [e|] eqn:Herr.
  - assert (Hplan : noPlan f = true) by (unfold noPlan; by rewrite Herr).
    assert (Haf : afterTransfer env f = f) by (unfold afterTransfer; by rewrite Hplan).
    assert (Hconf : confirmable f = false) by (unfold confirmable; by rewrite Herr).
    rewrite Haf, Hplan, Hconf.
    repeat case_decide; try done.
    cbn [length]. by rewrite IH1, IH2, IH3.
  - destruct (Hf eq_refl) as (Hurl & Hkey & crc & Htr).
    assert (Hplan : noPlan f = false).
    { unfold noPlan. rewrite Herr.
      rewrite bool_decide_eq_false_2 by (by intros H).
      by rewrite bool_decide_eq_false_2. }
    assert (Haf : afterTransfer env f = setCrc32 crc f)
      by (unfold afterTransfer; by rewrite Hplan, Htr).
    assert (Hconf : confirmable (setCrc32 crc f) = true).
    { unfold confirmable. cbn. rewrite Herr.
      rewrite bool_decide_eq_true_2 by done. by rewrite bool_decide_eq_true_2. }
    rewrite Haf, noPlan_setCrc32, Hplan, Hconf.
    repeat case_decide; try done.
    split; [by rewrite IH1|]. split; [|done].
    unfold confirmRequest in *. cbn [map cf_R2Key setCrc32 f_r2Key].
    by rewrite IH2.
Qed.



(* ===================================================================== *)
(** * Further properties of the engine *)
(* ===================================================================== *)

(** ** The retry driver, whatever happens *)

Ltac retry_cases :=
  repeat match goal with
         | |- context [match ctxErr ?c with _ => _ end] => destruct (ctxErr c) eqn:?; cbn
         | |- context [match fnResult ?e ?i with _ => _ end] => destruct (fnResult e i) eqn:?; cbn
         end.

(** X1. Whatever the operation and the context do, the driver calls the
    operation at most [maxRetries] times, in order and without gaps,
    and waits at most [maxRetries - 1] times; every call but the last
    one failed; it returns [nil] exactly when its last call succeeded;
    and an error it returns is the context's, or, after [maxRetries]
    calls, that of the last call. *)
Theorem uploadWithRetry_bounded (env : retryEnv) :
  exists k : nat,
    (k <= maxRetries)%nat
    /\ invocations (snd (uploadWithRetry env)) = seq 0 k
    /\ (length (delays (snd (uploadWithRetry env))) <= maxRetries - 1)%nat
    /\ (forall i, (S i < k)%nat -> fnResult env i <> None)
    /\ (fst (uploadWithRetry env) = None
        <-> (0 < k)%nat /\ fnResult env (k - 1) = None)
    /\ (forall e, fst (uploadWithRetry env) = Some e ->
          (exists i, (i <= k)%nat
                     /\ (ctxErr (ctxBefore env i) = Some e
                         \/ ctxErr (ctxInWait env i) = Some e))
          \/ (k = maxRetries /\ fnResult env (maxRetries - 1) = Some e)).
Proof.
  unfold uploadWithRetry, retry, maxRetries. cbn [retryLoop Nat.ltb Nat.leb Nat.sub].
  retry_cases.
  all: match goal with |- ex (fun k => _ /\ ?l = seq 0 k /\ _) => exists (length l) end.
  all: cbn [length seq Nat.sub].
  all: split; [lia|]; split; [reflexivity|]; split; [cbn; lia|].
  all: split; [intros [|[|i]] Hi; try lia; congruence|].
  all: split; [split; [intros; first [discriminate|split; [lia|assumption]]
                      |intros [Hk H]; first [lia|congruence]]|].
  all: intros e' [= <-].
  all: first [ left; eexists; split; [|left; eassumption]; lia
             | left; eexists; split; [|right; eassumption]; lia
             | right; split; reflexivity ].
Qed.

(** ** The multipart transfer: what every run keeps *)

Lemma loopStep_frame (initResp : InitUploadResponse) (size : Z) (a : answers)
    (n : Z) (s : mpState) :
  ctx (loopStep initResp size a n s) = ctx s
  /\ inflight (loopStep initResp size a n s) = inflight s
  /\ parts (loopStep initResp size a n s) = parts s
  /\ uploadErr (loopStep initResp size a n s) = uploadErr s.
Proof. unfold loopStep. repeat (case_match; try done). Qed.

Lemma finishStep_frame (initResp : InitUploadResponse) (a : answers) (s : mpState) :
  ctx (finishStep initResp a s) = ctx s
  /\ inflight (finishStep initResp a s) = inflight s
  /\ parts (finishStep initResp a s) = parts s
  /\ uploadErr (finishStep initResp a s) = uploadErr s.
Proof. unfold finishStep. repeat (case_match; try done). Qed.

Lemma deferredAbort_frame (initResp : InitUploadResponse) (a : answers)
    (res : result Z) (s : mpState) :
  pc (deferredAbort initResp a res s) = Finished res
  /\ ctx (deferredAbort initResp a res s) = ctx s
  /\ inflight (deferredAbort initResp a res s) = inflight s
  /\ parts (deferredAbort initResp a res s) = parts s
  /\ uploadErr (deferredAbort initResp a res s) = uploadErr s.
Proof. unfold deferredAbort. repeat (case_match; try done). Qed.

(** A step of the main goroutine leaves the context, the completed
    parts and the error slot alone, and changes the goroutines in flight
    only by starting the one it stands at the semaphore for. *)
Lemma mainStep_frame (initResp : InitUploadResponse) (size : Z) (a : answers)
    (s s' : mpState) :
  mainStep initResp size a s = Some s' ->
  ctx s' = ctx s /\ parts s' = parts s /\ uploadErr s' = uploadErr s
  /\ (inflight s' = inflight s
      \/ exists w, pc s = AtAcquire w
                   /\ (length (inflight s) < concurrentParts)%nat
                   /\ inflight s' = inflight s ++ [w]).
Proof.
  unfold mainStep. intros H. destruct (pc s) as [n|w| |res|res|why|] eqn:Hpc; simplify_eq.
  - destruct (loopStep_frame initResp size a n s) as (-> & -> & -> & ->). eauto.
  - destruct (length (inflight s) <? concurrentParts)%nat eqn:Hlen; simplify_eq.
    apply Nat.ltb_lt in Hlen. cbn. repeat split; try done. right. by exists w.
  - destruct (inflight s) eqn:Hin; simplify_eq.
    destruct (finishStep_frame initResp a s) as (-> & -> & -> & ->). eauto.
  - destruct (deferredAbort_frame initResp a res s) as (_ & -> & -> & -> & ->). eauto.
Qed.

Lemma takeWorker_length (n : Z) (ws rest : list worker) :
  takeWorker n ws = Some rest -> length ws = S (length rest).
Proof.
  intros H. apply takeWorker_perm in H. apply Permutation_length in H.
  rewrite length_map in H. cbn [length] in H. by rewrite length_map in H.
Qed.

Lemma run_app (initResp : InitUploadResponse) (size : Z) (evs1 evs2 : list event) :
  forall s, run initResp size (evs1 ++ evs2) s
            = run initResp size evs1 s ≫= run initResp size evs2.
Proof.
  induction evs1 as [|ev evs1 IH]; intros s; [done|].
  cbn [app run]. destruct (step initResp size ev s); [apply IH|done].
Qed.

(** X2. At no point of a multipart transfer are more than
    [concurrentParts] part goroutines in flight. *)
Theorem multipart_bounded_concurrency (initResp : InitUploadResponse) (size : Z)
    (evs : list event) (s : mpState) :
  uploadMultipart initResp size evs = Some s ->
  (length (inflight s) <= concurrentParts)%nat.
Proof.
  apply (run_invariant initResp size
           (fun s => (length (inflight s) <= concurrentParts)%nat)).
  - intros ev s1 s2 Hle Hstep. destruct ev as [c|a|n r]; cbn [step] in Hstep.
    + destruct (ctx s1), c; by simplify_eq.
    + destruct (mainStep_frame _ _ _ _ _ Hstep) as (_ & _ & _ & [->|(w & _ & Hlt & ->)]);
        [done|]. rewrite length_app. cbn. lia.
    + destruct (takeWorker n (inflight s1)) as [rest|] eqn:Htake; [|done].
      apply takeWorker_length in Htake.
      destruct r; simplify_eq; [cbn; lia|].
      destruct (uploadErr s1); cbn; lia.
  - cbn. lia.
Qed.

(** Six parts: the main goroutine comes to stand at the semaphore for
    part 5 with four parts in flight, and cannot pass it. *)
Lemma multipart_bounded_concurrency_witness :
  (length (inflight (stateAfter plan_six 60 run_four_in_flight)) <= concurrentParts)%nat
  /\ map pNum (inflight (stateAfter plan_six 60 run_four_in_flight)) = [1; 2; 3; 4]
  /\ uploadMultipart plan_six 60 (run_four_in_flight ++ [Main all_fine]) = None.
Proof.
  split; [|split; vm_compute; reflexivity].
  apply (multipart_bounded_concurrency plan_six 60 run_four_in_flight).
  vm_compute. reflexivity.
Defined.

Lemma step_uploadErr (initResp : InitUploadResponse) (size : Z) (ev : event)
    (s s' : mpState) :
  step initResp size ev s = Some s' ->
  uploadErr s'
  = match uploadErr s with
    | Some e => Some e
    | None => firstFailure [ev]
    end.
Proof.
  intros Hstep. destruct ev as [c|a|n r]; cbn [step] in Hstep.
  - destruct (ctx s), c; simplify_eq; cbn; by destruct (uploadErr s).
  - destruct (mainStep_frame _ _ _ _ _ Hstep) as (_ & _ & -> & _).
    by destruct (uploadErr s).
  - destruct (takeWorker n (inflight s)) as [rest|]; [|done].
    destruct r as [etag|e]; simplify_eq; cbn; destruct (uploadErr s) eqn:E; cbn; done.
Qed.

(** The error slot holds the error of the first part that failed. *)
Lemma uploadErr_run (initResp : InitUploadResponse) (size : Z) (evs : list event) :
  forall s s',
    run initResp size evs s = Some s' ->
    uploadErr s' = match uploadErr s with
                   | Some e => Some e
                   | None => firstFailure evs
                   end.
Proof.
  induction evs as [|ev evs IH]; intros s s' Hrun.
  - cbn in Hrun. simplify_eq. by destruct (uploadErr s').
  - cbn [run] in Hrun. destruct (step initResp size ev s) as [s1|] eqn:Hstep; [|done].
    rewrite (IH _ _ Hrun), (step_uploadErr _ _ _ _ _ Hstep).
    destruct (uploadErr s); [done|].
    unfold firstFailure. cbn [omap].
    destruct ev as [c|a|n [etag|e]]; done.
Qed.

Lemma resultInv_step (initResp : InitUploadResponse) (size : Z) (ev : event)
    (s s' : mpState) :
  resultInv s -> step initResp size ev s = Some s' -> resultInv s'.
Proof.
  intros Hinv Hstep. destruct ev as [c|a|n r]; cbn [step] in Hstep.
  - assert (s' = setCtx c s /\ c <> Active) as [-> Hc]
      by (destruct (ctx s), c; by simplify_eq).
    unfold resultInv in *. cbn.
    destruct (pc s); try done;
      (destruct Hinv as [?|(Hin & [(? & ?)|[?|?]])]; [by left|right..]; (split; [done|]);
       [left|right; left|right; right]; try done).
  - unfold mainStep in Hstep. destruct (pc s) as [k|w| |res|res|why|] eqn:Hpc; simplify_eq.
    + unfold resultInv, loopStep, isURLFailure.
      repeat (case_match; cbn in *; try done); simplify_eq; left; eauto.
    + by destruct (length (inflight s) <? concurrentParts)%nat; simplify_eq.
    + destruct (inflight s) eqn:Hin; simplify_eq.
      unfold resultInv, finishStep.
      destruct (ctxErr (ctx s)) eqn:Hctx; cbn.
      { right. split; [done|]. left. split; [|done]. by destruct (ctx s). }
      destruct (uploadErr s) eqn:Herr; cbn.
      { right. split; [done|]. right. left. eauto. }
      assert (completeCalls (calls s ++ [CompleteMultipart CallerCtx (UploadID initResp) (parts s)])
              <> []) as Hne.
      { rewrite completeCalls_snoc. by destruct (completeCalls (calls s)). }
      destruct (ansComplete a); [|destruct (ansChecksum a)]; cbn;
        right; (split; [done|]); right; right; done.
    + unfold resultInv in *. rewrite Hpc in Hinv.
      destruct (deferredAbort_frame initResp a res s) as (-> & Hc & Hi & _ & He).
      rewrite Hc, Hi, He.
      destruct Hinv as [?|(Hin & [(? & ?)|[?|(? & Hcc)]])]; [by left|right..];
        (split; [done|]); [left|right; left|right; right]; try done.
      split; [done|]. unfold deferredAbort. repeat case_match; cbn; try done.
      rewrite completeCalls_snoc. cbn. by rewrite app_nil_r.
  - destruct (takeWorker n (inflight s)) as [rest|] eqn:Htake; [|done].
    apply takeWorker_length in Htake.
    assert (pc s' = pc s) as Hpc by (destruct r; simplify_eq; [done|]; by destruct (uploadErr s)).
    unfold resultInv in *. rewrite Hpc.
    destruct (pc s); try done;
      (destruct Hinv as [?|(Hin & _)]; [by left|]; rewrite Hin in Htake; done).
Qed.

Lemma resultInv_run (initResp : InitUploadResponse) (size : Z) (evs : list event)
    (s : mpState) :
  run initResp size evs (start initResp) = Some s -> resultInv s.
Proof.
  apply (run_invariant initResp size resultInv); [|done].
  intros ev s1 s2. apply resultInv_step.
Qed.

(** X3. The error slot of a multipart transfer holds the error of the
    first part that failed, wrapped as [part N failed]; later failures
    do not replace it.  When the transfer returns with the caller's
    context still active and the part URLs could be fetched, it returns
    exactly that error; with no failed part it has called
    [CompleteMultipart]. *)
Theorem multipart_first_error (initResp : InitUploadResponse) (size : Z)
    (evs : list event) (s : mpState) :
  uploadMultipart initResp size evs = Some s ->
  uploadErr s = firstFailure evs
  /\ (forall res,
        pc s = AtReturn res \/ pc s = Finished res ->
        ctx s = Active ->
        isURLFailure res
        \/ match firstFailure evs with
           | Some e => res = Failed e
           | None => completeCalls (calls s) <> []
           end).
Proof.
  intros Hrun.
  pose proof (uploadErr_run _ _ _ _ _ Hrun) as Herr. cbn in Herr.
  split; [exact Herr|].
  intros res Hpc Hctx. pose proof (resultInv_run _ _ _ _ Hrun) as Hinv.
  unfold resultInv in Hinv.
  assert (isURLFailure res
          \/ inflight s = []
             /\ (ctx s <> Active /\ res = Failed (Errorf "upload cancelled")
                 \/ (exists e, uploadErr s = Some e /\ res = Failed e)
                 \/ uploadErr s = None /\ completeCalls (calls s) <> [])) as Hres
    by (destruct Hpc as [Hpc|Hpc]; by rewrite Hpc in Hinv).
  destruct Hres as [?|(_ & [(? & _)|[(e & He & ->)|(He & Hcc)]])]; [by left|done|right..].
  - rewrite <- Herr, He. reflexivity.
  - by rewrite <- Herr, He.
Qed.

(** Part 2 fails before part 1 does: the transfer returns the error of
    part 2. *)
Lemma multipart_first_error_witness :
  firstFailure run_two_failures = Some (Wrapf "part 2 failed" (Errorf "HTTP 500"))
  /\ uploadErr (stateAfter plan_two 15 run_two_failures) = firstFailure run_two_failures
  /\ pc (stateAfter plan_two 15 run_two_failures)
     = Finished (Failed (Wrapf "part 2 failed" (Errorf "HTTP 500"))).
Proof.
  split; [vm_compute; reflexivity|]. split; [|vm_compute; reflexivity].
  apply (multipart_first_error plan_two 15 run_two_failures).
  vm_compute. reflexivity.
Defined.

(** X4. A multipart transfer returns only when every part goroutine it
    started has ended, with one exception: when fetching part URLs
    fails it returns at once, whatever is still in flight. *)
Theorem multipart_waits_for_parts (initResp : InitUploadResponse) (size : Z)
    (evs : list event) (s : mpState) (res : result Z) :
  uploadMultipart initResp size evs = Some s ->
  pc s = AtReturn res \/ pc s = Finished res ->
  isURLFailure res \/ inflight s = [].
Proof.
  intros Hrun Hpc. pose proof (resultInv_run _ _ _ _ Hrun) as Hinv.
  unfold resultInv in Hinv.
  destruct Hpc as [Hpc|Hpc]; rewrite Hpc in Hinv;
    (destruct Hinv as [?|(? & _)]; [by left|by right]).
Qed.

(** A run that ends after its parts have ended, and one that returns on
    a URL failure while part 1 is in flight. *)
Lemma multipart_waits_for_parts_witness :
  (isURLFailure (Failed (Wrapf "part 2 failed" (Errorf "HTTP 500")))
   \/ inflight (stateAfter plan_two 15 run_two_failures) = [])
  /\ pc (stateAfter plan_partial 15 run_returns_early)
     = Finished (Failed (Wrapf "failed to get upload URLs" (Errorf "rate limited")))
  /\ map pNum (inflight (stateAfter plan_partial 15 run_returns_early)) = [1].
Proof.
  split; [|split; vm_compute; reflexivity].
  apply (multipart_waits_for_parts plan_two 15 run_two_failures).
  - vm_compute. reflexivity.
  - right. vm_compute. reflexivity.
Defined.

Lemma takeWorker_Forall (P : worker -> Prop) (n : Z) (ws rest : list worker) :
  takeWorker n ws = Some rest -> Forall P ws -> Forall P rest.
Proof.
  revert rest. induction ws as [|w ws IH]; intros rest Htake Hall; [done|].
  cbn in Htake. inversion Hall as [|? ? Hw Hws]; subst.
  destruct (pNum w =? n); [by simplify_eq|].
  destruct (takeWorker n ws) as [r|]; [|done]. simplify_eq.
  constructor; [done|]. by apply IH.
Qed.

Lemma stopping_step (initResp : InitUploadResponse) (size : Z) (ev : event)
    (s s' : mpState) :
  stopping s -> step initResp size ev s = Some s' -> stopping s'.
Proof.
  unfold stopping. intros Hstop Hstep.
  rewrite (step_uploadErr _ _ _ _ _ Hstep).
  destruct ev as [c|a|n r]; cbn [step] in Hstep.
  - left. destruct (ctx s), c; by simplify_eq.
  - destruct (mainStep_frame _ _ _ _ _ Hstep) as (-> & _).
    destruct Hstop as [?|?]; [by left|right]. by destruct (uploadErr s).
  - destruct (takeWorker n (inflight s)); [|done].
    assert (ctx s' = ctx s) as ->
      by (destruct r; simplify_eq; [done|]; by destruct (uploadErr s)).
    destruct Hstop as [?|?]; [by left|right]. by destruct (uploadErr s).
Qed.

(** With the context done or a part failed, the loop is left at its
    next test. *)
Lemma loopStep_stopping (initResp : InitUploadResponse) (size : Z) (a : answers)
    (n : Z) (s : mpState) :
  stopping s -> pc (loopStep initResp size a n s) = AtWait.
Proof.
  unfold stopping, loopStep. intros Hstop.
  destruct (n <=? TotalParts initResp); [|done].
  destruct (ctxErr (ctx s)) eqn:Hctx; [done|].
  apply ctxErr_None in Hctx.
  destruct (uploadErr s); [done|]. by destruct Hstop.
Qed.

(** X5. Once the caller's context is done or a part has failed, the loop
    starts no new part, except the one it may already be waiting at the
    semaphore for: at most one more part goroutine is started, and none
    when the main goroutine is not at the semaphore. *)
Theorem multipart_stops_launching (initResp : InitUploadResponse) (size : Z)
    (evs : list event) (s : mpState) :
  stopping s ->
  (starts initResp size evs s <= match pc s with AtAcquire _ => 1 | _ => 0 end)%nat.
Proof.
  revert s. induction evs as [|ev evs IH]; intros s Hstop; [cbn; lia|].
  cbn [starts]. destruct (step initResp size ev s) as [s'|] eqn:Hstep; [|lia].
  specialize (IH s' (stopping_step _ _ _ _ _ Hstop Hstep)).
  destruct ev as [c|a|n r].
  - assert (pc s' = pc s) as Hpc
      by (cbn [step] in Hstep; destruct (ctx s), c; by simplify_eq).
    rewrite Hpc in IH. cbn. lia.
  - cbn [step] in Hstep. unfold mainStep in Hstep.
    destruct (pc s) as [k|w| |res|res|why|] eqn:Hpc; simplify_eq.
    + rewrite (loopStep_stopping _ _ _ _ _ Hstop) in IH. cbn. lia.
    + destruct (length (inflight s) <? concurrentParts)%nat; simplify_eq.
      cbn in IH. lia.
    + destruct (inflight s); simplify_eq.
      assert (exists res, pc (finishStep initResp a s) = AtReturn res) as [res Hres]
        by (unfold finishStep; repeat case_match; cbn; eauto).
      rewrite Hres in IH. cbn. lia.
    + destruct (deferredAbort_frame initResp a res s) as (Hfin & _).
      rewrite Hfin in IH. cbn. lia.
  - assert (pc s' = pc s) as Hpc.
    { cbn [step] in Hstep. destruct (takeWorker n (inflight s)); [|done].
      destruct r; simplify_eq; [done|]. by destruct (uploadErr s). }
    rewrite Hpc in IH. destruct (pc s); cbn; lia.
Qed.

(** Part 1 fails while the main goroutine stands at the semaphore for
    part 2 of six: part 2 is still started, parts 3 to 6 never are. *)
Lemma multipart_stops_launching_witness :
  (starts plan_six 60 (replicate 6 (Main all_fine))
     (stateAfter plan_six 60 run_failure_at_semaphore) <= 1)%nat
  /\ starts plan_six 60 (replicate 6 (Main all_fine))
       (stateAfter plan_six 60 run_failure_at_semaphore) = 1%nat
  /\ map pNum (inflight (stateAfter plan_six 60
                           (run_failure_at_semaphore ++ replicate 2 (Main all_fine))))
     = [2].
Proof.
  split; [|split; vm_compute; reflexivity].
  apply (multipart_stops_launching plan_six 60 (replicate 6 (Main all_fine))
           (stateAfter plan_six 60 run_failure_at_semaphore)).
  right. vm_compute. discriminate.
Defined.

Lemma knownURLsInv_step (initResp : InitUploadResponse) (size : Z)
    (m : gmap string string) (ev : event) (s s' : mpState) :
  (forall p, 1 <= p <= TotalParts initResp -> is_Some (m !! Itoa p)) ->
  progressInv initResp s ->
  knownURLsInv initResp size m s ->
  step initResp size ev s = Some s' ->
  knownURLsInv initResp size m s'.
Proof.
  intros Hall Hprog (Hcalls & Hurls & Hfl & Hpc) Hstep.
  destruct ev as [c|a|n r]; cbn [step] in Hstep.
  - assert (s' = setCtx c s) as -> by (destruct (ctx s), c; by simplify_eq).
    done.
  - unfold mainStep in Hstep.
    destruct (pc s) as [k|w| |res|res|why|] eqn:Hk; simplify_eq.
    + unfold progressInv in Hprog. rewrite Hk in Hprog. destruct Hprog as [Hrange _].
      unfold loopStep.
      destruct (k <=? TotalParts initResp) eqn:Hle; [|done].
      apply Z.leb_le in Hle.
      destruct (ctxErr (ctx s)); [done|]. destruct (uploadErr s); [done|].
      rewrite Hurls. cbn [mbind option_bind].
      destruct (Hall k) as [url Hurl]; [lia|]. rewrite Hurl.
      repeat split; try done.
    + destruct (length (inflight s) <? concurrentParts)%nat; simplify_eq.
      repeat split; try done. cbn. apply Forall_app. split; [done|by constructor].
    + destruct (inflight s) eqn:Hin; simplify_eq.
      unfold knownURLsInv, finishStep.
      destruct (ctxErr (ctx s)); [cbn; by rewrite Hin|].
      destruct (uploadErr s); [cbn; by rewrite Hin|].
      destruct (ansComplete a); [|destruct (ansChecksum a)]; cbn;
        rewrite urlCalls_snoc, Hcalls, Hin; done.
    + unfold knownURLsInv, deferredAbort.
      destruct (ctxErr (ctx s)); [|done].
      destruct (decide (UploadID initResp = "")); [done|]. cbn.
      by rewrite urlCalls_snoc, Hcalls.
  - destruct (takeWorker n (inflight s)) as [rest|] eqn:Htake; [|done].
    pose proof (takeWorker_Forall _ _ _ _ Htake Hfl) as Hrest.
    destruct r as [etag|e]; simplify_eq; [done|].
    by destruct (uploadErr s).
Qed.

(** X6. When the plan already carries a URL for every part, the
    transfer never asks the service for part URLs, and every part
    goroutine it starts is given the URL planned for its part number,
    the offset [(N-1) * PartSize] and the length of that part. *)
Theorem multipart_known_urls (initResp : InitUploadResponse) (size : Z)
    (m : gmap string string) (evs : list event) (s : mpState) :
  TotalParts initResp <= max_int64 - partURLBatchSize ->
  InitialURLs initResp = Some m ->
  (forall p, 1 <= p <= TotalParts initResp -> is_Some (m !! Itoa p)) ->
  uploadMultipart initResp size evs = Some s ->
  urlCalls (calls s) = []
  /\ urls s = Some m
  /\ Forall (plannedWorker initResp size m) (inflight s).
Proof.
  intros Hrange Hm Hall Hrun.
  enough (progressInv initResp s /\ knownURLsInv initResp size m s) as [_ (? & ? & ? & _)]
    by done.
  revert Hrun. apply (run_invariant initResp size
           (fun s => progressInv initResp s /\ knownURLsInv initResp size m s)).
  - intros ev s1 s2 [Hp Hk] Hstep. split.
    + by eapply progressInv_step.
    + by eapply knownURLsInv_step.
  - split; [by apply progressInv_start|].
    unfold knownURLsInv. cbn. by rewrite Hm.
Qed.

(** Six parts with their URLs in the plan: four are started, each on its
    own URL, and no URL is asked for. *)
Lemma multipart_known_urls_witness :
  urlCalls (calls (stateAfter plan_six 60 run_four_in_flight)) = []
  /\ urls (stateAfter plan_six 60 run_four_in_flight) = InitialURLs plan_six
  /\ map pURL (inflight (stateAfter plan_six 60 run_four_in_flight))
     = ["https://r2/1"; "https://r2/2"; "https://r2/3"; "https://r2/4"]%string
  /\ map pOffset (inflight (stateAfter plan_six 60 run_four_in_flight)) = [0; 10; 20; 30].
Proof.
  destruct (multipart_known_urls plan_six 60
              (list_to_map (map (fun n => (Itoa n, ("https://r2/" ++ Itoa n)%string))
                                (seqZ 1 6)))
              run_four_in_flight (stateAfter plan_six 60 run_four_in_flight))
    as (H1 & H2 & _).
  - vm_compute. discriminate.
  - reflexivity.
  - intros p Hp. cbn in Hp.
    assert (p = 1 \/ p = 2 \/ p = 3 \/ p = 4 \/ p = 5 \/ p = 6) as Hcases by lia.
    destruct Hcases as [->|[->|[->|[->|[->| ->]]]]]; vm_compute; eauto.
  - vm_compute. reflexivity.
  - split; [exact H1|]. split; [exact H2|]. split; vm_compute; reflexivity.
Defined.

(** ** The batch orchestrator: how it can end *)

Lemma bind_fail {A B : Type} (m : M A) (f : A -> M B) (log log' : list batchEffect)
    (e : error) :
  m log = (Failed e, log') -> (m ≫= f) log = (Failed e, log').
Proof. intros H. unfold mbind, M_bind. by rewrite H. Qed.

(** Collecting metadata does nothing to the outside. *)
Lemma collectMetadata_log (env : batchEnv) (paths : list string) :
  forall (i : nat) (log : list batchEffect),
    collectMetadata env i paths log = (fst (collectMetadata env i paths []), log).
Proof.
  induction paths as [|p paths IH]; intros i log; [done|].
  cbn [collectMetadata]. destruct (osOpen env p); [done|].
  destruct (fileStat env p) as [sz|e]; [|done].
  unfold mbind, M_bind. cbn [orWrap]. rewrite !mret_run.
  rewrite (IH (S i) log), (IH (S i) []).
  by destruct (fst (collectMetadata env (S i) paths [])).
Qed.

Lemma initPages_log (env : batchEnv) (ps : list (list fileMetadata)) :
  forall (page : nat) (log : list batchEffect),
    initPages env page ps log
    = (fst (initPages env page ps []), log ++ snd (initPages env page ps [])).
Proof.
  induction ps as [|b ps IH]; intros page log.
  - cbn. by rewrite app_nil_r.
  - cbn [initPages]. unfold mbind, M_bind. rewrite !emit_run.
    destruct (initBatch env page (batchRequest b)) as [results|e]; cbn [orWrap].
    + rewrite !mret_run.
      rewrite (IH (S page) (log ++ _)), (IH (S page) ([] ++ _)).
      destruct (fst (initPages env (S page) ps [])); cbn;
        by rewrite <- !app_assoc.
    + done.
Qed.

Lemma initPages_cases (env : batchEnv) (ps : list (list fileMetadata)) :
  forall (page : nat),
    (exists negotiated,
        initPages env page ps [] = (Ok negotiated, initEffects ps)
        /\ forall j b, ps !! j = Some b ->
                       exists r, initBatch env (page + j) (batchRequest b) = Ok r)
    \/ (exists k b e,
           ps !! k = Some b
           /\ (forall j b', (j < k)%nat -> ps !! j = Some b' ->
                            exists r, initBatch env (page + j) (batchRequest b') = Ok r)
           /\ initBatch env (page + k) (batchRequest b) = Failed e
           /\ initPages env page ps []
              = (Failed (Wrapf "failed to init batch" e), initEffects (take (S k) ps))).
Proof.
  induction ps as [|b ps IH]; intros page.
  - left. exists []. by split.
  - cbn [initPages]. unfold mbind, M_bind. rewrite emit_run.
    destruct (initBatch env page (batchRequest b)) as [results|e] eqn:Hinit; cbn [orWrap].
    + rewrite mret_run, initPages_log.
      destruct (IH (S page)) as [(neg & Hrun & Hall)|(k & b' & e & Hk & Hbefore & Hfail & Hrun)];
        rewrite Hrun; cbn [fst snd].
      * left. exists (storeResults results b ++ neg). split; [done|].
        intros [|j] b0 Hj; cbn in Hj; simplify_eq.
        -- rewrite Nat.add_0_r. eauto.
        -- replace (page + S j)%nat with (S page + j)%nat by lia. eauto.
      * right. exists (S k), b', e. split; [done|]. split; [|split; [|done]].
        -- intros [|j] b0 Hj Hb0; cbn in Hb0; simplify_eq.
           ++ rewrite Nat.add_0_r. eauto.
           ++ replace (page + S j)%nat with (S page + j)%nat by lia.
              apply Hbefore; [lia|done].
        -- by replace (page + S k)%nat with (S page + k)%nat by lia.
    + right. exists 0%nat, b, e. split; [done|]. split; [intros; lia|].
      split; [by rewrite Nat.add_0_r|done].
Qed.

(** The transfer loop never fails: it visits files until the context is
    done, starts a transfer for every visited file with a plan, and
    leaves the other records as they are. *)
Lemma uploadLoop_general (env : batchEnv) (files : list fileMetadata) :
  forall (i : nat) (c : counters) (log : list batchEffect),
    exists c',
      uploadLoop env i files c log
      = (Ok (map (afterTransfer env) (take (visited env i files) files)
             ++ drop (visited env i files) files, c'),
         log ++ map PutFile (filter (fun f => noPlan f = false)
                                    (take (visited env i files) files))).
Proof.
  induction files as [|f files IH]; intros i c log.
  - exists c. cbn. by rewrite app_nil_r.
  - cbn [uploadLoop visited].
    destruct (ctxErr (ctxAtFile env i)) eqn:Hctx.
    + exists c. cbn. by rewrite app_nil_r.
    + cbn [take drop map app]. rewrite filter_cons. unfold afterTransfer at 1.
      destruct (noPlan f) eqn:Hplan.
      * destruct (IH (S i) {| uploadedCount := uploadedCount c;
                              errorCount := add64 (errorCount c) 1 |} log)
          as [c' Hrun].
        exists c'. unfold mbind, M_bind. rewrite Hrun, mret_run.
        by rewrite decide_False by done.
      * rewrite decide_True by done. unfold mbind, M_bind. rewrite emit_run.
        destruct (transfer env f) as [crc|e].
        -- destruct (IH (S i) {| uploadedCount := add64 (uploadedCount c) 1;
                                 errorCount := errorCount c |} (log ++ [PutFile f]))
             as [c' Hrun].
           exists c'. rewrite Hrun, mret_run. cbn. by rewrite <- app_assoc.
        -- destruct (IH (S i) {| uploadedCount := uploadedCount c;
                                 errorCount := add64 (errorCount c) 1 |}
                        (log ++ [PutFile f]))
             as [c' Hrun].
           exists c'. rewrite Hrun, mret_run. cbn. by rewrite <- app_assoc.
Qed.

Lemma confirmPages_cases (env : batchEnv) (collectionID : string)
    (ps : list (list fileMetadata)) :
  forall (page : nat) (log : list batchEffect),
    (confirmPages env collectionID page ps log
     = (Ok tt, log ++ confirmEffects collectionID ps)
     /\ forall j b, ps !! j = Some b ->
                    confirmBatch env (page + j) (confirmRequest b) = None)
    \/ (exists k b e,
           ps !! k = Some b
           /\ (forall j b', (j < k)%nat -> ps !! j = Some b' ->
                            confirmBatch env (page + j) (confirmRequest b') = None)
           /\ confirmBatch env (page + k) (confirmRequest b) = Some e
           /\ confirmPages env collectionID page ps log
              = (Failed (Wrapf "failed to confirm batch" e),
                 log ++ confirmEffects collectionID (take (S k) ps))).
Proof.
  induction ps as [|b ps IH]; intros page log.
  - left. cbn. by rewrite app_nil_r.
  - cbn [confirmPages]. unfold mbind, M_bind. rewrite emit_run.
    destruct (confirmBatch env page (confirmRequest b)) as [e|] eqn:Hc.
    + right. exists 0%nat, b, e. split; [done|]. split; [intros; lia|].
      split; [by rewrite Nat.add_0_r|done].
    + destruct (IH (S page) (log ++ [ConfirmUploadBatch collectionID (confirmRequest b)]))
        as [(Hrun & Hall)|(k & b' & e & Hk & Hbefore & Hfail & Hrun)]; rewrite Hrun.
      * left. split; [cbn; by rewrite <- app_assoc|].
        intros [|j] b0 Hj; cbn in Hj; simplify_eq.
        -- by rewrite Nat.add_0_r.
        -- replace (page + S j)%nat with (S page + j)%nat by lia. eauto.
      * right. exists (S k), b', e. split; [done|]. split; [|split].
        -- intros [|j] b0 Hj Hb0; cbn in Hb0; simplify_eq.
           ++ by rewrite Nat.add_0_r.
           ++ replace (page + S j)%nat with (S page + j)%nat by lia.
              apply Hbefore; [lia|done].
        -- by replace (page + S k)%nat with (S page + k)%nat by lia.
        -- cbn. by rewrite <- app_assoc.
Qed.

(** Every batch upload ends in one of the six ways of [batchOutcome]. *)
Lemma uploadFilesBatch_outcome (env : batchEnv) (paths : list string) :
  batchOutcome env paths (fst (uploadFilesBatch env paths))
                         (snd (uploadFilesBatch env paths)).
Proof.
  assert (uploadFilesBatch env paths
          = match fst (collectMetadata env 0 paths []) with
            | Ok files => uploadCollected env files []
            | Failed e => (Failed e, [])
            end) as ->.
  { unfold uploadFilesBatch. unfold mbind at 1. unfold M_bind at 1.
    by rewrite collectMetadata_log. }
  destruct (fst (collectMetadata env 0 paths [])) as [files|e] eqn:Hfiles;
    [|by apply ExitMetadata].
  unfold uploadCollected, mbind, M_bind. rewrite emit_run. cbn [app].
  destruct (createCollection env (Z.of_nat (length files))) as [coll|e] eqn:Hcoll;
    cbn [orWrap]; [|by eapply ExitCreate].
  rewrite mret_run, initPages_log.
  destruct (initPages_cases env (pages batchSize files) 0)
    as [(neg & Hinit & Hall)|(k & b & e & Hk & Hbefore & Hfail & Hinit)];
    rewrite Hinit; cbn [fst snd app].
  2: { by eapply ExitInit. }
  destruct (uploadLoop_general env neg 0 {| uploadedCount := 0; errorCount := 0 |}
              (CreateCollection (Z.of_nat (length files))
               :: initEffects (pages batchSize files)))
    as [c Hloop].
  rewrite Hloop. fold (afterLoop env neg). fold (putEffects env neg).
  fold (confirmPagesOf env neg).
  destruct (confirmPages_cases env (ci_ID coll) (confirmPagesOf env neg) 0
              ((CreateCollection (Z.of_nat (length files))
                :: initEffects (pages batchSize files)) ++ putEffects env neg))
    as [(Hconf & Hcall)|(k & b & e & Hk & Hbefore & Hfail & Hconf)];
    rewrite Hconf; cbn [fst snd].
  2: { rewrite <- app_assoc. cbn [app].
       eapply ExitConfirm; try done. by rewrite Hinit. }
  assert (pagesConfirmed (fun j p => confirmBatch env j (confirmRequest p))
                         (confirmPagesOf env neg) (length (confirmPagesOf env neg)))
    as Hpc by (intros j r _ Hr; by apply (Hcall j r)).
  rewrite emit_run.
  destruct (markReady env (ci_ID coll)) as [ready|e] eqn:Hready; cbn [orWrap fst snd].
  - rewrite mret_run.
    replace (snd _) with
      (CreateCollection (Z.of_nat (length files))
       :: initEffects (pages batchSize files)
       ++ putEffects env neg
       ++ confirmEffects (ci_ID coll) (confirmPagesOf env neg)
       ++ MarkCollectionReady (ci_ID coll)
       :: (if 0 <? errorCount c then [PrintWarning (errorCount c)] else [])).
    2: { destruct (0 <? errorCount c); cbn; rewrite <- !app_assoc; reflexivity. }
    replace (fst _) with (Ok (A := Result) {| Collection := Some ready; IsCollection := true |})
      by (by destruct (0 <? errorCount c)).
    eapply ExitOk; try done. by rewrite Hinit.
  - rewrite <- !app_assoc. cbn [app].
    eapply ExitReady; try done. by rewrite Hinit.
Qed.

Lemma pagesFrom_sized {A : Type} (n : nat) :
  (0 < n)%nat ->
  forall (fuel : nat) (l : list A),
    Forall (fun p => (1 <= length p <= n)%nat) (pagesFrom fuel n l).
Proof.
  intros Hn. induction fuel as [|fuel IH]; intros l; [constructor|].
  destruct l as [|x l]; [constructor|]. cbn [pagesFrom].
  constructor; [|apply IH].
  rewrite length_take. cbn [length]. lia.
Qed.

Lemma pages_sized {A : Type} (l : list A) :
  Forall (fun p => (1 <= length p <= batchSize)%nat) (pages batchSize l).
Proof. apply pagesFrom_sized. unfold batchSize. lia. Qed.

Lemma initEffects_sized (ps : list (list fileMetadata)) :
  Forall (fun p => (1 <= length p <= batchSize)%nat) ps ->
  Forall pageSized (initEffects ps).
Proof.
  intros H. unfold initEffects. apply Forall_map. eapply Forall_impl; [exact H|].
  intros p Hp. cbn. unfold batchRequest. by rewrite length_map.
Qed.

Lemma confirmEffects_sized (id : string) (ps : list (list fileMetadata)) :
  Forall (fun p => (1 <= length p <= batchSize)%nat) ps ->
  Forall pageSized (confirmEffects id ps).
Proof.
  intros H. unfold confirmEffects. apply Forall_map. eapply Forall_impl; [exact H|].
  intros p Hp. cbn. unfold confirmRequest. by rewrite length_map.
Qed.

Lemma putEffects_sized (env : batchEnv) (files : list fileMetadata) :
  Forall pageSized (putEffects env files).
Proof. unfold putEffects. apply Forall_map. by apply Forall_true. Qed.

(** X7. No batch call of a batch upload is empty or carries more than
    [batchSize] files: every [InitUploadBatch] and every
    [ConfirmUploadBatch] request lists between 1 and 250 files,
    however many files there are and however the upload ends. *)
Theorem batch_page_sizes (env : batchEnv) (paths : list string) :
  Forall pageSized (snd (uploadFilesBatch env paths)).
Proof.
  destruct (uploadFilesBatch_outcome env paths); repeat first
    [ apply Forall_nil_2
    | apply Forall_cons; split; [exact I|]
    | apply Forall_app; split
    | apply putEffects_sized
    | apply initEffects_sized; first [apply pages_sized | apply Forall_take, pages_sized]
    | apply confirmEffects_sized; first [apply pages_sized | apply Forall_take, pages_sized]
    | by destruct (0 <? errors); repeat constructor ].
Qed.

Lemma StronglySorted_append {A : Type} (R : A -> A -> Prop) (l1 l2 : list A) :
  StronglySorted R l1 -> StronglySorted R l2 ->
  (forall x y, x ∈ l1 -> y ∈ l2 -> R x y) ->
  StronglySorted R (l1 ++ l2).
Proof.
  induction 1 as [|x l1 Hs IH Hx]; intros H2 Hcross; [done|].
  cbn. constructor.
  - apply IH; [done|]. intros y z Hy Hz. apply Hcross; [by right|done].
  - apply Forall_app. split; [done|].
    apply Forall_forall. intros z Hz. apply Hcross; [by left|done].
Qed.

Lemma same_stage_sorted (k : nat) (l : list batchEffect) :
  (1 <= k <= 3)%nat -> Forall (fun c => stage c = k) l -> StronglySorted inOrder l.
Proof.
  intros Hk. induction 1 as [|c l Hc Hl IH]; constructor; [done|].
  eapply Forall_impl; [exact Hl|]. intros c' Hc'. cbn beta in Hc'. right. lia.
Qed.

Lemma initEffects_stage (ps : list (list fileMetadata)) :
  Forall (fun c => stage c = 1%nat) (initEffects ps).
Proof. unfold initEffects. apply Forall_map. by apply Forall_true. Qed.

Lemma putEffects_stage (env : batchEnv) (files : list fileMetadata) :
  Forall (fun c => stage c = 2%nat) (putEffects env files).
Proof. unfold putEffects. apply Forall_map. by apply Forall_true. Qed.

Lemma confirmEffects_stage (id : string) (ps : list (list fileMetadata)) :
  Forall (fun c => stage c = 3%nat) (confirmEffects id ps).
Proof. unfold confirmEffects. apply Forall_map. by apply Forall_true. Qed.

(** Effects that come stage after stage are in order. *)
Lemma staged_sorted (n : Z) (inits puts confirms tail : list batchEffect) :
  Forall (fun c => stage c = 1%nat) inits ->
  Forall (fun c => stage c = 2%nat) puts ->
  Forall (fun c => stage c = 3%nat) confirms ->
  (tail = [] \/ (exists id, tail = [MarkCollectionReady id])
   \/ exists id k, tail = [MarkCollectionReady id; PrintWarning k]) ->
  StronglySorted inOrder (CreateCollection n :: inits ++ puts ++ confirms ++ tail).
Proof.
  intros Hi Hp Hc Ht.
  assert (StronglySorted inOrder tail /\ Forall (fun c => (4 <= stage c)%nat) tail)
    as [Hts Htf].
  { destruct Ht as [->|[[id ->]|(id & k & ->)]]; split; repeat constructor;
      try (left; cbn; lia). }
  assert (StronglySorted inOrder inits) as Hsi by (by eapply (same_stage_sorted 1); [lia|]).
  assert (StronglySorted inOrder puts) as Hsp by (by eapply (same_stage_sorted 2); [lia|]).
  assert (StronglySorted inOrder confirms) as Hsc
    by (by eapply (same_stage_sorted 3); [lia|]).
  rewrite Forall_forall in Hi, Hp, Hc, Htf.
  constructor.
  - apply StronglySorted_append; [done| |].
    + apply StronglySorted_append; [done| |].
      * apply StronglySorted_append; [done|done|].
        intros x y Hx Hy. left. rewrite (Hc x Hx). specialize (Htf y Hy). cbn in Htf. lia.
      * intros x y Hx Hy. rewrite elem_of_app in Hy. destruct Hy as [Hy|Hy].
        -- left. rewrite (Hp x Hx), (Hc y Hy). lia.
        -- left. rewrite (Hp x Hx). specialize (Htf y Hy). cbn in Htf. lia.
    + intros x y Hx Hy. rewrite !elem_of_app in Hy. destruct Hy as [Hy|[Hy|Hy]].
      * left. rewrite (Hi x Hx), (Hp y Hy). lia.
      * left. rewrite (Hi x Hx), (Hc y Hy). lia.
      * left. rewrite (Hi x Hx). specialize (Htf y Hy). cbn in Htf. lia.
  - apply Forall_forall. intros y Hy. rewrite !elem_of_app in Hy.
    destruct Hy as [Hy|[Hy|[Hy|Hy]]]; left; cbn.
    + rewrite (Hi y Hy). lia.
    + rewrite (Hp y Hy). lia.
    + rewrite (Hc y Hy). lia.
    + specialize (Htf y Hy). cbn in Htf. lia.
Qed.

(** X8. A batch upload works stage by stage, however it ends: the
    collection is created first and once; then come the negotiation
    calls; no transfer starts before the last negotiation call; no
    confirmation call is made before the last transfer was started; the
    collection is marked ready after the last confirmation call, once;
    and the warning, if any, comes last. *)
Theorem batch_stage_order (env : batchEnv) (paths : list string) :
  StronglySorted inOrder (snd (uploadFilesBatch env paths)).
Proof.
  destruct (uploadFilesBatch_outcome env paths) as
    [e He|files e Hf Hc|files coll k b e Hf Hc Hk Hb He
    |files neg coll k b e Hf Hc Hn Hk Hb He|files neg coll e Hf Hc Hn Hb He
    |files neg coll ready errors Hf Hc Hn Hb Hr].
  - constructor.
  - by repeat constructor.
  - rewrite <- (app_nil_r (initEffects _)).
    change [] with ([] ++ [] ++ @nil batchEffect).
    apply staged_sorted; try done; [apply initEffects_stage|by left].
  - rewrite <- (app_nil_r (confirmEffects _ _)).
    apply staged_sorted;
      [apply initEffects_stage|apply putEffects_stage|apply confirmEffects_stage|by left].
  - apply staged_sorted;
      [apply initEffects_stage|apply putEffects_stage|apply confirmEffects_stage|].
    right. left. eauto.
  - apply staged_sorted;
      [apply initEffects_stage|apply putEffects_stage|apply confirmEffects_stage|].
    destruct (0 <? errors); [right; right; eauto|right; left; eauto].
Qed.

Lemma stage_elem (k : nat) (l : list batchEffect) (c : batchEffect) :
  Forall (fun c => stage c = k) l -> c ∈ l -> stage c = k.
Proof. rewrite Forall_forall. auto. Qed.

Ltac wrong_stage :=
  match goal with
  | H : _ ∈ initEffects _ |- _ => apply (stage_elem _ _ _ (initEffects_stage _)) in H
  | H : _ ∈ putEffects _ _ |- _ => apply (stage_elem _ _ _ (putEffects_stage _ _)) in H
  | H : _ ∈ confirmEffects _ _ |- _ => apply (stage_elem _ _ _ (confirmEffects_stage _ _)) in H
  | H : _ ∈ [] |- _ => by apply elem_of_nil in H
  | H : _ ∈ [_] |- _ => apply list_elem_of_singleton in H
  end; try discriminate.

(** Metadata is collected path by path; the first path that cannot be
    opened or examined ends the collection. *)
Lemma collectMetadata_stops (env : batchEnv) (good rest : list string) (p : string)
    (e : error) :
  (forall q, q ∈ good -> osOpen env q = None /\ exists sz, fileStat env q = Ok sz) ->
  forall i : nat,
    (osOpen env p = Some e ->
     fst (collectMetadata env i (good ++ p :: rest) [])
     = Failed (Wrapf ("cannot open " ++ p) e))
    /\ (osOpen env p = None -> fileStat env p = Failed e ->
        fst (collectMetadata env i (good ++ p :: rest) [])
        = Failed (Wrapf ("cannot stat " ++ p) e)).
Proof.
  induction good as [|q good IH]; intros Hgood i.
  - cbn [app collectMetadata]. split.
    + by intros ->.
    + by intros -> ->.
  - destruct (Hgood q) as [Hopen [sz Hstat]]; [by left|].
    destruct (IH (fun q' Hq' => Hgood q' (list_elem_of_further _ _ _ Hq')) (S i)) as [IH1 IH2].
    cbn [app collectMetadata]. rewrite Hopen, Hstat.
    unfold mbind, M_bind. cbn [orWrap]. rewrite mret_run, collectMetadata_log.
    split.
    + intros Hp. by rewrite (IH1 Hp).
    + intros Hp Hs. by rewrite (IH2 Hp Hs).
Qed.

Lemma uploadFilesBatch_collect (env : batchEnv) (paths : list string) :
  uploadFilesBatch env paths
  = match fst (collectMetadata env 0 paths []) with
    | Ok files => uploadCollected env files []
    | Failed e => (Failed e, [])
    end.
Proof.
  unfold uploadFilesBatch. unfold mbind at 1. unfold M_bind at 1.
  by rewrite collectMetadata_log.
Qed.

(** X9. When one of the files of a batch cannot be opened or examined,
    the batch upload fails with an error that names the first such
    file, and nothing at all has been sent to the service: no
    collection is created and no file is negotiated or transferred. *)
Theorem batch_local_failure (env : batchEnv) (good rest : list string) (p : string)
    (e : error) :
  (forall q, q ∈ good -> osOpen env q = None /\ exists sz, fileStat env q = Ok sz) ->
  (osOpen env p = Some e ->
   uploadFilesBatch env (good ++ p :: rest)
   = (Failed (Wrapf ("cannot open " ++ p) e), []))
  /\ (osOpen env p = None -> fileStat env p = Failed e ->
      uploadFilesBatch env (good ++ p :: rest)
      = (Failed (Wrapf ("cannot stat " ++ p) e), [])).
Proof.
  intros Hgood. destruct (collectMetadata_stops env good rest p e Hgood 0) as [H1 H2].
  rewrite uploadFilesBatch_collect.
  split.
  - intros Hp. by rewrite (H1 Hp).
  - intros Hp Hs. by rewrite (H2 Hp Hs).
Qed.

(** The third of ten files is unreadable: nothing is sent. *)
Lemma batch_local_failure_witness :
  uploadFilesBatch env_unreadable_third ten_paths
  = (Failed (Wrapf "cannot open file-3" (Errorf "open file-3: permission denied")), []).
Proof.
  apply (batch_local_failure env_unreadable_third ["file-1"; "file-2"]%string
           (map (fun i => ("file-" ++ Itoa i)%string) (seqZ 4 7)) "file-3"
           (Errorf "open file-3: permission denied")).
  - intros q Hq. split; [|by exists 5].
    apply elem_of_cons in Hq as [->|Hq]; [done|].
    by apply list_elem_of_singleton in Hq as ->.
  - reflexivity.
Defined.

Lemma negotiated_answered (env : batchEnv) (files negotiated : list fileMetadata) :
  fst (initPages env 0 (pages batchSize files) []) = Ok negotiated ->
  pagesAnswered (fun j p => initBatch env j (batchRequest p)) (pages batchSize files)
                (length (pages batchSize files)).
Proof.
  intros Hn j r _ Hr.
  destruct (initPages_cases env (pages batchSize files) 0)
    as [(neg & Hinit & Hall)|(k & b & e & _ & _ & _ & Hinit)];
    rewrite Hinit in Hn; [|done].
  by apply (Hall j r).
Qed.

(** X10. A batch upload returns a result only when every call of the
    batch as a whole succeeded: the collection was created, every
    negotiation page and every confirmation page was answered without
    error, and the collection was marked ready.  The result is then the
    collection the service answered with last, flagged as a collection.
    The warning about failed files is printed only in that case. *)
Theorem batch_success_means (env : batchEnv) (paths : list string) :
  (forall r, fst (uploadFilesBatch env paths) = Ok r ->
     exists files negotiated coll ready,
       r = {| Collection := Some ready; IsCollection := true |}
       /\ fst (collectMetadata env 0 paths []) = Ok files
       /\ createCollection env (Z.of_nat (length files)) = Ok coll
       /\ fst (initPages env 0 (pages batchSize files) []) = Ok negotiated
       /\ pagesAnswered (fun j p => initBatch env j (batchRequest p))
                        (pages batchSize files) (length (pages batchSize files))
       /\ pagesConfirmed (fun j p => confirmBatch env j (confirmRequest p))
                         (confirmPagesOf env negotiated)
                         (length (confirmPagesOf env negotiated))
       /\ markReady env (ci_ID coll) = Ok ready
       /\ MarkCollectionReady (ci_ID coll) ∈ snd (uploadFilesBatch env paths))
  /\ (forall n, PrintWarning n ∈ snd (uploadFilesBatch env paths) ->
        exists r, fst (uploadFilesBatch env paths) = Ok r).
Proof.
  destruct (uploadFilesBatch_outcome env paths) as
    [e He|files e Hf Hc|files coll k b e Hf Hc Hk Hb He
    |files neg coll k b e Hf Hc Hn Hk Hb He|files neg coll e Hf Hc Hn Hb He
    |files neg coll ready errors Hf Hc Hn Hb Hr].
  all: split; [intros r Hr'; try discriminate|intros n Hin].
  6: { exists files, neg, coll, ready. simplify_eq.
       repeat split; try done; [by eapply negotiated_answered|].
       rewrite elem_of_cons, !elem_of_app, elem_of_cons. auto 10. }
  6: { by eexists. }
  all: exfalso.
  all: repeat first [ apply elem_of_cons in Hin as [Hin|Hin]; [discriminate|]
                    | apply elem_of_app in Hin as [Hin|Hin]
                    | wrong_stage ].
Qed.

Lemma collectMetadata_index (env : batchEnv) (paths : list string) :
  forall (i : nat) (files : list fileMetadata),
    fst (collectMetadata env i paths []) = Ok files ->
    forall p f, files !! p = Some f -> f_index f = Z.of_nat (i + p).
Proof.
  induction paths as [|q paths IH]; intros i files Hfiles p f Hp.
  - cbn in Hfiles. by simplify_eq.
  - cbn [collectMetadata] in Hfiles. destruct (osOpen env q); [done|].
    destruct (fileStat env q) as [sz|e]; [|done].
    unfold mbind, M_bind in Hfiles. cbn [orWrap] in Hfiles.
    rewrite mret_run, collectMetadata_log in Hfiles.
    destruct (fst (collectMetadata env (S i) paths [])) as [fs|e] eqn:Hfs; [|done].
    cbn in Hfiles. simplify_eq. destruct p as [|p]; cbn in Hp; simplify_eq.
    + cbn. f_equal. lia.
    + rewrite (IH (S i) fs Hfs p f Hp). f_equal. lia.
Qed.

Lemma storeResult_index (results : gmap string InitBatchResult) (i : nat)
    (f : fileMetadata) :
  f_index (storeResult results i f) = f_index f.
Proof. unfold storeResult. by repeat case_match. Qed.

Lemma imap_index (g : nat -> fileMetadata -> fileMetadata)
    (b : list fileMetadata) :
  (forall i f, f_index (g i f) = f_index f) ->
  map f_index (imap g b) = map f_index b.
Proof.
  revert g. induction b as [|f b IH]; intros g Hg; [done|].
  cbn. rewrite Hg. f_equal. apply IH. intros i f'. apply Hg.
Qed.

Lemma initPages_index (env : batchEnv) (ps : list (list fileMetadata)) :
  forall (page : nat) (negotiated : list fileMetadata),
    fst (initPages env page ps []) = Ok negotiated ->
    map f_index negotiated = map f_index (concat ps).
Proof.
  induction ps as [|b ps IH]; intros page neg Hneg.
  - cbn in Hneg. by simplify_eq.
  - cbn [initPages] in Hneg. unfold mbind, M_bind in Hneg. rewrite emit_run in Hneg.
    destruct (initBatch env page (batchRequest b)) as [results|e]; cbn [orWrap] in Hneg;
      [|done].
    rewrite mret_run, initPages_log in Hneg.
    destruct (fst (initPages env (S page) ps [])) as [fs|e] eqn:Hfs; [|done].
    cbn in Hneg. simplify_eq. cbn [concat]. rewrite !map_app. f_equal.
    + apply imap_index. intros i f. apply storeResult_index.
    + by apply (IH (S page)).
Qed.

(** A done context at iteration [i + d] bounds the files visited from
    iteration [i] on. *)
Lemma visited_le (env : batchEnv) (files : list fileMetadata) :
  forall i d : nat,
    ctxAtFile env (i + d) <> Active -> (visited env i files <= d)%nat.
Proof.
  induction files as [|f files IH]; intros i d Hd; [cbn; lia|].
  cbn [visited]. destruct (ctxErr (ctxAtFile env i)) eqn:Hctx; [lia|].
  apply ctxErr_None in Hctx. destruct d as [|d].
  - rewrite Nat.add_0_r in Hd. done.
  - specialize (IH (S i) d). rewrite <- Nat.add_succ_comm in Hd.
    specialize (IH Hd). lia.
Qed.

(** X11. Once the caller's context is found done at the top of the
    transfer loop, the batch starts no further transfer: if it is done
    at iteration [j], only files at positions before [j] are ever
    transferred. *)
Theorem batch_cancellation (env : batchEnv) (paths : list string) (j : nat)
    (f : fileMetadata) :
  ctxAtFile env j <> Active ->
  PutFile f ∈ snd (uploadFilesBatch env paths) ->
  0 <= f_index f < Z.of_nat j.
Proof.
  intros Hj Hin.
  assert (exists files neg,
             fst (collectMetadata env 0 paths []) = Ok files
             /\ fst (initPages env 0 (pages batchSize files) []) = Ok neg
             /\ PutFile f ∈ putEffects env neg) as (files & neg & Hf & Hn & Hput).
  { destruct (uploadFilesBatch_outcome env paths) as
      [e He|files e Hf Hc|files coll k b e Hf Hc Hk Hb He
      |files neg coll k b e Hf Hc Hn Hk Hb He|files neg coll e Hf Hc Hn Hb He
      |files neg coll ready errors Hf Hc Hn Hb Hr].
    1-3: exfalso.
    4-6: exists files, neg; split; [done|]; split; [done|].
    all: repeat first [ assumption
                      | apply elem_of_cons in Hin as [Hin|Hin]; [discriminate|]
                      | apply elem_of_app in Hin as [Hin|Hin]
                      | wrong_stage
                      | by destruct (0 <? errors); wrong_stage ]. }
  unfold putEffects in Hput. apply list_elem_of_fmap in Hput as (f' & [= <-] & Hf').
  apply list_elem_of_filter in Hf' as [_ Hf'].
  apply elem_of_take in Hf' as (p & Hp & Hlt).
  pose proof (visited_le env neg 0 j Hj) as Hv.
  assert (f_index f = Z.of_nat p) as ->; [|lia].
  pose proof (initPages_index _ _ _ _ Hn) as Hidx. rewrite pages_concat in Hidx.
  assert (map f_index neg !! p = Some (f_index f)) as Hnp
    by (by rewrite list_lookup_fmap, Hp).
  rewrite Hidx, list_lookup_fmap in Hnp.
  destruct (files !! p) as [f0|] eqn:Hf0; [|done]. cbn in Hnp. simplify_eq.
  rewrite <- Hnp. by apply (collectMetadata_index env paths 0 files Hf p f0).
Qed.

(** The caller cancels before the fifth of ten files: only the first
    four are transferred. *)
Lemma batch_cancellation_witness :
  0 <= f_index fourth_file < 4
  /\ map f_path (transferred (snd (uploadFilesBatch env_cancelled_at_fifth ten_paths)))
     = ["file-1"; "file-2"; "file-3"; "file-4"]%string.
Proof.
  split; [|vm_compute; reflexivity].
  apply (batch_cancellation env_cancelled_at_fifth ten_paths 4 fourth_file).
  - discriminate.
  - apply (list_elem_of_lookup_2 _ 5). vm_compute. reflexivity.
Defined.

(** ** One HTTP PUT under the retry driver *)

(** The attempts the driver makes are attempts [0] to [k-1] for some
    [k <= maxRetries]; all but the last failed; the driver returns [nil]
    exactly when the last succeeded. *)
Lemma retry_attempts (env : retryEnv) :
  exists k : nat,
    (k <= maxRetries)%nat
    /\ invocations (snd (uploadWithRetry env)) = seq 0 k
    /\ (forall i, (S i < k)%nat -> fnResult env i <> None)
    /\ (fst (uploadWithRetry env) = None -> (0 < k)%nat /\ fnResult env (k - 1) = None)
    /\ (fst (uploadWithRetry env) <> None ->
        forall i, (i < k)%nat -> fnResult env i <> None).
Proof.
  unfold uploadWithRetry, retry, maxRetries. cbn [retryLoop Nat.ltb Nat.leb Nat.sub].
  retry_cases.
  all: match goal with |- ex (fun k => _ /\ ?l = seq 0 k /\ _) => exists (length l) end.
  all: cbn [length seq Nat.sub].
  all: split; [lia|]; split; [reflexivity|].
  all: split; [intros [|[|i]] Hi; try lia; congruence|].
  all: split; [intros; first [discriminate|split; [lia|assumption]]|].
  all: intros Hne [|[|[|i]]] Hi; try lia; congruence.
Qed.

Lemma seq_snoc (k : nat) : seq 0 (S k) = seq 0 k ++ [k].
Proof. by rewrite seq_S. Qed.

Lemma trimLeftByte_first (s : string) (c : ascii) :
  firstByte (trimLeftByte s c) <> Some c.
Proof.
  induction s as [|a s IH]; [done|]. cbn [trimLeftByte].
  destruct (Ascii.eqb a c) eqn:Hac; [done|].
  cbn. intros [= ->]. by rewrite Ascii.eqb_refl in Hac.
Qed.

Lemma trimRightByte_last (s : string) (c : ascii) :
  lastByte (trimRightByte s c) <> Some c.
Proof.
  induction s as [|a s IH]; [done|]. cbn [trimRightByte].
  destruct (trimRightByte s c) as [|b r] eqn:Hr.
  - destruct (Ascii.eqb a c) eqn:Hac; [done|].
    cbn. intros [= ->]. by rewrite Ascii.eqb_refl in Hac.
  - done.
Qed.

Lemma trimLeftByte_last (s : string) (c : ascii) :
  lastByte s <> Some c -> lastByte (trimLeftByte s c) <> Some c.
Proof.
  induction s as [|a s IH]; [done|]. intros Hlast. cbn [trimLeftByte].
  destruct (Ascii.eqb a c) eqn:Hac; [|done].
  apply IH. destruct s; [done|]. exact Hlast.
Qed.

(** What [Trim] returns neither starts nor ends with the byte. *)
Lemma Trim_clean (s : string) (c : ascii) :
  firstByte (Trim s c) <> Some c /\ lastByte (Trim s c) <> Some c.
Proof.
  unfold Trim. split; [apply trimLeftByte_first|].
  apply trimLeftByte_last, trimRightByte_last.
Qed.

Lemma trimRightByte_clean (s : string) (c : ascii) :
  lastByte s <> Some c -> trimRightByte s c = s.
Proof.
  induction s as [|a s IH]; [done|]. intros Hlast.
  destruct s as [|b s].
  - cbn. destruct (Ascii.eqb a c) eqn:Hac; [|done].
    apply Ascii.eqb_eq in Hac. subst. by destruct Hlast.
  - change (trimRightByte (String a (String b s)) c)
      with (match trimRightByte (String b s) c with
            | EmptyString => if Ascii.eqb a c then EmptyString else String a EmptyString
            | r => String a r
            end).
    by rewrite IH by exact Hlast.
Qed.

Lemma trimLeftByte_clean (s : string) (c : ascii) :
  firstByte s <> Some c -> trimLeftByte s c = s.
Proof.
  destruct s as [|a s]; [done|]. cbn. intros Hfirst.
  destruct (Ascii.eqb a c) eqn:Hac; [|done].
  apply Ascii.eqb_eq in Hac. subst. by destruct Hfirst.
Qed.

Lemma lastByte_app (s : string) (a : ascii) :
  lastByte (s +:+ String a EmptyString) = Some a.
Proof.
  induction s as [|b s IH]; [done|].
  change (String b s +:+ String a "") with (String b (s +:+ String a "")).
  cbn [lastByte]. rewrite IH.
  destruct (s +:+ String a "") eqn:E; [|done]. by destruct s.
Qed.

Lemma trimRightByte_snoc (s : string) (c : ascii) :
  trimRightByte (s +:+ String c EmptyString) c = trimRightByte s c.
Proof.
  induction s as [|a s IH].
  - change ("" +:+ String c "") with (String c ""). cbn.
    by rewrite Ascii.eqb_refl.
  - change (String a s +:+ String c "") with (String a (s +:+ String c "")).
    cbn [trimRightByte]. by rewrite IH.
Qed.

Lemma Trim_quoted (v : string) (c : ascii) :
  firstByte v <> Some c -> lastByte v <> Some c ->
  Trim (String c (v +:+ String c EmptyString)) c = v.
Proof.
  intros Hfirst Hlast. unfold Trim. destruct v as [|a v].
  - change ("" +:+ String c "") with (String c ""). cbn.
    rewrite !Ascii.eqb_refl. done.
  - assert (trimRightByte (String c (String a v +:+ String c "")) c
            = String c (String a v)) as ->.
    { cbn [trimRightByte].
      by rewrite trimRightByte_snoc, (trimRightByte_clean (String a v) c Hlast). }
    cbn [trimLeftByte]. rewrite Ascii.eqb_refl.
    by apply (trimLeftByte_clean (String a v)).
Qed.

Lemma partAttempt_failed (o : putOutcome) :
  fst (partAttempt o "") <> None -> snd (partAttempt o "") = "".
Proof.
  destruct o as [e|e u c|st body h]; cbn; try done.
  destruct (st >=? 400); [done|].
  destruct (String.eqb (Trim h quote) "") eqn:Heq; [|done].
  intros _. by apply String.eqb_eq in Heq.
Qed.

Lemma partAttempt_succeeded (o : putOutcome) :
  fst (partAttempt o "") = None ->
  exists status body header,
    o = Responded status body header /\ status < 400
    /\ Trim header quote <> "" /\ snd (partAttempt o "") = Trim header quote.
Proof.
  destruct o as [e|e u c|st body h]; cbn; try done.
  destruct (st >=? 400) eqn:Hst; [done|].
  destruct (String.eqb (Trim h quote) "") eqn:Heq; [done|].
  intros _. exists st, body, h. split; [done|]. split; [lia|]. split; [|done].
  by apply String.eqb_neq in Heq.
Qed.

Lemma fold_failed_attempts {A : Type} (f : A -> nat -> A) (failed : nat -> Prop)
    (a0 : A) (l : list nat) :
  (forall i, failed i -> f a0 i = a0) ->
  (forall i, i ∈ l -> failed i) ->
  fold_left f l a0 = a0.
Proof.
  intros Hf. induction l as [|i l IH]; intros Hl; [done|].
  cbn. rewrite Hf by (apply Hl; by left). apply IH. intros j Hj. apply Hl. by right.
Qed.

(** X12. [uploadPart] returns no error exactly together with a usable
    completion token: then the token is not empty, it is the [ETag]
    header of the response to the last attempt, a response with a status
    below 400, and it neither starts nor ends with a double quote; a
    header value in double quotes gives the value between them.  When
    [uploadPart] returns an error the token it returns is empty. *)
Theorem uploadPart_etag (env : putEnv) :
  (snd (fst (uploadPart env)) = None ->
     fst (fst (uploadPart env)) <> ""
     /\ firstByte (fst (fst (uploadPart env))) <> Some quote
     /\ lastByte (fst (fst (uploadPart env))) <> Some quote
     /\ exists k status body header,
          lastAttempt (snd (uploadPart env)) = Some k
          /\ putResult env k = Responded status body header
          /\ status < 400
          /\ fst (fst (uploadPart env)) = Trim header quote)
  /\ (snd (fst (uploadPart env)) <> None -> fst (fst (uploadPart env)) = "")
  /\ (forall v, firstByte v <> Some quote -> lastByte v <> Some quote ->
        Trim (String quote (v +:+ String quote EmptyString)) quote = v).
Proof.
  unfold uploadPart, lastAttempt. cbn [fst snd].
  set (renv := putRetryEnv env (fun i => fst (partAttempt (putResult env i) ""))).
  destruct (retry_attempts renv) as (k & Hk & Hinv & Hearlier & Hok & Hfail).
  rewrite Hinv. split; [|split].
  - intros Herr. destruct (Hok Herr) as [Hpos Hlast].
    destruct k as [|k]; [lia|]. rewrite seq_snoc, fold_left_app.
    rewrite (fold_failed_attempts _ (fun i => fnResult renv i <> None) "" (seq 0 k)).
    + cbn [fold_left]. replace (S k - 1)%nat with k in Hlast by lia.
      destruct (partAttempt_succeeded _ Hlast) as (st & body & h & Ho & Hst & Hne & Hsnd).
      rewrite Hsnd. split; [done|].
      destruct (Trim_clean h quote) as [Hf Hl]. split; [done|]. split; [done|].
      exists k, st, body, h. by rewrite last_snoc.
    + intros i Hi. by apply partAttempt_failed.
    + intros i Hi. apply elem_of_seq in Hi. apply Hearlier. lia.
  - intros Herr. apply (fold_failed_attempts _ (fun i => fnResult renv i <> None)).
    + intros i Hi. by apply partAttempt_failed.
    + intros i Hi. apply elem_of_seq in Hi. apply (Hfail Herr). lia.
  - intros v. apply Trim_quoted.
Qed.

(** The checksum a wrapper accumulates depends on the bytes delivered
    alone, not on how the reads cut them up (nor on the byte counter). *)
Lemma readAll_crc (tab : list Z) (rs : list readResult) :
  forall pr : progressReader,
    hasher pr = Some tab ->
    crc (fst (readAll pr rs)) = Update (crc pr) tab (delivered rs).
Proof.
  induction rs as [|r rs IH]; intros pr Htab.
  - cbn. by rewrite Update_nil.
  - cbn [readAll]. destruct (readAll (after (Read pr r)) rs) as [pr' cbs] eqn:Hrest.
    cbn [fst]. replace pr' with (fst (readAll (after (Read pr r)) rs)) by (by rewrite Hrest).
    unfold delivered. cbn [map concat]. fold (delivered rs).
    rewrite <- Update_app.
    destruct (data r) as [|b bs] eqn:Hdata.
    + destruct (Read_empty pr r Hdata) as [-> _]. rewrite Update_nil. by apply IH.
    + assert (data r <> []) as Hne by (by rewrite Hdata).
      rewrite (Read_nonempty pr r Hne). cbn [after]. rewrite IH; cbn [hasher crc]; [|done].
      by rewrite Htab, Hdata.
Qed.

Lemma singleAttempt_failed (size : Z) (o : putOutcome) (rs : list readResult) (c : Z) :
  fst (singleAttempt size o rs 0) <> None -> snd (singleAttempt size o rs c) = c.
Proof.
  destruct o as [e|e u cc|st body h]; cbn; try done.
  by destruct (st >=? 400).
Qed.

Lemma singleAttempt_succeeded (size : Z) (o : putOutcome) (rs : list readResult) (c : Z) :
  fst (singleAttempt size o rs 0) = None ->
  (exists status body header, o = Responded status body header /\ status < 400)
  /\ snd (singleAttempt size o rs c) = ChecksumIEEE (delivered rs).
Proof.
  destruct o as [e|e u cc|st body h]; cbn; try done.
  destruct (st >=? 400) eqn:Hst; [done|]. intros _. split.
  - exists st, body, h. split; [done|lia].
  - cbn. by rewrite (readAll_crc IEEETable).
Qed.

(** X13. [uploadSingle] returns no error only after an attempt was
    answered with a status below 400, and the checksum it returns then
    is the IEEE CRC-32 of exactly the bytes read from the file during
    that last attempt: what earlier, failed attempts read leaves no
    trace in it.  When it returns an error the checksum it returns
    is 0. *)
Theorem uploadSingle_checksum (env : putEnv) (size : Z) :
  (snd (fst (uploadSingle env size)) = None ->
     exists k status body header,
       lastAttempt (snd (uploadSingle env size)) = Some k
       /\ putResult env k = Responded status body header
       /\ status < 400
       /\ fst (fst (uploadSingle env size)) = ChecksumIEEE (delivered (putReads env k)))
  /\ (snd (fst (uploadSingle env size)) <> None -> fst (fst (uploadSingle env size)) = 0).
Proof.
  unfold uploadSingle, lastAttempt. cbn [fst snd].
  set (renv := putRetryEnv env _).
  destruct (retry_attempts renv) as (k & Hk & Hinv & Hearlier & Hok & Hfail).
  rewrite Hinv. split.
  - intros Herr. destruct (Hok Herr) as [Hpos Hlast].
    destruct k as [|k]; [lia|]. rewrite seq_snoc, fold_left_app.
    rewrite (fold_failed_attempts _ (fun i => fnResult renv i <> None) 0 (seq 0 k)).
    + cbn [fold_left]. replace (S k - 1)%nat with k in Hlast by lia.
      destruct (singleAttempt_succeeded size _ (putReads env k) 0 Hlast)
        as [(st & body & h & Ho & Hst) Hsnd].
      exists k, st, body, h. by rewrite last_snoc.
    + intros i Hi. by apply singleAttempt_failed.
    + intros i Hi. apply elem_of_seq in Hi. apply Hearlier. lia.
  - intros Herr. apply (fold_failed_attempts _ (fun i => fnResult renv i <> None)).
    + intros i Hi. by apply singleAttempt_failed.
    + intros i Hi. apply elem_of_seq in Hi. apply (Hfail Herr). lia.
Qed.

(** ** The progress counter of a multipart transfer *)

Lemma readSizes_cons (r : readResult) (rs : list readResult) :
  readSizes (r :: rs)
  = (if decide (0 < Z.of_nat (length (data r)))
     then [Z.of_nat (length (data r))] else []) ++ readSizes rs.
Proof.
  unfold readSizes. cbn [map]. rewrite filter_cons. by case_decide.
Qed.

Lemma readSizes_positive (rs : list readResult) : Forall (fun n => 0 < n) (readSizes rs).
Proof.
  unfold readSizes. apply Forall_forall. intros n Hn.
  by apply list_elem_of_filter in Hn as [Hn _].
Qed.

Lemma readSizes_sum (rs : list readResult) :
  sumZ (readSizes rs) = Z.of_nat (length (delivered rs)).
Proof.
  induction rs as [|r rs IH]; [done|].
  rewrite readSizes_cons, sumZ_app, IH. unfold delivered. cbn [map concat].
  rewrite length_app. fold (delivered rs). case_decide; cbn; lia.
Qed.

(** The observer of a wrapper is called with the running totals of the
    reads that deliver something. *)
Lemma readAll_callbacks (rs : list readResult) :
  forall pr : progressReader,
    onProgress pr = true ->
    0 <= uploaded pr ->
    uploaded pr + sumZ (readSizes rs) <= max_int64 ->
    map fst (snd (readAll pr rs)) = runningTotals (uploaded pr) (readSizes rs).
Proof.
  induction rs as [|r rs IH]; intros pr Hon Hpos Hfit; [done|].
  cbn [readAll]. destruct (readAll (after (Read pr r)) rs) as [pr' cbs] eqn:Hrest.
  cbn [snd]. replace cbs with (snd (readAll (after (Read pr r)) rs)) by (by rewrite Hrest).
  rewrite readSizes_cons in *. rewrite sumZ_app in Hfit.
  pose proof (readSizes_positive rs) as Hrs.
  assert (0 <= sumZ (readSizes rs)) as Hsum by (rewrite readSizes_sum; lia).
  rewrite map_app. case_decide as Hn.
  - assert (data r <> []) as Hne by (intros E; rewrite E in Hn; cbn in Hn; lia).
    rewrite (Read_nonempty pr r Hne). cbn [after callbacks]. rewrite Hon.
    cbn [sumZ foldr] in Hfit.
    rewrite add64_id by (unfold in_int64, min_int64, max_int64 in *; lia).
    cbn [map fst app runningTotals]. f_equal.
    rewrite IH; cbn [uploaded onProgress]; [done|done|lia|lia].
  - assert (data r = []) as He by (destruct (data r); [done|cbn in Hn; lia]).
    destruct (Read_empty pr r He) as [-> ->]. cbn [map app].
    apply IH; [done|done|]. cbn in Hfit. lia.
Qed.

Lemma runningTotals_sum (ns : list Z) :
  Forall (fun n => 0 < n) ns ->
  forall acc : Z,
    0 <= acc ->
    acc * Z.of_nat (length ns) + sumZ ns <= sumZ (runningTotals acc ns)
    /\ (forall n m rest, ns = n :: m :: rest ->
          acc * Z.of_nat (length ns) + sumZ ns < sumZ (runningTotals acc ns)).
Proof.
  induction 1 as [|n ns Hn Hns IH]; intros acc Hacc.
  - cbn. split; [lia|done].
  - destruct (IH (acc + n)) as [IH1 IH2]; [lia|].
    cbn [runningTotals sumZ foldr length]. fold (sumZ ns).
    fold (sumZ (runningTotals (acc + n) ns)).
    split; [nia|]. intros n' m rest [= <- ->]. cbn [length] in *. nia.
Qed.

Lemma runningTotals_shift (ns : list Z) :
  forall acc : Z,
    sumZ (runningTotals acc ns) = acc * Z.of_nat (length ns) + sumZ (runningTotals 0 ns).
Proof.
  induction ns as [|n ns IH]; intros acc; [cbn; lia|].
  cbn [runningTotals sumZ foldr length].
  fold (sumZ (runningTotals (acc + n) ns)). fold (sumZ (runningTotals (0 + n) ns)).
  rewrite (IH (acc + n)), (IH (0 + n)). lia.
Qed.

Lemma partProgress_fold (fileSize : Z) (cbs : list (Z * Z)) :
  forall (ub : Z) (prints : list (Z * Z)),
    0 <= ub ->
    Forall (fun cb => 0 <= fst cb) cbs ->
    ub + sumZ (map fst cbs) <= max_int64 ->
    fst (fold_left (fun st cb => (add64 (fst st) (fst cb),
                                  snd st ++ [(add64 (fst st) (fst cb), fileSize)]))
                   cbs (ub, prints))
    = ub + sumZ (map fst cbs).
Proof.
  induction cbs as [|cb cbs IH]; intros ub prints Hub Hpos Hfit; [cbn; lia|].
  inversion Hpos as [|? ? Hcb Hcbs]; subst.
  cbn [fold_left fst snd]. cbn [map sumZ foldr] in *. fold (sumZ (map fst cbs)) in *.
  assert (0 <= sumZ (map fst cbs)) as Hsum.
  { clear -Hcbs. induction Hcbs; cbn; [lia|]. fold (sumZ (map fst l)). lia. }
  rewrite add64_id by (unfold in_int64, min_int64, max_int64 in *; lia).
  rewrite IH; [lia|lia|done|lia].
Qed.

Lemma runningTotals_nonneg (ns : list Z) :
  Forall (fun n => 0 < n) ns ->
  forall acc : Z, 0 <= acc -> Forall (fun t => 0 <= t) (runningTotals acc ns).
Proof.
  induction 1 as [|n ns Hn Hns IH]; intros acc Hacc; cbn; constructor; [lia|].
  apply IH. lia.
Qed.

(** X14. The counter behind the progress line of a multipart transfer
    is advanced, on every read of a part's body, by the bytes of that
    part read so far, not by the bytes of that read.  Over the reads of
    one attempt of a part it therefore grows by the sum of the running
    totals of those reads; that is never less than the bytes read, and
    it equals them only when the body is delivered in a single read. *)
Theorem multipart_progress_counter (fileSize partSize : Z) (rs : list readResult)
    (uploadedBytes : Z) :
  0 <= uploadedBytes ->
  uploadedBytes + sumZ (runningTotals 0 (readSizes rs)) <= max_int64 ->
  fst (partProgress fileSize partSize rs uploadedBytes)
  = uploadedBytes + sumZ (runningTotals 0 (readSizes rs))
  /\ uploadedBytes + Z.of_nat (length (delivered rs))
     <= fst (partProgress fileSize partSize rs uploadedBytes)
  /\ (fst (partProgress fileSize partSize rs uploadedBytes)
      = uploadedBytes + Z.of_nat (length (delivered rs))
      <-> (length (readSizes rs) <= 1)%nat).
Proof.
  intros Hub Hfit.
  pose proof (readSizes_positive rs) as Hpos.
  destruct (runningTotals_sum _ Hpos 0) as [Hle Hlt]; [lia|].
  rewrite Z.mul_0_l, Z.add_0_l in Hle.
  assert (map fst (snd (readAll (newPartReader partSize) rs))
          = runningTotals 0 (readSizes rs)) as Hcbs.
  { apply (readAll_callbacks rs (newPartReader partSize)); cbn; [done|lia|lia]. }
  assert (fst (partProgress fileSize partSize rs uploadedBytes)
          = uploadedBytes + sumZ (runningTotals 0 (readSizes rs))) as Heq.
  { unfold partProgress. rewrite partProgress_fold; rewrite ?Hcbs; [done|done| |done].
    apply Forall_forall. intros cb Hcb.
    assert (fst cb ∈ runningTotals 0 (readSizes rs)) as Hin
      by (rewrite <- Hcbs; by apply list_elem_of_fmap_2).
    pose proof (runningTotals_nonneg _ Hpos 0 (Z.le_refl 0)) as Hnn.
    rewrite Forall_forall in Hnn. by apply Hnn. }
  rewrite Heq, <- readSizes_sum. split; [done|]. split; [lia|].
  split.
  - intros Hsame. destruct (readSizes rs) as [|n [|m rest]]; cbn; try lia.
    specialize (Hlt n m rest eq_refl). lia.
  - intros Hlen. destruct (readSizes rs) as [|n [|m rest]]; cbn in *; lia.
Qed.

(** Nine bytes read in three reads of three: the counter grows by
    [3 + 6 + 9 = 18]. *)
Lemma multipart_progress_counter_witness :
  fst (partProgress 100 9 reads_in_three 0) = 0 + sumZ (runningTotals 0 (readSizes reads_in_three))
  /\ fst (partProgress 100 9 reads_in_three 0) = 18
  /\ snd (partProgress 100 9 reads_in_three 0) = [(3, 100); (9, 100); (18, 100)]
  /\ Z.of_nat (length (delivered reads_in_three)) = 9.
Proof.
  split; [|split; [|split]; vm_compute; reflexivity].
  apply (multipart_progress_counter 100 9 reads_in_three 0); [lia|].
  vm_compute. discriminate.
Defined.

(** ** [detectContentType] *)

Lemma list_ascii_of_string_app (a b : string) :
  list_ascii_of_string (a +:+ b) = list_ascii_of_string a ++ list_ascii_of_string b.
Proof.
  induction a as [|c a IH]; [done|].
  change (String c a +:+ b) with (String c (a +:+ b)). cbn. by rewrite IH.
Qed.

Lemma plainByte_spec (c : ascii) :
  plainByte c = true ->
  isASCIIByte c = true /\ lowerByte c = c /\ Ascii.eqb c "." = false
  /\ forall w, IsPathSeparator w c = false.
Proof.
  unfold plainByte. intros H.
  apply andb_prop in H as [H Hsep]. apply andb_prop in H as [H Hdot].
  apply andb_prop in H as [Ha Hl].
  apply Ascii.eqb_eq in Hl. apply negb_true_iff in Hdot, Hsep.
  repeat split; try done.
  intros [|]; [done|]. unfold IsPathSeparator in *.
  apply orb_false_iff in Hsep as [-> _]. done.
Qed.

(** Scanning back over plain bytes to a dot yields the dot and what
    follows it. *)
Lemma extScan_plain (w : bool) (re rest : list ascii) :
  forallb plainByte re = true ->
  forall suffix,
    extScan w (re ++ "."%char :: rest) suffix = "."%char :: rev re ++ suffix.
Proof.
  induction re as [|c re IH]; intros Hre suffix.
  - cbn. destruct w; done.
  - cbn in Hre. apply andb_prop in Hre as [Hc Hre].
    destruct (plainByte_spec c Hc) as (_ & _ & Hdot & Hsep).
    cbn [app extScan]. rewrite Hsep, Hdot, (IH Hre). cbn [rev].
    by rewrite <- app_assoc.
Qed.

Lemma Ext_plain (w : bool) (stem k : string) :
  plainExtension k = true -> Ext w (stem +:+ k) = k.
Proof.
  unfold plainExtension, Ext. intros Hk. rewrite list_ascii_of_string_app.
  destruct (list_ascii_of_string k) as [|c e] eqn:Hke; [done|].
  apply andb_prop in Hk as [Hc He]. apply Ascii.eqb_eq in Hc. subst c.
  rewrite rev_app_distr. cbn [rev]. rewrite <- app_assoc. cbn [app].
  rewrite extScan_plain.
  - rewrite rev_involutive, app_nil_r, <- Hke.
    apply string_of_list_ascii_of_string.
  - rewrite forallb_forall in *. intros x Hx. apply He. by apply in_rev.
Qed.

Lemma ToLower_plain (u : string -> string) (k : string) :
  plainExtension k = true -> ToLower u k = k.
Proof.
  unfold plainExtension, ToLower, isASCII, lowerASCII. intros Hk.
  destruct (list_ascii_of_string k) as [|c e] eqn:Hke; [done|].
  apply andb_prop in Hk as [Hc He]. apply Ascii.eqb_eq in Hc. subst c.
  assert (forallb isASCIIByte e = true /\ map lowerByte e = e) as [Ha Hl].
  { clear Hke. induction e as [|x e IH]; [done|].
    cbn in He. apply andb_prop in He as [Hx He].
    destruct (plainByte_spec x Hx) as (Hax & Hlx & _). destruct (IH He) as [IH1 IH2].
    cbn [forallb map]. by rewrite Hax, IH1, Hlx, IH2. }
  cbn [forallb map]. rewrite Ha, Hl.
  change (isASCIIByte "."%char) with true. change (lowerByte "."%char) with "."%char.
  cbn [andb]. rewrite <- Hke. apply string_of_list_ascii_of_string.
Qed.

Lemma mimeTable_plain : Forall (fun kv => plainExtension (fst kv) = true) mimeTable.
Proof. repeat constructor. Qed.

(** X15. A file whose name ends in one of the 47 extensions of the
    table gets the type the table gives for it, whatever precedes the
    extension in the path (directories, dots, other extensions),
    whatever the platform and whatever the file contains: the file is
    not read. *)
Theorem detectContentType_extension (env : typeEnv) (stem k v : string)
    (readBytes : list byte) :
  mimeTypes !! k = Some v ->
  detectContentType env (stem +:+ k) readBytes
  = {| contentType := v; readsFile := false |}.
Proof.
  intros Hk. unfold detectContentType.
  assert (plainExtension k = true) as Hplain.
  { apply elem_of_list_to_map_2 in Hk.
    pose proof mimeTable_plain as Hall. rewrite Forall_forall in Hall.
    apply (Hall (k, v) Hk). }
  by rewrite Ext_plain, ToLower_plain, Hk.
Qed.

(** Only the last extension counts, on either platform. *)
Lemma detectContentType_extension_witness :
  detectContentType env_unix "backups/2024.01/archive.tar.gz" []
  = {| contentType := "application/gzip"; readsFile := false |}
  /\ contentType (detectContentType env_windows "C:\Users\me\notes.v2.md" []) = "text/markdown".
Proof.
  split.
  - apply (detectContentType_extension env_unix "backups/2024.01/archive.tar" ".gz").
    vm_compute. reflexivity.
  - vm_compute. reflexivity.
Defined.

Lemma lowerByte_separator (w : bool) (c : ascii) :
  IsPathSeparator w (lowerByte c) = IsPathSeparator w c.
Proof. destruct w, c as [[] [] [] [] [] [] [] []]; reflexivity. Qed.

Lemma lowerByte_dot (c : ascii) : Ascii.eqb (lowerByte c) "." = Ascii.eqb c ".".
Proof. destruct c as [[] [] [] [] [] [] [] []]; reflexivity. Qed.

Lemma lowerByte_ascii (c : ascii) : isASCIIByte (lowerByte c) = isASCIIByte c.
Proof. destruct c as [[] [] [] [] [] [] [] []]; reflexivity. Qed.

(** Lower-casing the bytes of a path lower-cases its extension. *)
Lemma extScan_lower (w : bool) (r : list ascii) :
  forall suffix,
    extScan w (map lowerByte r) (map lowerByte suffix)
    = map lowerByte (extScan w r suffix).
Proof.
  induction r as [|c r IH]; intros suffix; [done|].
  cbn [map extScan]. rewrite lowerByte_separator, lowerByte_dot.
  destruct (IsPathSeparator w c); [done|].
  destruct (Ascii.eqb c "."); [done|].
  apply (IH (c :: suffix)).
Qed.

Lemma extScan_Forall (P : ascii -> Prop) (w : bool) (r : list ascii) :
  forall suffix, Forall P r -> Forall P suffix -> Forall P (extScan w r suffix).
Proof.
  induction r as [|c r IH]; intros suffix Hr Hs; [constructor|].
  inversion Hr as [|? ? Hc Hr']; subst. cbn [extScan].
  destruct (IsPathSeparator w c); [constructor|].
  destruct (Ascii.eqb c "."); [by constructor|].
  apply IH; [done|by constructor].
Qed.

Lemma Ext_lower (w : bool) (p : string) :
  Ext w (lowerASCII p) = lowerASCII (Ext w p).
Proof.
  unfold Ext, lowerASCII. rewrite !list_ascii_of_string_of_list_ascii.
  by rewrite <- map_rev, <- (extScan_lower w _ []).
Qed.

Lemma Ext_ascii (w : bool) (p : string) : isASCII p = true -> isASCII (Ext w p) = true.
Proof.
  unfold isASCII, Ext. rewrite list_ascii_of_string_of_list_ascii.
  rewrite !forallb_forall. intros Hp.
  assert (Forall (fun c => isASCIIByte c = true)
                 (extScan w (rev (list_ascii_of_string p)) [])) as H.
  { apply extScan_Forall; [|constructor].
    apply Forall_forall. intros y Hy. apply Hp. apply in_rev.
    by apply list_elem_of_In. }
  rewrite Forall_forall in H. intros x Hx. apply H. by apply list_elem_of_In.
Qed.

(** X16. The extension is matched without regard to the case of ASCII
    letters: two paths of ASCII bytes that differ only in the case of
    their letters get the same content type from the same file. *)
Theorem detectContentType_case (env : typeEnv) (p q : string) (readBytes : list byte) :
  isASCII p = true -> isASCII q = true ->
  lowerASCII p = lowerASCII q ->
  detectContentType env p readBytes = detectContentType env q readBytes.
Proof.
  intros Hp Hq Hpq. unfold detectContentType, ToLower.
  rewrite (Ext_ascii _ p Hp), (Ext_ascii _ q Hq).
  by rewrite <- !Ext_lower, Hpq.
Qed.

Lemma detectContentType_case_witness :
  detectContentType env_unix "Holiday/IMG_0042.JPG" []
  = detectContentType env_unix "holiday/img_0042.jpg" []
  /\ contentType (detectContentType env_unix "Holiday/IMG_0042.JPG" []) = "image/jpeg".
Proof.
  split; [|vm_compute; reflexivity].
  apply (detectContentType_case env_unix "Holiday/IMG_0042.JPG" "holiday/img_0042.jpg");
    vm_compute; reflexivity.
Defined.

(** Scanning back over bytes that are neither dots nor separators finds
    no extension when it meets a separator or the start of the path. *)
Lemma extScan_none (w : bool) (rbase rest : list ascii) :
  Forall (fun c => Ascii.eqb c "." = false /\ IsPathSeparator w c = false) rbase ->
  match rest with
  | [] => True
  | c :: _ => IsPathSeparator w c = true
  end ->
  forall suffix, extScan w (rbase ++ rest) suffix = [].
Proof.
  induction 1 as [|c rbase [Hdot Hsep] Hb IH]; intros Hrest suffix.
  - destruct rest as [|c rest]; [done|]. cbn. by rewrite Hrest.
  - cbn [app extScan]. rewrite Hsep, Hdot. by apply IH.
Qed.

(** X17. A file whose last path element contains no dot has no
    extension, whatever dots the directories before it contain: its
    type is what [http.DetectContentType] makes of the first bytes of
    the file, at most 512 of them. *)
Theorem detectContentType_sniffed (env : typeEnv) (dir base : string)
    (readBytes : list byte) :
  Forall (fun c => Ascii.eqb c "." = false /\ IsPathSeparator (onWindows env) c = false)
         (list_ascii_of_string base) ->
  match lastByte dir with
  | None => True
  | Some c => IsPathSeparator (onWindows env) c = true
  end ->
  detectContentType env (dir +:+ base) readBytes
  = {| contentType := DetectContentType env (take 512 readBytes); readsFile := true |}.
Proof.
  intros Hbase Hdir. unfold detectContentType.
  assert (Ext (onWindows env) (dir +:+ base) = "") as ->.
  { unfold Ext. rewrite list_ascii_of_string_app, rev_app_distr.
    rewrite extScan_none; [done| |].
    - apply Forall_forall. intros c Hc. rewrite Forall_forall in Hbase. apply Hbase.
      apply list_elem_of_In. apply in_rev. by apply list_elem_of_In.
    - clear Hbase. induction dir as [|a dir IH]; [done|].
      cbn [list_ascii_of_string rev]. destruct dir as [|b dir].
      + cbn in *. done.
      + specialize (IH Hdir).
        destruct (rev (list_ascii_of_string (String b dir))) eqn:E; [|done].
        exfalso. apply (f_equal (@length ascii)) in E.
        rewrite length_rev in E. done. }
  done.
Qed.

Lemma detectContentType_sniffed_witness :
  detectContentType env_unix "releases/v1.2.3/Makefile" (replicate 600 Byte.x00)
  = {| contentType := "application/octet-stream"; readsFile := true |}.
Proof.
  apply (detectContentType_sniffed env_unix "releases/v1.2.3/" "Makefile").
  - repeat constructor.
  - reflexivity.
Defined.

(** ** The visitor token *)

Lemma hexDigit_byte (v : byte) :
  let hi := Config.hexDigit (Z.shiftr (byteVal v) 4) in
  let lo := Config.hexDigit (Z.land (byteVal v) 0x0f) in
  hi ∈ list_ascii_of_string Config.hextable
  /\ lo ∈ list_ascii_of_string Config.hextable
  /\ Config.hexValue hi = Some (Z.shiftr (byteVal v) 4)
  /\ Config.hexValue lo = Some (Z.land (byteVal v) 0x0f)
  /\ 16 * Z.shiftr (byteVal v) 4 + Z.land (byteVal v) 0x0f = byteVal v.
Proof.
  destruct v; vm_compute; repeat split;
    apply list_elem_of_In; cbn; repeat first [left; reflexivity|right].
Qed.

Lemma EncodeToString_spec (bytes : list byte) :
  let hex := list_ascii_of_string (Config.EncodeToString bytes) in
  length hex = (2 * length bytes)%nat
  /\ Forall (fun c => c ∈ list_ascii_of_string Config.hextable) hex
  /\ Config.decodeHex hex = Some (map byteVal bytes).
Proof.
  unfold Config.EncodeToString. cbn zeta. rewrite list_ascii_of_string_of_list_ascii.
  induction bytes as [|v bytes (IH1 & IH2 & IH3)]; [by repeat split|].
  destruct (hexDigit_byte v) as (Hhi & Hlo & Hvhi & Hvlo & Hval).
  cbn [flat_map app length map]. split; [lia|]. split.
  - constructor; [exact Hhi|]. constructor; [exact Hlo|exact IH2].
  - cbn [Config.decodeHex]. by rewrite Hvhi, Hvlo, IH3, Hval.
Qed.

Lemma string_length_list (s : string) :
  String.length s = length (list_ascii_of_string s).
Proof. induction s as [|c s IH]; [done|]. cbn. by rewrite IH. Qed.

(** X18. A generated token is ["cli_"] followed by the lower-case
    hexadecimal digits of the random bytes, two for each byte: with the
    16 bytes of the buffer it is 36 characters long, and the random
    bytes can be read back from it, so that no two different buffers
    give the same token. *)
Theorem generateToken_format (e : Config.env) (bytes : list byte) :
  Config.randRead e = Ok bytes ->
  length bytes = Config.tokenLength ->
  exists hex,
    Config.generateToken e = Ok ("cli_" ++ hex)%string
    /\ String.length ("cli_" ++ hex) = 36%nat
    /\ Forall (fun c => c ∈ list_ascii_of_string Config.hextable)
              (list_ascii_of_string hex)
    /\ Config.decodeHex (list_ascii_of_string hex) = Some (map byteVal bytes).
Proof.
  intros Hrand Hlen. exists (Config.EncodeToString bytes).
  destruct (EncodeToString_spec bytes) as (H1 & H2 & H3).
  unfold Config.generateToken. rewrite Hrand. split; [done|]. split; [|done].
  change ("cli_" ++ Config.EncodeToString bytes)%string
    with (String "c" (String "l" (String "i" (String "_" (Config.EncodeToString bytes))))).
  cbn [String.length]. rewrite string_length_list, H1, Hlen. reflexivity.
Qed.

Lemma generateToken_format_witness :
  exists hex,
    Config.generateToken Config.env_fresh = Ok ("cli_" ++ hex)%string
    /\ String.length ("cli_" ++ hex) = 36%nat
    /\ Forall (fun c => c ∈ list_ascii_of_string Config.hextable)
              (list_ascii_of_string hex)
    /\ Config.decodeHex (list_ascii_of_string hex)
       = Some [0; 1; 2; 3; 250; 251; 252; 253; 16; 32; 48; 64; 80; 96; 112; 255].
Proof.
  apply (generateToken_format Config.env_fresh
           (map (fun n => default Byte.x00 (Byte.of_N (Z.to_N n)))
                [0; 1; 2; 3; 250; 251; 252; 253; 16; 32; 48; 64; 80; 96; 112; 255]));
    reflexivity.
Defined.

Lemma tokenPath_configDir (e : Config.env) (path : string) :
  Config.tokenPath e = Some path ->
  exists configPath,
    Config.GetConfigDir e = Ok configPath
    /\ path = Config.Join e configPath Config.tokenFile.
Proof.
  unfold Config.tokenPath. destruct (Config.GetConfigDir e) as [cp|err]; [|done].
  intros [= <-]. by exists cp.
Qed.

Lemma token_nonempty (hex : string) : ("cli_" ++ hex)%string <> "".
Proof.
  change ("cli_" +:+ hex) with (String "c" (String "l" (String "i" (String "_" hex)))).
  done.
Qed.

(** X19. The visitor token is stable: after a call of [GetVisitorToken]
    that returned a token, the token file holds that token, and every
    later call made with the same home directory returns the same token
    as long as the file can be read, without touching the file system,
    whatever its random source would give and even when the directory
    or the file could no longer be written. *)
Theorem GetVisitorToken_stable (e1 e2 : Config.env) (fs fs' : Config.fileSystem)
    (path token : string) :
  Config.tokenPath e1 = Some path ->
  Config.tokenPath e2 = Some path ->
  Config.readDenied e2 path = None ->
  Config.GetVisitorToken e1 fs = (Ok token, fs') ->
  fs' !! path = Some token
  /\ Config.GetVisitorToken e2 fs' = (Ok token, fs').
Proof.
  intros H1 H2 Hread Hcall.
  destruct (tokenPath_configDir e1 path H1) as (cp1 & Hcp1 & Hp1).
  destruct (tokenPath_configDir e2 path H2) as (cp2 & Hcp2 & Hp2).
  assert (fs' !! path = Some token /\ token <> "") as [Hfile Hne].
  { unfold Config.GetVisitorToken in Hcall. rewrite Hcp1, <- Hp1 in Hcall.
    unfold Config.ReadFile, Config.generateToken, Config.WriteFile in Hcall.
    destruct (Config.readDenied e1 path).
    - destruct (Config.randRead e1); [|done].
      destruct (Config.MkdirAll e1 cp1); [done|].
      destruct (Config.writeDenied e1 path); simplify_eq.
      split; [apply (lookup_insert_eq (M := gmap string))|apply token_nonempty].
    - destruct (fs !! path) as [[|c d]|] eqn:Hfs; simplify_eq; try done;
        (destruct (Config.randRead e1); [|done];
         destruct (Config.MkdirAll e1 cp1); [done|];
         destruct (Config.writeDenied e1 _); simplify_eq;
         split; [apply (lookup_insert_eq (M := gmap string))|apply token_nonempty]). }
  split; [done|].
  unfold Config.GetVisitorToken. rewrite Hcp2, <- Hp2.
  unfold Config.ReadFile. rewrite Hread, Hfile. by destruct token.
Qed.

(** A first run creates the token; a later run, with other random bytes
    and a file system that has become read-only, returns the same one. *)
Lemma GetVisitorToken_stable_witness :
  snd (Config.GetVisitorToken Config.env_fresh ∅) !! "/home/u/.config/storageto/token"
  = Some "cli_00010203fafbfcfd10203040506070ff"
  /\ Config.GetVisitorToken Config.env_later
       (snd (Config.GetVisitorToken Config.env_fresh ∅))
     = (Ok "cli_00010203fafbfcfd10203040506070ff",
        snd (Config.GetVisitorToken Config.env_fresh ∅)).
Proof.
  apply (GetVisitorToken_stable Config.env_fresh Config.env_later ∅); reflexivity.
Defined.



(** ** One file, and the entry point *)

(** X21. [UploadFile] does nothing at all when the context is already
    done, and returns the context's error.  A file it has opened it
    closes again, last of all, however it ends.  It confirms an upload
    only after the transfer returned no error, with the file's name,
    size and type, the storage key of the plan, the collection it was
    given and the checksum the transfer returned; the transfer is the
    single PUT exactly when the plan's type is ["single"]; and it
    returns a file record only when that confirmation succeeded. *)
Theorem UploadFile_chain (env : fileEnv) (path collectionID : string) :
  (ctxAtEntry env <> Active ->
     snd (UploadFile env path collectionID) = []
     /\ exists e, fst (UploadFile env path collectionID) = Failed e
                  /\ isCancellation e = true)
  /\ (snd (UploadFile env path collectionID) = []
      \/ exists middle,
           snd (UploadFile env path collectionID)
           = FileOpen path :: middle ++ [FileClose path]
           /\ Forall (fun c => match c with
                               | FileOpen _ | FileClose _ => False
                               | _ => True
                               end) middle)
  /\ (forall creq, CallConfirmUpload creq ∈ snd (UploadFile env path collectionID) ->
        exists size initResp,
          statFile env path = Ok size
          /\ initUpload env {| iu_Filename := baseName env path;
                               iu_ContentType := typeOf env path;
                               iu_Size := size |} = Ok initResp
          /\ (if String.eqb (Type_ initResp) "single"
              then RunUploadSingle (UploadURL initResp) (typeOf env path) size
                     ∈ snd (UploadFile env path collectionID)
                   /\ singleTransfer env (UploadURL initResp) (typeOf env path) size
                      = (cu_CRC32 creq, None)
              else RunUploadMultipart initResp size
                     ∈ snd (UploadFile env path collectionID)
                   /\ multipartTransfer env initResp size = (cu_CRC32 creq, None))
          /\ creq = {| cu_Filename := baseName env path; cu_Size := size;
                       cu_ContentType := typeOf env path;
                       cu_R2Key := R2Key initResp;
                       cu_CollectionID := collectionID;
                       cu_CRC32 := cu_CRC32 creq |})
  /\ (forall file, fst (UploadFile env path collectionID) = Ok file ->
        exists creq,
          CallConfirmUpload creq ∈ snd (UploadFile env path collectionID)
          /\ confirmUpload env creq = Ok file).
Proof.
  unfold UploadFile.
  destruct (ctxErr (ctxAtEntry env)) as [e|] eqn:Hctx.
  { split; [intros _; split; [done|]; exists e; split; [done|];
            by eapply ctxErr_isCancellation|].
    split; [by left|]. split; [intros creq H; by apply elem_of_nil in H|done]. }
  apply ctxErr_None in Hctx.
  split; [done|].
  destruct (openFile env path) as [e|].
  { split; [by left|]. split; [intros creq H; by apply elem_of_nil in H|done]. }
  destruct (statFile env path) as [size|e].
  2: { split; [right; exists []; by split|].
       split; [|done]. intros creq H.
       repeat (apply elem_of_cons in H as [H|H]; [done|]). by apply elem_of_nil in H. }
  destruct (initUpload env _) as [initResp|e] eqn:Hinit.
  2: { split; [right; exists [CallInitUpload {| iu_Filename := baseName env path;
                                                iu_ContentType := typeOf env path;
                                                iu_Size := size |}];
               split; [done|by repeat constructor]|].
       split; [|done]. intros creq H.
       repeat (apply elem_of_cons in H as [H|H]; [done|]). by apply elem_of_nil in H. }
  destruct (String.eqb (Type_ initResp) "single") eqn:Htype.
  - destruct (singleTransfer env (UploadURL initResp) (typeOf env path) size)
      as [fileCrc [e|]] eqn:Htr.
    + split; [right; eexists [_; _]; split; [done|by repeat constructor]|].
      split; [|done]. intros creq H.
      repeat (apply elem_of_cons in H as [H|H]; [done|]). by apply elem_of_nil in H.
    + destruct (confirmUpload env _) as [file|e] eqn:Hconf.
      all: split; [right; eexists [_; _; _]; split; [done|by repeat constructor]|].
      all: split;
        [intros creq H;
         repeat (apply elem_of_cons in H as [H|H]; [try done|]);
         [simplify_eq; exists size, initResp; rewrite Htype; cbn;
          repeat split; try done;
          apply elem_of_cons; right; apply elem_of_cons; right; by left
         |by apply elem_of_nil in H]
        |try done].
      intros file' [= <-]. eexists. split; [|exact Hconf].
      do 3 (apply elem_of_cons; right). by left.
  - destruct (multipartTransfer env initResp size) as [fileCrc [e|]] eqn:Htr.
    + split; [right; eexists [_; _]; split; [done|by repeat constructor]|].
      split; [|done]. intros creq H.
      repeat (apply elem_of_cons in H as [H|H]; [done|]). by apply elem_of_nil in H.
    + destruct (confirmUpload env _) as [file|e] eqn:Hconf.
      all: split; [right; eexists [_; _; _]; split; [done|by repeat constructor]|].
      all: split;
        [intros creq H;
         repeat (apply elem_of_cons in H as [H|H]; [try done|]);
         [simplify_eq; exists size, initResp; rewrite Htype; cbn;
          repeat split; try done;
          apply elem_of_cons; right; apply elem_of_cons; right; by left
         |by apply elem_of_nil in H]
        |try done].
      intros file' [= <-]. eexists. split; [|exact Hconf].
      do 3 (apply elem_of_cons; right). by left.
Qed.

Lemma uploadFilesBatch_result (env : batchEnv) (paths : list string) (r : Result) :
  fst (uploadFilesBatch env paths) = Ok r ->
  IsCollection r = true /\ exists ready, Collection r = Some ready.
Proof.
  intros Hr. destruct (uploadFilesBatch_outcome env paths); simplify_eq.
  split; [done|]. by eexists.
Qed.

(** X22. [UploadFiles] refuses an empty list of paths without doing
    anything.  Otherwise it uploads through [UploadFile], with no
    collection, exactly when there is one path and no collection was
    asked for, and as a batch in every other case; what it returns is a
    collection exactly in the second case, and then it carries the
    collection and no file record, while a single upload carries no
    collection. *)
Theorem UploadFiles_modes (fenv : fileEnv) (benv : batchEnv) (paths : list string)
    (asCollection : bool) :
  (paths = [] ->
     UploadFiles fenv benv paths asCollection = (Failed (Errorf "no files specified"), []))
  /\ (length paths = 1%nat /\ asCollection = false ->
      exists path,
        paths = [path]
        /\ snd (UploadFiles fenv benv paths asCollection)
           = map inl (snd (UploadFile fenv path ""))
        /\ forall r, fst (UploadFiles fenv benv paths asCollection) = Ok r ->
             ur_IsCollection r = false /\ ur_Collection r = None
             /\ fst (UploadFile fenv path "") = Ok (ur_FileInfo r))
  /\ (paths <> [] -> length paths <> 1%nat \/ asCollection = true ->
      snd (UploadFiles fenv benv paths asCollection)
      = map inr (snd (uploadFilesBatch benv paths))
      /\ forall r, fst (UploadFiles fenv benv paths asCollection) = Ok r ->
           ur_IsCollection r = true /\ ur_FileInfo r = None
           /\ exists ready, ur_Collection r = Some ready).
Proof.
  split; [by intros ->|]. split.
  - intros [Hlen ->]. destruct paths as [|path [|? ?]]; try done.
    exists path. split; [done|]. cbn.
    destruct (UploadFile fenv path "") as [[file|e] log]; cbn; split; try done.
    intros r [= <-]. done.
  - intros Hne Hmode. destruct paths as [|path rest]; [done|].
    unfold UploadFiles.
    assert ((length (path :: rest) =? 1)%nat && negb asCollection = false) as ->.
    { destruct Hmode as [Hlen| ->]; [|by rewrite andb_false_r].
      apply Nat.eqb_neq in Hlen. by rewrite Hlen. }
    pose proof (uploadFilesBatch_result benv (path :: rest)) as Hres.
    destruct (uploadFilesBatch benv (path :: rest)) as [[r0|e] log]; cbn; split; try done.
    intros r [= <-]. cbn. destruct (Hres r0 eq_refl) as [Hc [ready Hr]].
    split; [done|]. split; [done|]. by exists ready.
Qed.

(** ** The API client *)

(** X23. A call of the API client returns a response only when the
    request could be sent, the service answered with a status below
    400, the body could be read and decoded, and the decoded response
    says [success]; the request then went to the base URL followed by
    the path of the call, with the JSON headers.  A response that says
    [success: false] is an error with the service's text, whatever the
    status. *)
Theorem api_call_outcome {R : Type} (Success : R -> bool) (Error : R -> string)
    (c : Api.Client) (e : Api.env R) (path : string) :
  (forall resp, fst (Api.call Success Error c e path) = Ok resp ->
     exists status body jsonBody,
       Api.marshal e = Ok jsonBody /\ Api.newRequest e = None
       /\ Api.doRequest e = Ok status /\ status < 400
       /\ Api.readBody e = Ok body
       /\ Api.resultBody e body = Ok resp
       /\ Success resp = true
       /\ snd (Api.call Success Error c e path)
          = Some {| Api.reqURL := (Api.BaseURL c ++ path)%string;
                    Api.reqHeaders := Api.headers c (Api.userAgent e);
                    Api.reqBody := jsonBody |})
  /\ (forall resp, fst (Api.post c e path) = Ok resp -> Success resp = false ->
        fst (Api.call Success Error c e path) = Failed (Errorf (Error resp)))
  /\ (forall status, Api.doRequest e = Ok status -> 400 <= status ->
        exists err, fst (Api.call Success Error c e path) = Failed err).
Proof.
  unfold Api.call, Api.post. split; [|split].
  - intros resp.
    destruct (Api.marshal e) as [jsonBody|]; [|done].
    destruct (Api.newRequest e); [done|].
    destruct (Api.doRequest e) as [status|]; [|done].
    destruct (Api.readBody e) as [body|]; [|done].
    destruct (status =? 429) eqn:H429; [done|].
    destruct (status >=? 400) eqn:H400; [done|].
    destruct (Api.resultBody e body) as [r|] eqn:Hr; [|done].
    cbn. destruct (Success r) eqn:Hs; [|done]. intros [= <-].
    exists status, body, jsonBody. repeat split; try done. lia.
  - intros resp.
    destruct (Api.marshal e) as [jsonBody|]; [|done].
    destruct (Api.newRequest e); [done|].
    destruct (Api.doRequest e) as [status|]; [|done].
    destruct (Api.readBody e) as [body|]; [|done].
    destruct (status =? 429) eqn:H429; [done|].
    destruct (status >=? 400) eqn:H400; [done|].
    destruct (Api.resultBody e body) as [r|] eqn:Hr; [|done].
    cbn. intros [= ->] ->. done.
  - intros status Hdo Hst. rewrite Hdo.
    destruct (Api.marshal e) as [jsonBody|]; [|by eexists].
    destruct (Api.newRequest e); [by eexists|].
    destruct (Api.readBody e) as [body|]; [|by eexists].
    destruct (status =? 429) eqn:H429; [by eexists|].
    assert ((status >=? 400) = true) as -> by lia. by eexists.
Qed.

(** ** The [upload] command *)

Lemma addMatches_ok (e : Cli.env) (matches : list string) :
  forall files files',
    Cli.addMatches e matches files = Ok files' ->
    files' = files ++ matches /\ Forall (fun f => Cli.Stat e f = Ok false) matches.
Proof.
  induction matches as [|m matches IH]; intros files files' H.
  - cbn in H. simplify_eq. by rewrite app_nil_r.
  - cbn in H. destruct (Cli.Stat e m) as [[|]|] eqn:Hm; try done.
    destruct (IH _ _ H) as [-> Hall]. split; [by rewrite <- app_assoc|].
    by constructor.
Qed.

Lemma expand_ok (e : Cli.env) (args : list string) :
  forall files files',
    Cli.expand e args files = Ok files' ->
    exists added,
      files' = files ++ added
      /\ Forall (fun f => Cli.Stat e f = Ok false) added
      /\ (length args <= length added)%nat.
Proof.
  induction args as [|pattern args IH]; intros files files' H.
  - cbn in H. simplify_eq. exists []. by rewrite app_nil_r.
  - cbn [Cli.expand] in H.
    destruct (Cli.Glob e pattern) as [[|m matches]|]; [| |done].
    + destruct (Cli.Stat e pattern) as [isDir|] eqn:Hs; [|done].
      destruct (Cli.addMatches e [pattern] files) as [files1|] eqn:Hadd; [|done].
      destruct (addMatches_ok _ _ _ _ Hadd) as [-> Hall].
      destruct (IH _ _ H) as (added & -> & Hadded & Hlen).
      exists (pattern :: added). split; [by rewrite <- app_assoc|].
      split; [|cbn; lia]. inversion Hall; subst. by constructor.
    + destruct (Cli.addMatches e (m :: matches) files) as [files1|] eqn:Hadd; [|done].
      destruct (addMatches_ok _ _ _ _ Hadd) as [-> Hall].
      destruct (IH _ _ H) as (added & -> & Hadded & Hlen).
      exists ((m :: matches) ++ added). split; [by rewrite <- app_assoc|].
      split; [by apply Forall_app|]. rewrite length_app. cbn. lia.
Qed.

(** X24. When [runUpload] gets as far as uploading, every argument has
    given at least one file, every file to upload exists and is not a
    directory, and the upload is a collection exactly when the flag
    asks for one or there is more than one file.  With at least one
    argument, expansion never yields an empty list, so the check for
    "no files to upload" cannot fire. *)
Theorem runUpload_files (e : Cli.env) (cfg : Config.env) (fs : Config.fileSystem)
    (fl : Cli.flags) (args : list string) :
  (forall p fs', Cli.prepare e cfg fs fl args = (Ok p, fs') ->
     Cli.files p <> []
     /\ (length args <= length (Cli.files p))%nat
     /\ Forall (fun f => Cli.Stat e f = Ok false) (Cli.files p)
     /\ (Cli.asCollection p = false
         <-> length (Cli.files p) = 1%nat /\ Cli.collection fl = false))
  /\ (forall fileList, args <> [] -> Cli.expand e args [] = Ok fileList ->
        fileList <> []).
Proof.
  split.
  - intros p fs' H. unfold Cli.prepare in H.
    destruct (Cli.expand e args []) as [fileList|] eqn:Hexp; [|done].
    destruct (expand_ok _ _ _ _ Hexp) as (added & -> & Hall & Hlen). cbn [app] in *.
    destruct added as [|f added]; [done|].
    assert (Cli.files p = f :: added
            /\ Cli.asCollection p
               = Cli.collection fl || (1 <? length (f :: added))%nat) as [Hf Hc].
    { destruct (Cli.noToken fl); [by simplify_eq|].
      destruct (Config.GetVisitorToken cfg fs) as [[token|] fs1]; by simplify_eq. }
    rewrite Hf, Hc. split; [done|]. split; [done|]. split; [done|].
    destruct (Cli.collection fl); cbn [orb length].
    + split; [done|]. by intros [_ ?].
    + destruct added; cbn; split; try done; [by intros [? _]].
  - intros fileList Hargs Hexp.
    destruct (expand_ok _ _ _ _ Hexp) as (added & -> & _ & Hlen).
    destruct args; [done|]. destruct added; [cbn in Hlen; lia|done].
Qed.

(** Two files matched by a pattern make a collection; a literal name
    that is no pattern is taken as it is. *)
Lemma runUpload_files_witness :
  (exists p, fst (Cli.prepare Cli.env_logs Config.env_fresh ∅ Cli.default_flags ["*.log"%string])
             = Ok p
             /\ Cli.files p = ["a.log"; "b.log"]%string /\ Cli.asCollection p = true)
  /\ Cli.expand Cli.env_logs ["notes [1].txt"%string] [] = Ok ["notes [1].txt"%string]
  /\ fst (Cli.prepare Cli.env_logs Config.env_fresh ∅ Cli.default_flags ["*"%string])
     = Failed (Errorf "old is a directory (use storageto upload old/* for contents)").
Proof.
  split; [|split; vm_compute; reflexivity].
  destruct (runUpload_files Cli.env_logs Config.env_fresh ∅ Cli.default_flags
              ["*.log"%string]) as [H _].
  destruct (Cli.prepare Cli.env_logs Config.env_fresh ∅ Cli.default_flags ["*.log"%string])
    as [[p|err] fs'] eqn:Hp; [|vm_compute in Hp; discriminate].
  destruct (H p fs' eq_refl) as (_ & _ & _ & _).
  exists p. split; [done|]. vm_compute in Hp. by simplify_eq.
Defined.

Lemma GetVisitorToken_nonempty (cfg : Config.env) (fs fs' : Config.fileSystem)
    (token : string) :
  Config.GetVisitorToken cfg fs = (Ok token, fs') -> token <> "".
Proof.
  unfold Config.GetVisitorToken, Config.generateToken, Config.WriteFile.
  destruct (Config.GetConfigDir cfg) as [cp|]; [|done].
  destruct (Config.ReadFile cfg fs _) as [[|c d]|];
    try (destruct (Config.randRead cfg) as [bytes|]; [|done];
         destruct (Config.MkdirAll cfg cp); [done|];
         destruct (Config.writeDenied cfg _); [done|];
         intros [= <- _]; apply token_nonempty).
  by intros [= <- _].
Qed.

(** X25. With [--no-token] the command never looks at the token file,
    let alone creates one, and none of its requests carries an
    [X-Visitor-Token] header.  Without the flag every request carries
    that header, with the token [GetVisitorToken] returned, which is
    never empty.  In both cases the client talks to the URL of the
    [--api] flag. *)
Theorem runUpload_visitor_token (e : Cli.env) (cfg : Config.env)
    (fs fs' : Config.fileSystem) (fl : Cli.flags) (args : list string) (p : Cli.plan) :
  Cli.prepare e cfg fs fl args = (Ok p, fs') ->
  Api.BaseURL (Cli.client p) = Cli.apiURL fl
  /\ (Cli.noToken fl = true ->
      fs' = fs
      /\ forall ua,
           Api.headers (Cli.client p) ua
           = [ ("Content-Type", "application/json"); ("Accept", "application/json");
               ("User-Agent", ua) ]%string)
  /\ (Cli.noToken fl = false ->
      exists token,
        Config.GetVisitorToken cfg fs = (Ok token, fs')
        /\ token <> ""
        /\ forall ua,
             Api.headers (Cli.client p) ua
             = [ ("Content-Type", "application/json"); ("Accept", "application/json");
                 ("User-Agent", ua); ("X-Visitor-Token", token) ]%string).
Proof.
  unfold Cli.prepare. intros H.
  destruct (Cli.expand e args []) as [[|f fileList]|]; try done.
  destruct (Cli.noToken fl).
  - simplify_eq. cbn. split; [done|]. split; [done|]. by intros [=].
  - destruct (Config.GetVisitorToken cfg fs) as [[token|] fs1] eqn:Htok; simplify_eq.
    cbn. split; [done|]. split; [by intros [=]|]. intros _.
    exists token. pose proof (GetVisitorToken_nonempty _ _ _ _ Htok) as Hne.
    split; [done|]. split; [done|]. intros ua. unfold Api.headers. cbn.
    destruct (String.eqb token "") eqn:Heq; [|done].
    by apply String.eqb_eq in Heq.
Qed.

(** An anonymous run on a machine without a token leaves it without
    one; a normal run creates the token and sends it. *)
Lemma runUpload_visitor_token_witness :
  snd (Cli.prepare Cli.env_logs Config.env_fresh ∅ Cli.anonymous_flags ["a.log"%string]) = ∅
  /\ (exists p,
        fst (Cli.prepare Cli.env_logs Config.env_fresh ∅ Cli.default_flags ["a.log"%string])
        = Ok p
        /\ Api.headers (Cli.client p) "storageto-cli/dev (linux/amd64)"
           = [ ("Content-Type", "application/json"); ("Accept", "application/json");
               ("User-Agent", "storageto-cli/dev (linux/amd64)");
               ("X-Visitor-Token", "cli_00010203fafbfcfd10203040506070ff") ]%string).
Proof.
  split.
  - destruct (Cli.prepare Cli.env_logs Config.env_fresh ∅ Cli.anonymous_flags
                ["a.log"%string]) as [[p|err] fs'] eqn:Hp; [|vm_compute in Hp; discriminate].
    destruct (runUpload_visitor_token _ _ _ _ _ _ _ Hp) as (_ & Hanon & _).
    by destruct (Hanon eq_refl) as [-> _].
  - vm_compute. eexists. split; reflexivity.
Defined.

(** ** [humanSize]: the layout of what it prints *)

(** X26. [humanSize] prints a size below 1024, negative sizes included,
    as the plain number followed by [" B"], and a size from 1024 on as
    a number with one decimal and a unit letter; that number lies
    between 1.0 and 1024.0, both included: rounding to one decimal can
    carry a size just below the next unit up to 1024.0 of the smaller
    one. *)
Theorem humanSize_layout (b : Z) :
  in_int64 b ->
  (b < 1024 -> humanSize b = Returns (Itoa b ++ " B")%string)
  /\ (1024 <= b ->
      exists (tenths : Z) (e : nat) (c : ascii),
        (e <= 5)%nat
        /\ 10 <= tenths <= 10240
        /\ String.get e "KMGTPE" = Some c
        /\ humanSize b
           = Returns (Itoa (tenths / 10) ++ "." ++ Itoa (tenths mod 10)
                      ++ " " ++ String c "B")%string).
Proof.
  intros Hb. split.
  - intros Hlt. unfold humanSize, humanParts.
    assert ((b <? 1024) = true) as -> by lia. reflexivity.
  - intros Hge.
    assert (1024 <= b <= max_int64) as Hrange by (unfold in_int64 in Hb; lia).
    destruct (unit_range b Hrange) as (e & He & Hunit).
    destruct (unitLetter_small e He) as [c Hc].
    exists (roundHalfEven (10 * float64_of_int b) (1024 ^ (Z.of_nat e + 1))), e, c.
    split; [done|]. split; [by apply tenths_bounds|].
    split.
    + unfold unitLetter in Hc. destruct (Z.of_nat e <? 0); [done|].
      rewrite Nat2Z.id in Hc. destruct (String.get e "KMGTPE"); by simplify_eq.
    + unfold humanSize. rewrite (humanParts_scaled b e Hunit) by lia.
      cbn [renderSize]. by rewrite Hc.
Qed.

(** One byte below a mebibyte prints as 1024.0 KB; a negative size
    prints as it is. *)
Lemma humanSize_layout_witness :
  humanSize 1048575 = Returns "1024.0 KB"
  /\ humanSize (-5) = Returns (Itoa (-5) ++ " B")%string
  /\ Itoa (-5) = "-5".
Proof.
  split; [vm_compute; reflexivity|]. split; [|vm_compute; reflexivity].
  apply (humanSize_layout (-5)); [unfold in_int64, min_int64, max_int64|]; lia.
Defined.

(** ** Cancellation during a whole-file transfer *)

(** X27. When the caller cancels while an attempt of [uploadSingle] is
    on the wire, that attempt fails with "upload cancelled" and no
    further attempt is made: after the first or the second attempt the
    retry driver finds the context done in its wait and returns the
    context's own error; after the third it returns "upload cancelled"
    itself.  The checksum returned is 0. *)
Theorem uploadSingle_cancelled (env : putEnv) (size : Z) (k : nat) (e : error)
    (uploadCtx : ctxState) :
  (k < maxRetries)%nat ->
  (forall i, (i < k)%nat ->
     putCtxBefore env i = Active
     /\ fst (singleAttempt size (putResult env i) (putReads env i) 0) <> None
     /\ putCtxInWait env i = Active) ->
  putCtxBefore env k = Active ->
  putResult env k = TransportFailed e uploadCtx CtxCanceled ->
  uploadCtx <> CtxDeadline ->
  ((k < maxRetries - 1)%nat -> putCtxInWait env k = CtxCanceled) ->
  fst (singleAttempt size (putResult env k) (putReads env k) 0)
  = Some (Errorf "upload cancelled")
  /\ lastAttempt (snd (uploadSingle env size)) = Some k
  /\ fst (fst (uploadSingle env size)) = 0
  /\ snd (fst (uploadSingle env size))
     = Some (if (k <? maxRetries - 1)%nat then Canceled else Errorf "upload cancelled").
Proof.
  intros Hk Hbefore Hctx Hput Hnd Hwait.
  assert (fst (singleAttempt size (putResult env k) (putReads env k) 0)
          = Some (Errorf "upload cancelled")) as Hatt
    by (rewrite Hput; cbn; by destruct uploadCtx).
  split; [exact Hatt|].
  set (renv := putRetryEnv env (fun i => fst (singleAttempt size (putResult env i)
                                                            (putReads env i) 0))).
  assert (uploadWithRetry renv
          = (Some (if (k <? maxRetries - 1)%nat then Canceled
                   else Errorf "upload cancelled"),
             failedRounds k ++ [Invoked k])) as Hretry.
  { assert (forall i, (i < k)%nat -> failsQuietly renv i) as Hquiet
      by (intros i Hi; apply (Hbefore i Hi)).
    destruct (k <? maxRetries - 1)%nat eqn:Hlt.
    - apply Nat.ltb_lt in Hlt.
      apply (retry_cancelled_in_wait maxRetries renv k Canceled); try done.
      + cbn. by rewrite Hatt.
      + cbn. by rewrite (Hwait Hlt).
    - apply Nat.ltb_ge in Hlt. unfold maxRetries in *.
      assert (k = 2%nat) as -> by lia.
      destruct (retryLoop_skip 3 renv 2 1) as (err & Hskip & _ & _); [lia|done|].
      unfold uploadWithRetry, retry, maxRetries. cbn [Nat.add] in Hskip. rewrite Hskip.
      cbn [retryLoop]. cbn [renv putRetryEnv ctxBefore fnResult]. rewrite Hctx, Hatt.
      reflexivity. }
  assert (invocations (failedRounds k ++ [Invoked k]) = seq 0 k ++ [k]) as Hinv.
  { unfold invocations. rewrite omap_app. fold (invocations (failedRounds k)).
    by rewrite invocations_failedRounds. }
  unfold uploadSingle, lastAttempt. fold renv. rewrite Hretry. cbn [fst snd].
  rewrite Hinv. split; [by rewrite last_snoc|]. split; [|done].
  apply (fold_failed_attempts _ (fun i => (i <= k)%nat)).
  - intros i Hi. apply singleAttempt_failed.
    destruct (decide (i = k)) as [->|Hne]; [by rewrite Hatt|].
    apply Hbefore. lia.
  - intros i Hi. apply elem_of_app in Hi as [Hi|Hi].
    + apply elem_of_seq in Hi. lia.
    + apply list_elem_of_singleton in Hi. lia.
Qed.

(** Cancelled during the first attempt, and during the third. *)
Lemma uploadSingle_cancelled_witness :
  snd (fst (uploadSingle env_single_cancelled 9)) = Some Canceled
  /\ snd (fst (uploadSingle env_single_cancelled_late 9)) = Some (Errorf "upload cancelled")
  /\ invocations (snd (uploadSingle env_single_cancelled 9)) = [0%nat]
  /\ invocations (snd (uploadSingle env_single_cancelled_late 9)) = [0; 1; 2]%nat.
Proof.
  split; [|split; [|split; vm_compute; reflexivity]].
  - apply (uploadSingle_cancelled env_single_cancelled 9 0
             (Errorf "context canceled") CtxCanceled); try done.
    + unfold maxRetries. lia.
    + intros i Hi. lia.
  - apply (uploadSingle_cancelled env_single_cancelled_late 9 2
             (Errorf "context canceled") CtxCanceled); try done.
    + unfold maxRetries. lia.
    + intros [|[|i]] Hi; [done|done|lia].
    + unfold maxRetries. lia.
Defined.

(** ** What a batch confirms *)

Lemma confirmed_app (l1 l2 : list batchEffect) :
  confirmed (l1 ++ l2) = confirmed l1 ++ confirmed l2.
Proof. unfold confirmed. by rewrite omap_app, concat_app. Qed.

Lemma confirmed_initEffects (ps : list (list fileMetadata)) :
  confirmed (initEffects ps) = [].
Proof. unfold confirmed, initEffects. by induction ps. Qed.

Lemma confirmed_putEffects (env : batchEnv) (files : list fileMetadata) :
  confirmed (putEffects env files) = [].
Proof.
  unfold confirmed, putEffects.
  by induction (filter (fun f => noPlan f = false) (take (visited env 0 files) files)).
Qed.

Lemma confirmed_confirmEffects (id : string) (ps : list (list fileMetadata)) :
  confirmed (confirmEffects id ps) = map confirmRecord (concat ps).
Proof.
  unfold confirmed, confirmEffects. induction ps as [|b ps IH]; [done|].
  cbn in *. rewrite map_app. by f_equal.
Qed.

Lemma afterLoop_unplanned (env : batchEnv) (files : list fileMetadata) (f : fileMetadata) :
  f ∈ files -> noPlan f = true -> f ∈ afterLoop env files.
Proof.
  intros Hf Hplan. unfold afterLoop.
  rewrite <- (take_drop (visited env 0 files) files) in Hf.
  apply elem_of_app in Hf as [Hf|Hf]; apply elem_of_app; [left|by right].
  apply list_elem_of_fmap. exists f. split; [|done].
  unfold afterTransfer. by rewrite Hplan.
Qed.

Lemma collectMetadata_crc (env : batchEnv) (paths : list string) :
  forall (i : nat) (files : list fileMetadata),
    fst (collectMetadata env i paths []) = Ok files ->
    Forall (fun f => f_crc32 f = 0) files.
Proof.
  induction paths as [|q paths IH]; intros i files Hfiles.
  - cbn in Hfiles. by simplify_eq.
  - cbn [collectMetadata] in Hfiles. destruct (osOpen env q); [done|].
    destruct (fileStat env q) as [sz|e]; [|done].
    unfold mbind, M_bind in Hfiles. cbn [orWrap] in Hfiles.
    rewrite mret_run, collectMetadata_log in Hfiles.
    destruct (fst (collectMetadata env (S i) paths [])) as [fs|e] eqn:Hfs; [|done].
    cbn in Hfiles. simplify_eq. constructor; [done|]. by apply (IH (S i)).
Qed.

Lemma storeResults_crc (results : gmap string InitBatchResult) (b : list fileMetadata) :
  Forall (fun f => f_crc32 f = 0) b ->
  Forall (fun f => f_crc32 f = 0) (storeResults results b).
Proof.
  unfold storeResults. intros Hb.
  assert (forall i f, f_crc32 (storeResult results i f) = f_crc32 f) as Hg.
  { intros i f. unfold storeResult. by repeat case_match. }
  revert Hg. generalize (storeResult results). intros g Hg.
  revert g Hg. induction Hb as [|f b Hf Hb IH]; intros g Hg; [constructor|].
  cbn. constructor; [by rewrite Hg|]. apply IH. intros i f'. apply Hg.
Qed.

Lemma initPages_crc (env : batchEnv) (ps : list (list fileMetadata)) :
  forall (page : nat) (negotiated : list fileMetadata),
    fst (initPages env page ps []) = Ok negotiated ->
    Forall (fun f => f_crc32 f = 0) (concat ps) ->
    Forall (fun f => f_crc32 f = 0) negotiated.
Proof.
  induction ps as [|b ps IH]; intros page neg Hneg Hps.
  - cbn in Hneg. by simplify_eq.
  - cbn [initPages] in Hneg. unfold mbind, M_bind in Hneg. rewrite emit_run in Hneg.
    destruct (initBatch env page (batchRequest b)) as [results|e]; cbn [orWrap] in Hneg;
      [|done].
    rewrite mret_run, initPages_log in Hneg.
    destruct (fst (initPages env (S page) ps [])) as [fs|e] eqn:Hfs; [|done].
    cbn in Hneg. simplify_eq. cbn [concat] in Hps. apply Forall_app in Hps as [Hb Hps].
    apply Forall_app. split; [by apply storeResults_crc|by apply (IH (S page))].
Qed.

(** X28. What decides whether a batch sends a file for confirmation is
    its record alone: no error and a storage key.  So a file whose
    negotiation answer carries a storage key but no upload URL (as the
    answer for a multipart plan does) is never transferred by the
    batch, and is nevertheless sent for confirmation, with the checksum
    0, when the batch gets that far. *)
Theorem batch_confirms_by_key (env : batchEnv) (paths : list string)
    (files negotiated : list fileMetadata) (r : Result) (f : fileMetadata) :
  fst (uploadFilesBatch env paths) = Ok r ->
  fst (collectMetadata env 0 paths []) = Ok files ->
  fst (initPages env 0 (pages batchSize files) []) = Ok negotiated ->
  f ∈ negotiated ->
  f_uploadErr f = None -> f_uploadURL f = "" -> f_r2Key f <> "" ->
  (PutFile f ∉ snd (uploadFilesBatch env paths))
  /\ (confirmRecord f ∈ confirmed (snd (uploadFilesBatch env paths)))
  /\ cf_CRC32 (confirmRecord f) = 0.
Proof.
  intros Hr Hfiles Hneg Hf Herr Hurl Hkey.
  assert (noPlan f = true) as Hplan.
  { unfold noPlan. rewrite Hurl. rewrite (bool_decide_eq_true_2 ("" = "")) by done.
    by rewrite orb_true_r. }
  assert (confirmable f = true) as Hconf.
  { unfold confirmable.
    by rewrite (bool_decide_eq_true_2 _ Herr), (bool_decide_eq_true_2 _ Hkey). }
  destruct (uploadFilesBatch_outcome env paths) as
    [e He|files' e Hf' Hc|files' coll k b e Hf' Hc Hk Hb He
    |files' neg coll k b e Hf' Hc Hn Hk Hb He|files' neg coll e Hf' Hc Hn Hb He
    |files' neg coll ready errors Hf' Hc Hn Hb Hready]; try done.
  rewrite Hfiles in Hf'. simplify_eq. rewrite Hneg in Hn. simplify_eq.
  split; [|split].
  - intros Hin.
    assert (PutFile f ∈ putEffects env neg) as Hput.
    { repeat first [ assumption
                   | apply elem_of_cons in Hin as [Hin|Hin]; [discriminate|]
                   | apply elem_of_app in Hin as [Hin|Hin]
                   | wrong_stage
                   | by destruct (0 <? errors); wrong_stage ]. }
    unfold putEffects in Hput. apply list_elem_of_fmap in Hput as (g & [= <-] & Hg).
    apply list_elem_of_filter in Hg as [Hg _]. by rewrite Hplan in Hg.
  - change (CreateCollection (Z.of_nat (length files')) :: ?l)
      with ([CreateCollection (Z.of_nat (length files'))] ++ l).
    rewrite !confirmed_app, confirmed_initEffects, confirmed_putEffects,
      confirmed_confirmEffects.
    cbn [app]. apply elem_of_app. right. apply elem_of_app. left.
    apply list_elem_of_fmap_2. unfold confirmPagesOf. rewrite pages_concat.
    apply list_elem_of_filter. split; [done|]. by apply afterLoop_unplanned.
  - assert (Forall (fun g => f_crc32 g = 0) neg) as Hcrc.
    { apply (initPages_crc env _ 0 _ Hneg). rewrite pages_concat.
      by apply (collectMetadata_crc env paths 0). }
    rewrite Forall_forall in Hcrc. cbn. by apply Hcrc.
Qed.

(** The second of three files gets a multipart plan: it is not
    transferred, it is confirmed with the others, and the warning counts
    it as the one failed file. *)
Lemma batch_confirms_by_key_witness :
  (confirmRecord second_file
     ∈ confirmed (snd (uploadFilesBatch env_second_multipart three_paths)))
  /\ map f_path (transferred (snd (uploadFilesBatch env_second_multipart three_paths)))
     = ["a.txt"; "c.txt"]%string
  /\ map cf_Filename (confirmed (snd (uploadFilesBatch env_second_multipart three_paths)))
     = ["a.txt"; "b.bin"; "c.txt"]%string
  /\ warnings (snd (uploadFilesBatch env_second_multipart three_paths)) = [1].
Proof.
  split; [|split; [|split]; vm_compute; reflexivity].
  refine (proj1 (proj2 (batch_confirms_by_key env_second_multipart three_paths
                          _ _ _ second_file _ _ _ _ _ _ _))).
  - vm_compute. reflexivity.
  - vm_compute. reflexivity.
  - vm_compute. reflexivity.
  - apply (list_elem_of_lookup_2 _ 1). reflexivity.
  - reflexivity.
  - reflexivity.
  - discriminate.
Defined.

(** * The embedding at work *)

(** A part whose first answer is a 503 and whose second carries an
    empty quoted tag is uploaded three times, with the two waits
    between; the tag of the third answer is returned without its
    quotes. *)
Example uploadPart_third_try :
  uploadPart env_etag_third_try
  = ("9b2cf535f27731c9"%string, None,
     [Invoked 0; Waited 2; Invoked 1; Waited 2; Invoked 2]).
Proof. vm_compute. reflexivity. Qed.

(** A whole-file upload cut off after four bytes starts again from the
    first byte: the checksum is that of the nine bytes of the second
    attempt. *)
Example uploadSingle_second_try :
  uploadSingle env_single_second_try 9
  = (0xCBF43926, None, [Invoked 0; Waited 2; Invoked 1]).
Proof. vm_compute. reflexivity. Qed.

(** One small file: opened, negotiated, sent with a single PUT,
    confirmed with the checksum of the transfer, closed. *)
Example UploadFile_small_file :
  snd (UploadFile env_one_small_file "/tmp/notes.txt" "")
  = [ FileOpen "/tmp/notes.txt";
      CallInitUpload {| iu_Filename := "notes.txt"; iu_ContentType := "text/plain";
                        iu_Size := 9 |};
      RunUploadSingle "https://r2/put/1" "text/plain" 9;
      CallConfirmUpload {| cu_Filename := "notes.txt"; cu_Size := 9;
                           cu_ContentType := "text/plain";
                           cu_R2Key := "uploads/abc/notes.txt";
                           cu_CollectionID := ""; cu_CRC32 := 0xCBF43926 |};
      FileClose "/tmp/notes.txt" ].
Proof. vm_compute. reflexivity. Qed.

(** A 429 answer is reported in the service's words, and a 200 answer
    that says [success: false] with the text of its [error] field. *)
Example InitUpload_refusals :
  fst (Api.InitUpload (Api.NewClient "https://storage.to" "cli_ab") Api.env_rate_limited)
  = Failed (Errorf "Daily upload limit reached")
  /\ fst (Api.InitUpload (Api.NewClient "https://storage.to" "") Api.env_refused)
     = Failed (Errorf "File too large")
  /\ option_map Api.reqURL
       (snd (Api.InitUpload (Api.NewClient "https://storage.to" "") Api.env_refused))
     = Some "https://storage.to/api/upload/init"%string.
Proof. repeat split; vm_compute; reflexivity. Qed.
